(** * YouTube view-statistics dashboard: channel resolution, pagination,
      statistics batching and series building

    Shallow embedding of [src/main.py].  The remote API client ([youtube])
    is an external collaborator: it is modelled as a service, a transition
    function on an abstract world that answers each [request.execute()]
    with a response or an exception.  [while] loops that depend on what the
    service answers take a fuel argument.

    The series of [handle_worker_finished] is computed by pandas and
    numpy.  What they do to the records is embedded as they do it: the
    reading of the upload dates by [pd.to_datetime], which can raise; the
    introsort that [sort_values] runs by default; and the rolling mean,
    pandas' [roll_mean] on IEEE 754 binary64 numbers, for which the
    Standard Library's specification of floats is used. *)

From Equations Require Import Equations.
From Stdlib Require Import List Arith Lia String Ascii Bool ZArith QArith
  SpecFloat
  Permutation Sorted.
From Stdlib Require DecimalString.
Import ListNotations.
Open Scope string_scope.
Open Scope nat_scope.

(* ================================================================== *)
(** * Python strings *)
(* ================================================================== *)

Module PyStr.

(** [s[n:]] *)
Fixpoint drop (n : nat) (s : string) : string :=
  match n, s with
  | S n', String _ s' => drop n' s'
  | _, _ => s
  end.

(** [sub in s] *)
Fixpoint py_in (sub s : string) : bool :=
  if prefix sub s then true
  else match s with
       | EmptyString => false
       | String _ s' => py_in sub s'
       end.

(** [s.partition(sep)] at the first occurrence of [sep], [None] when there
    is none: the text before it and the text after it. *)
Fixpoint cut (sep s : string) : option (string * string) :=
  if prefix sep s then Some (EmptyString, drop (length sep) s)
  else match s with
       | EmptyString => None
       | String c s' =>
           match cut sep s' with
           | Some (a, b) => Some (String c a, b)
           | None => None
           end
       end.

Lemma append_length s t : length (s ++ t) = length s + length t.
Proof. induction s; simpl; auto. Qed.

Lemma prefix_drop p s : prefix p s = true -> s = p ++ drop (length p) s.
Proof.
  revert s; induction p as [|c p IH]; intros s H; simpl in *.
  - destruct s; reflexivity.
  - destruct s as [|d s]; simpl in H; [discriminate|].
    destruct (ascii_dec c d) as [->|]; [|discriminate].
    simpl. f_equal. apply IH, H.
Qed.

Lemma cut_eq sep s :
  cut sep s =
  if prefix sep s then Some (EmptyString, drop (length sep) s)
  else match s with
       | EmptyString => None
       | String c s' =>
           match cut sep s' with
           | Some (a, b) => Some (String c a, b)
           | None => None
           end
       end.
Proof. destruct s; reflexivity. Qed.

Lemma cut_app sep s a b : cut sep s = Some (a, b) -> s = a ++ sep ++ b.
Proof.
  revert a b; induction s as [|c s IH]; intros a b; rewrite cut_eq;
    destruct (prefix sep _) eqn:P.
  - intros [= <- <-]. apply prefix_drop in P. exact P.
  - discriminate.
  - intros [= <- <-]. apply prefix_drop in P. exact P.
  - destruct (cut sep s) as [[a' b']|]; [|discriminate].
    intros [= <- <-]. simpl. f_equal. apply IH. reflexivity.
Qed.

Lemma cut_shorter sep s a b :
  cut sep s = Some (a, b) -> length b + length sep <= length s.
Proof.
  intros H. apply cut_app in H. subst s.
  rewrite !append_length. lia.
Qed.

Definition inspect {A} (a : A) : {b : A | a = b} := exist _ a eq_refl.

(** [s.split(sep)]: the pieces between the occurrences of [sep], found
    from the left without overlap.  Python raises [ValueError] for an empty
    separator; both separators of the program are non-empty literals, and
    the model returns the string whole in that case. *)
Equations? split (sep s : string) : list string by wf (length s) lt :=
  split EmptyString s := [s];
  split (String c sep') s with inspect (cut (String c sep') s) => {
    | exist _ None _ := [s];
    | exist _ (Some (a, b)) H := a :: split (String c sep') b }.
Proof.
  apply cut_shorter in H. simpl in H. lia.
Qed.

(** [s.rstrip(c)] for a single character [c]. *)
Fixpoint rstrip (c : ascii) (s : string) : string :=
  match s with
  | EmptyString => EmptyString
  | String d s' =>
      match rstrip c s' with
      | EmptyString => if Ascii.eqb d c then EmptyString else String d EmptyString
      | r => String d r
      end
  end.

End PyStr.

Import PyStr.
Open Scope list_scope.

(* ================================================================== *)
(** * The remote API as seen by the program *)
(* ================================================================== *)

(** Exceptions the program distinguishes: [ssl.SSLError] has a handler of
    its own, everything else is caught as [Exception]. *)
Inductive exn : Type :=
| SSLError (msg : string)
| HttpError (msg : string)      (* any other failure of [request.execute()] *)
| KeyError (key : string)       (* a missing entry of a response dict *)
| ValueError (msg : string).

Definition is_ssl (e : exn) : bool :=
  match e with SSLError _ => true | _ => false end.

(** [item['statistics'].get('viewCount', 0)] passed through [int]. *)
Inductive view_count_field : Type :=
| NoStatistics                  (* no ['statistics'] entry: KeyError *)
| NoViewCount                   (* no ['viewCount'] entry: the default 0 *)
| BadViewCount                  (* [int] rejects the text: ValueError *)
| ViewCount (v : Z).

(** [item['snippet']], with the entries the program reads. *)
Record snippet : Type := mk_snippet {
  snippet_channelId : option string;
  snippet_publishedAt : option string;
  snippet_title : option string
}.

(** One entry of [response['items']], with the entries the program reads;
    [None] is a key that is not there. *)
Record item : Type := mk_item {
  item_id_entry : option string;                  (* ['id'] *)
  item_contentDetails : option (option string);   (* ['contentDetails']
                                                     and its ['videoId'] *)
  item_snippet : option snippet;                  (* ['snippet'] *)
  item_viewCount : view_count_field
}.

(** A subscript [d[key]]: the value, or the [KeyError] of the key. *)
Definition subscript {A} (key : string) (entry : option A) : A + exn :=
  match entry with
  | Some a => inl a
  | None => inr (KeyError key)
  end.

(** [item['id']] *)
Definition item_id (it : item) : string + exn :=
  subscript "id" (item_id_entry it).

(** [item['contentDetails']['videoId']] *)
Definition item_videoId (it : item) : string + exn :=
  match subscript "contentDetails" (item_contentDetails it) with
  | inl details => subscript "videoId" details
  | inr e => inr e
  end.

(** [item['snippet'][key]] *)
Definition snippet_entry (key : string) (entry : snippet -> option string)
    (it : item) : string + exn :=
  match subscript "snippet" (item_snippet it) with
  | inl sn => subscript key (entry sn)
  | inr e => inr e
  end.

Definition item_channelId : item -> string + exn :=
  snippet_entry "channelId" snippet_channelId.
Definition item_publishedAt : item -> string + exn :=
  snippet_entry "publishedAt" snippet_publishedAt.
Definition item_title : item -> string + exn :=
  snippet_entry "title" snippet_title.

Record response : Type := mk_response {
  items : option (list item);         (* ['items'], when present *)
  nextPageToken : option string       (* .get('nextPageToken') *)
}.

Inductive request : Type :=
| channels_list_forUsername (forUsername : string)
| search_list (q : string)
| playlistItems_list (playlistId : string) (maxResults : nat)
                     (pageToken : option string)
| videos_list (id : string).

(** What one [request.execute()] does. *)
Definition outcome : Type := (response + exn)%type.

Inductive result (A : Type) : Type :=
| Return (a : A)
| Raise (e : exn)
| OutOfFuel.
Arguments Return {A} a.
Arguments Raise {A} e.
Arguments OutOfFuel {A}.

(** Python truth value of [response.get('nextPageToken')]. *)
Definition truthy (tok : option string) : bool :=
  match tok with
  | Some EmptyString => false
  | Some _ => true
  | None => false
  end.

(** One row of [statistics]. *)
Record video_stat : Type := mk_stat {
  video_id : string;
  title : string;
  view_count : Z;
  upload_date : string
}.

(** [range(0, stop, step)] *)
Definition range_step (stop step : nat) : list nat :=
  map (fun k => k * step) (seq 0 ((stop + step - 1) / step)).

(** [l[i:j]] *)
Definition slice {A} (i j : nat) (l : list A) : list A :=
  firstn (j - i) (skipn i l).

(** [','.join(batch_ids)] *)
Definition join_ids (batch_ids : list string) : string :=
  String.concat "," batch_ids.

(** The body of the [for item in response['items']] loop of
    [get_videos_statistics], up to the [append]. *)
Definition parse_item (it : item) : video_stat + exn :=
  match item_id it with
  | inr e => inr e
  | inl vid =>
      match item_viewCount it with
      | NoStatistics => inr (KeyError "statistics")
      | BadViewCount => inr (ValueError "invalid literal for int()")
      | vc =>
          let v := match vc with ViewCount v => v | _ => 0%Z end in
          match item_publishedAt it with
          | inr e => inr e
          | inl d =>
              match item_title it with
              | inr e => inr e
              | inl t => inl (mk_stat vid t v d)
              end
          end
      end
  end.

(** The [for] loop over the items: [statistics] is updated in place, so
    the rows appended before an item that raises stay in it. *)
Fixpoint append_statistics (statistics : list video_stat) (its : list item)
  : list video_stat * option exn :=
  match its with
  | [] => (statistics, None)
  | it :: rest =>
      match parse_item it with
      | inl row => append_statistics (statistics ++ [row]) rest
      | inr e => (statistics, Some e)
      end
  end.

(** [if 'items' in response: for item in response['items']: ...] *)
Definition collect_statistics (statistics : list video_stat) (r : response)
  : list video_stat * option exn :=
  match items r with
  | Some its => append_statistics statistics its
  | None => (statistics, None)
  end.

(** [for item in response['items']: video_ids.append(...)] of
    [get_all_video_ids]. *)
Fixpoint append_video_ids (video_ids : list string) (its : list item)
  : list string + exn :=
  match its with
  | [] => inl video_ids
  | it :: rest =>
      match item_videoId it with
      | inl v => append_video_ids (video_ids ++ [v]) rest
      | inr e => inr e
      end
  end.

(** The same loop in [get_last_n_video_ids], which leaves as soon as
    [len(video_ids) == n]. *)
Fixpoint append_video_ids_upto (n : nat) (video_ids : list string)
    (its : list item) : list string + exn :=
  match its with
  | [] => inl video_ids
  | it :: rest =>
      match item_videoId it with
      | inl v =>
          let video_ids' := video_ids ++ [v] in
          if List.length video_ids' =? n then inl video_ids'
          else append_video_ids_upto n video_ids' rest
      | inr e => inr e
      end
  end.

Section Client.

(** The [youtube] client: a world and what executing a request does to it. *)
Variable W : Type.
Variable exec : W -> request -> outcome * W.

(** [extract_channel_id(youtube, url)]; the outer [try] re-raises what it
    catches. *)
Definition first_channel (field : item -> string + exn) (r : response)
  : option (result string) :=
  match items r with
  | Some (it :: _) =>
      Some (match field it with
            | inl cid => Return cid
            | inr e => Raise e
            end)
  | _ => None
  end.

Definition search_channel (url name : string) (w : W) : result string * W :=
  let (out, w1) := exec w (search_list name) in
  match out with
  | inr e => (Raise e, w1)
  | inl r =>
      match first_channel item_channelId r with
      | Some res => (res, w1)
      | None => (Raise (ValueError ("Channel not found for URL: " ++ url)%string), w1)
      end
  end.

Definition extract_channel_id (url : string) (w : W) : result string * W :=
  if py_in "/channel/" url then
    (Return (hd "" (split "/" (last (split "/channel/" url) ""))), w)
  else if py_in "/user/" url || py_in "/c/" url then
    let username := last (split "/" (rstrip "/" url)) "" in
    let (out, w1) := exec w (channels_list_forUsername username) in
    match out with
    | inr e => (Raise e, w1)
    | inl r =>
        match first_channel item_id r with
        | Some res => (res, w1)
        | None => search_channel url username w1
        end
    end
  else if py_in "/@" url then
    let handle := last (split "/" (rstrip "/" url)) "" in
    search_channel url handle w
  else
    (Raise (ValueError ("Invalid YouTube channel URL format: " ++ url)%string), w).

(** [get_all_video_ids(youtube, uploads_playlist_id)].  One unit of fuel
    per turn of the [while True] loop. *)
Fixpoint all_loop (uploads_playlist_id : string) (fuel : nat)
    (video_ids : list string) (next_page_token : option string)
    (retries : nat) (w : W) : result (list string) * W :=
  match fuel with
  | 0 => (OutOfFuel, w)
  | S fuel' =>
      let (out, w1) :=
        exec w (playlistItems_list uploads_playlist_id 50 next_page_token) in
      match out with
      | inl r =>
          match items r with
          | None => (Return video_ids, w1)
          | Some its =>
              match append_video_ids video_ids its with
              | inr e => (Raise e, w1)
              | inl video_ids' =>
                  let next := nextPageToken r in
                  if truthy next
                  then all_loop uploads_playlist_id fuel' video_ids' next
                                retries w1
                  else (Return video_ids', w1)
              end
          end
      | inr e =>
          if is_ssl e then
            let retries' := retries - 1 in
            if 0 <? retries'
            then all_loop uploads_playlist_id fuel' video_ids next_page_token
                          retries' w1
            else (Raise e, w1)
          else (Raise e, w1)
      end
  end.

Definition get_all_video_ids (fuel : nat) (uploads_playlist_id : string)
    (w : W) : result (list string) * W :=
  all_loop uploads_playlist_id fuel [] None 3 w.

(** [get_last_n_video_ids(youtube, uploads_playlist_id, n)].  The loop
    condition costs no fuel, each turn of the body one unit. *)
Fixpoint last_n_loop (uploads_playlist_id : string) (n : nat) (fuel : nat)
    (video_ids : list string) (next_page_token : option string)
    (retries : nat) (w : W) : result (list string) * W :=
  if List.length video_ids <? n then
    match fuel with
    | 0 => (OutOfFuel, w)
    | S fuel' =>
        let (out, w1) :=
          exec w (playlistItems_list uploads_playlist_id
                    (Nat.min (n - List.length video_ids) 50) next_page_token) in
        match out with
        | inl r =>
            match items r with
            | None => (Return video_ids, w1)
            | Some its =>
                match append_video_ids_upto n video_ids its with
                | inr e => (Raise e, w1)
                | inl video_ids' =>
                    let next := nextPageToken r in
                    if truthy next
                    then last_n_loop uploads_playlist_id n fuel' video_ids'
                                     next retries w1
                    else (Return video_ids', w1)
                end
            end
        | inr e =>
            if is_ssl e then
              let retries' := retries - 1 in
              if 0 <? retries'
              then last_n_loop uploads_playlist_id n fuel' video_ids
                               next_page_token retries' w1
              else (Raise e, w1)
            else (Raise e, w1)
        end
    end
  else (Return video_ids, w).

Definition get_last_n_video_ids (fuel : nat) (uploads_playlist_id : string)
    (n : nat) (w : W) : result (list string) * W :=
  last_n_loop uploads_playlist_id n fuel [] None 3 w.

(** The [while retries > 0] loop in the [ssl.SSLError] handler of
    [get_videos_statistics]: [retries] only decreases, so the loop is
    structural.  The middle component is the exception raised out of the
    function, if any. *)
Fixpoint retry_batch (retries : nat) (batch_ids : list string)
    (statistics : list video_stat) (w : W)
  : list video_stat * option exn * W :=
  match retries with
  | 0 => (statistics, None, w)
  | S retries' =>
      let (out, w1) := exec w (videos_list (join_ids batch_ids)) in
      match out with
      | inl r => (fst (collect_statistics statistics r), None, w1)
      | inr e =>
          if is_ssl e then
            if retries' =? 0 then (statistics, Some e, w1)
            else retry_batch retries' batch_ids statistics w1
          else (statistics, None, w1)
      end
  end.

(** The [for i in range(0, len(video_ids), 50)] loop, over the values of
    [batch_ids]. *)
Fixpoint statistics_loop (batches : list (list string))
    (statistics : list video_stat) (w : W)
  : result (list video_stat) * W :=
  match batches with
  | [] => (Return statistics, w)
  | batch_ids :: rest =>
      let (out, w1) := exec w (videos_list (join_ids batch_ids)) in
      match out with
      | inl r => statistics_loop rest (fst (collect_statistics statistics r)) w1
      | inr e =>
          if is_ssl e then
            match retry_batch 3 batch_ids statistics w1 with
            | (_, Some e', w2) => (Raise e', w2)
            | (statistics', None, w2) => statistics_loop rest statistics' w2
            end
          else statistics_loop rest statistics w1
      end
  end.

Definition batches (video_ids : list string) : list (list string) :=
  map (fun i => slice i (i + 50) video_ids)
      (range_step (List.length video_ids) 50).

Definition get_videos_statistics (video_ids : list string) (w : W)
  : result (list video_stat) * W :=
  statistics_loop (batches video_ids) [] w.

End Client.

Arguments first_channel field r : assert.
Arguments search_channel {W} exec url name w.
Arguments extract_channel_id {W} exec url w.
Arguments all_loop {W} exec uploads_playlist_id fuel video_ids
  next_page_token retries w.
Arguments get_all_video_ids {W} exec fuel uploads_playlist_id w.
Arguments last_n_loop {W} exec uploads_playlist_id n fuel video_ids
  next_page_token retries w.
Arguments get_last_n_video_ids {W} exec fuel uploads_playlist_id n w.
Arguments retry_batch {W} exec retries batch_ids statistics w.
Arguments statistics_loop {W} exec batches statistics w.
Arguments get_videos_statistics {W} exec video_ids w.

(** A client that also keeps the list of the requests it executed, with
    what each one gave. *)
Definition trace : Type := list (request * outcome).

Definition traced {W : Type} (exec : W -> request -> outcome * W)
  : W * trace -> request -> outcome * (W * trace) :=
  fun '(w, log) req =>
    let (out, w1) := exec w req in (out, (w1, log ++ [(req, out)])).

(** A service given by a script: the next entry decides the next
    execution, [None] and the end of the script leave it to [serve]. *)
Definition scripted (serve : request -> outcome)
  : list (option outcome) -> request -> outcome * list (option outcome) :=
  fun pending req =>
    match pending with
    | Some out :: rest => (out, rest)
    | None :: rest => (serve req, rest)
    | [] => (serve req, [])
    end.

(* ================================================================== *)
(** * A playlist behind the playlistItems endpoint *)
(* ================================================================== *)

Definition playlist_item (video : string) : item :=
  mk_item None (Some (Some video)) None NoStatistics.

Section Playlist.

(** Continuation tokens are opaque to the program: the service writes the
    position to resume from into a token with [enc] and reads it back with
    [dec]. *)
Variable enc : nat -> string.
Variable dec : string -> nat.

Definition page_offset (tok : option string) : nat :=
  match tok with
  | None => 0
  | Some t => dec t
  end.

(** The page of at most [m] entries that starts where [tok] says, with a
    token for the next page unless the playlist ends here. *)
Definition page (playlist : list string) (m : nat) (tok : option string)
  : response :=
  let o := page_offset tok in
  mk_response
    (Some (map playlist_item (firstn m (skipn o playlist))))
    (if o + m <? List.length playlist then Some (enc (o + m)) else None).

Definition playlist_service (playlist : list string) (req : request)
  : outcome :=
  match req with
  | playlistItems_list _ m tok => inl (page playlist m tok)
  | _ => inr (HttpError "not a playlistItems request")
  end.

End Playlist.

(** A concrete token codec: position [n] is written as [n + 1] letters. *)
Fixpoint unary (n : nat) : string :=
  match n with
  | 0 => "x"
  | S n' => String "x" (unary n')
  end.

Definition unary_pos (t : string) : nat := String.length t - 1.

(* ================================================================== *)
(** * The series of [handle_worker_finished] *)
(* ================================================================== *)

(** A [pd.Timestamp]: the stored instant in nanoseconds (since the epoch
    in UTC for a timezone-aware value, on the wall clock for a naive one)
    and the offset of its timezone. *)
Record Timestamp : Type := mk_ts {
  ts_value : Z;
  ts_tz : option Z
}.

(** What an [upload_date] cell holds when the frame is built: the text of
    the API, or a timestamp already. *)
Inductive date_cell : Type :=
| DateText (s : string)
| DateStamp (t : Timestamp).

(** A row of [video_stats] as [pd.DataFrame] receives it. *)
Record video_record : Type := mk_record {
  rec_video_id : string;
  rec_title : string;
  rec_view_count : Z;
  rec_upload_date : date_cell
}.

Definition record_of_stat (s : video_stat) : video_record :=
  mk_record (video_id s) (title s) (view_count s) (DateText (upload_date s)).

(** A row of [df] once [upload_date] is a datetime column. *)
Record frame_row : Type := mk_row {
  row_video_id : string;
  row_title : string;
  row_view_count : Z;
  row_upload_date : Timestamp
}.

Definition row_key (r : frame_row) : Z := ts_value (row_upload_date r).

(** [.dt.tz_convert(None)] on one value: the same instant, no timezone. *)
Definition tz_convert_none (r : frame_row) : frame_row :=
  mk_row (row_video_id r) (row_title r) (row_view_count r)
         (mk_ts (ts_value (row_upload_date r)) None).

Definition aware (r : frame_row) : bool :=
  match ts_tz (row_upload_date r) with
  | Some _ => true
  | None => false
  end.

(** [df['upload_date'].dt.tz is not None]: a datetime column has one
    timezone for all its rows (see [to_datetime] below), so the column has
    a timezone as soon as one of its rows has one. *)
Definition column_has_tz (df : list frame_row) : bool := existsb aware df.

(** [f] on every entry, [None] as soon as one entry has none. *)
Fixpoint traverse {A B} (f : A -> option B) (l : list A) : option (list B) :=
  match l with
  | [] => Some []
  | x :: l' =>
      match f x, traverse f l' with
      | Some y, Some ys => Some (y :: ys)
      | _, _ => None
      end
  end.

(* ------------------------------------------------------------------ *)
(** ** The texts of the API: [YYYY-MM-DDTHH:MM:SSZ] *)

Definition digit (c : ascii) : option Z :=
  let n := nat_of_ascii c in
  if (48 <=? n) && (n <=? 57) then Some (Z.of_nat (n - 48)) else None.

Fixpoint number (cs : list ascii) (acc : Z) : option Z :=
  match cs with
  | [] => Some acc
  | c :: cs' =>
      match digit c with
      | Some d => number cs' (10 * acc + d)%Z
      | None => None
      end
  end.

(** The number written at the positions [from .. from + len - 1]. *)
Definition field (cs : list ascii) (from len : nat) : option Z :=
  number (firstn len (skipn from cs)) 0%Z.

Definition char_is (cs : list ascii) (k : nat) (c : ascii) : bool :=
  match nth_error cs k with
  | Some x => Ascii.eqb x c
  | None => false
  end.

Definition leap_year (y : Z) : bool :=
  ((y mod 4 =? 0) && negb (y mod 100 =? 0) || (y mod 400 =? 0))%Z.

Definition days_in_month (y m : Z) : Z :=
  if (m =? 2)%Z then (if leap_year y then 29%Z else 28%Z)
  else if ((m =? 4) || (m =? 6) || (m =? 9) || (m =? 11))%Z then 30%Z
  else 31%Z.

(** The days from 1970-01-01 to the day [d] of the month [m] of the year
    [y] of the Gregorian calendar. *)
Definition days_from_civil (y m d : Z) : Z :=
  let y' := (if m <=? 2 then y - 1 else y)%Z in
  let era := (y' / 400)%Z in
  let yoe := (y' - era * 400)%Z in
  let mp := (if m <=? 2 then m + 9 else m - 3)%Z in
  let doy := ((153 * mp + 2) / 5 + d - 1)%Z in
  let doe := (yoe * 365 + yoe / 4 - yoe / 100 + doy)%Z in
  (era * 146097 + doe - 719468)%Z.

(** The timestamp that pandas reads in a text of the API: a date of the
    calendar and a time of the day to the second, in UTC.  A text of
    another form has none here; neither has a year that nanoseconds in 64
    bits do not reach. *)
Definition api_datetime (s : string) : option Timestamp :=
  let cs := list_ascii_of_string s in
  if (List.length cs =? 20)
     && char_is cs 4 "-" && char_is cs 7 "-" && char_is cs 10 "T"
     && char_is cs 13 ":" && char_is cs 16 ":" && char_is cs 19 "Z"
  then
    match field cs 0 4, field cs 5 2, field cs 8 2,
          field cs 11 2, field cs 14 2, field cs 17 2 with
    | Some y, Some m, Some d, Some hh, Some mm, Some ss =>
        if ((1678 <=? y) && (y <=? 2261) && (1 <=? m) && (m <=? 12)
            && (1 <=? d) && (d <=? days_in_month y m)
            && (hh <=? 23) && (mm <=? 59) && (ss <=? 59))%Z
        then
          Some (mk_ts ((((days_from_civil y m d * 24 + hh) * 60 + mm) * 60
                        + ss) * 1000000000)%Z
                      (Some 0%Z))
        else None
    | _, _, _, _, _, _ => None
    end
  else None.

(* ------------------------------------------------------------------ *)
(** ** float64 *)

(** The [moving_avg] column holds IEEE 754 binary64 numbers: 53 bits of
    mantissa, exponents below 1024, with the operations of the Standard
    Library's specification of floating-point numbers. *)
Definition prec : Z := 53.
Definition emax : Z := 1024.
Definition float64 : Type := spec_float.

(** The float64 nearest to an integer, ties to even. *)
Definition f64_of_Z (z : Z) : float64 := binary_normalize prec emax z 0 false.

Definition f64_add : float64 -> float64 -> float64 := SFadd prec emax.
Definition f64_sub : float64 -> float64 -> float64 := SFsub prec emax.
Definition f64_div : float64 -> float64 -> float64 := SFdiv prec emax.
Definition f64_zero : float64 := S754_zero false.

Definition signbit (f : float64) : bool :=
  match f with
  | S754_zero s | S754_infinity s | S754_finite s _ _ => s
  | S754_nan => false
  end.

(** [pd.isna] on a cell of the column. *)
Definition isna (f : float64) : bool :=
  match f with
  | S754_nan => true
  | _ => false
  end.

(** A view count as the float64 that the rolling window works on; an
    integer too large for a float64 raises ([None]). *)
Definition float64_of_int (z : Z) : option float64 :=
  match f64_of_Z z with
  | S754_infinity _ => None
  | f => Some f
  end.

(* ------------------------------------------------------------------ *)
(** ** [rolling(window).mean()] *)

(** The variables of pandas' [roll_mean]. *)
Record mean_state : Type := mk_mean_state {
  nobs : Z;
  sum_x : float64;
  neg_ct : Z;
  compensation_add : float64;
  compensation_remove : float64;
  num_consecutive_same_value : Z;
  prev_value : float64
}.

(** [add_mean]: a value enters the window, by Kahan summation. *)
Definition add_mean (val : float64) (st : mean_state) : mean_state :=
  if SFeqb val val then
    let y := f64_sub val (compensation_add st) in
    let t := f64_add (sum_x st) y in
    mk_mean_state
      (nobs st + 1) t
      (if signbit val then neg_ct st + 1 else neg_ct st)%Z
      (f64_sub (f64_sub t (sum_x st)) y)
      (compensation_remove st)
      (if SFeqb val (prev_value st)
       then num_consecutive_same_value st + 1 else 1)%Z
      val
  else st.

(** [remove_mean]: a value leaves the window. *)
Definition remove_mean (val : float64) (st : mean_state) : mean_state :=
  if SFeqb val val then
    let y := f64_sub (SFopp val) (compensation_remove st) in
    let t := f64_add (sum_x st) y in
    mk_mean_state
      (nobs st - 1) t
      (if signbit val then neg_ct st - 1 else neg_ct st)%Z
      (compensation_add st)
      (f64_sub (f64_sub t (sum_x st)) y)
      (num_consecutive_same_value st)
      (prev_value st)
  else st.

(** [calc_mean]: NaN until the window holds [minp] values; then the value
    itself when the window holds one value throughout, else the quotient
    of the sum by the number of values, or zero when the quotient has the
    sign that none of the values has. *)
Definition calc_mean (minp : Z) (st : mean_state) : float64 :=
  if ((minp <=? nobs st) && (0 <? nobs st))%Z then
    let result := f64_div (sum_x st) (f64_of_Z (nobs st)) in
    if (nobs st <=? num_consecutive_same_value st)%Z then prev_value st
    else if (neg_ct st =? 0)%Z && SFltb result f64_zero then f64_zero
    else if (neg_ct st =? nobs st)%Z && SFltb f64_zero result then f64_zero
    else result
  else S754_nan.

(** The bounds of the window that ends at the position [i]:
    [start[i] = max(0, i + 1 - window)] and [end[i] = i + 1]. *)
Definition window_start (win i : nat) : nat := i + 1 - win.
Definition window_end (i : nat) : nat := i + 1.

Definition value_at (values : list float64) (j : nat) : float64 :=
  nth j values S754_nan.

(** The state that the loop sets up for a window that shares nothing
    with the one before. *)
Definition setup (values : list float64) (s : nat) : mean_state :=
  mk_mean_state 0 f64_zero 0 f64_zero f64_zero 0 (value_at values s).

(** [for j in range(from, to): add_mean(values[j], ...)] *)
Definition add_range (values : list float64) (from to : nat)
    (st : mean_state) : mean_state :=
  fold_left (fun st j => add_mean (value_at values j) st)
            (seq from (to - from)) st.

Definition remove_range (values : list float64) (from to : nat)
    (st : mean_state) : mean_state :=
  fold_left (fun st j => remove_mean (value_at values j) st)
            (seq from (to - from)) st.

(** The loop of [roll_mean] from the position [i], for [count]
    positions. *)
Fixpoint roll_mean_from (win : nat) (minp : Z) (values : list float64)
    (i count : nat) (st : mean_state) : list float64 :=
  match count with
  | 0 => []
  | S count' =>
      let s := window_start win i in
      let e := window_end i in
      let st' :=
        if (i =? 0) || (window_end (i - 1) <=? s)
        then add_range values s e (setup values s)
        else add_range values (window_end (i - 1)) e
               (remove_range values (window_start win (i - 1)) s st) in
      calc_mean minp st' :: roll_mean_from win minp values (S i) count' st'
  end.

(** [roll_mean(values, start, end, minp)] with [minp] the window, which
    is what [min_periods] is when the call does not give it. *)
Definition roll_mean (win : nat) (values : list float64) : list float64 :=
  roll_mean_from win (Z.of_nat win) values 0 (List.length values)
    (setup values 0).

(** [df['view_count'].rolling(window=window_size).mean()] *)
Definition rolling_mean (win : nat) (view_counts : list Z)
  : option (list float64) :=
  match traverse float64_of_int view_counts with
  | Some values => Some (roll_mean win values)
  | None => None
  end.

(* ------------------------------------------------------------------ *)
(** ** [argsort(kind='quicksort')] *)

(** [sort_values] leaves [kind] at 'quicksort', which sorts the positions
    of the rows by numpy's [aquicksort_]: an introsort that partitions a
    range of more than 17 entries around the median of three, sorts a
    shorter range by insertion, and sorts a range by heapsort when the
    depth that it allows itself is spent.  A range of the array of
    positions is a list here, and an entry is compared by its key. *)
Module NumpySort.

Section Introsort.

Variable A : Type.
Variable key : A -> Z.

Definition less (x y : A) : bool := (key x <? key y)%Z.

Definition le_key (a b : A) : Prop := (key a <= key b)%Z.
Definition ge_key (a b : A) : Prop := (key b <= key a)%Z.
Definition has_key (k : Z) (x : A) : bool := (key x =? k)%Z.

(** The insertion sort of a short range: [rp] is the sorted part from
    its right end, and [x] goes left past the entries that it is below. *)
Fixpoint insert_back (x : A) (rp : list A) : list A :=
  match rp with
  | [] => [x]
  | y :: rp' => if less x y then y :: insert_back x rp' else x :: rp
  end.

Definition insertion (l : list A) : list A :=
  rev (fold_left (fun rp x => insert_back x rp) l []).

(** The three exchanges that put the median of the first, the middle and
    the last entry in the middle. *)
Definition order3 (x0 xm xr : A) : A * A * A :=
  let '(x0, xm) := if less xm x0 then (xm, x0) else (x0, xm) in
  let '(xm, xr) := if less xr xm then (xr, xm) else (xm, xr) in
  let '(x0, xm) := if less xm x0 then (xm, x0) else (x0, xm) in
  (x0, xm, xr).

(** [do { ++pi; } while (less(v[*pi], vp))]: the entries that [pi]
    passes, and the rest from the entry where it stops. *)
Fixpoint span_lt (vp : A) (mid : list A) : list A * list A :=
  match mid with
  | [] => ([], [])
  | x :: mid' =>
      if less x vp then let (lo, rest) := span_lt vp mid' in (x :: lo, rest)
      else ([], mid)
  end.

(** [do { --pj; } while (less(vp, v[*pj]))], on the range from its right
    end. *)
Fixpoint span_gt (vp : A) (rmid : list A) : list A * list A :=
  match rmid with
  | [] => ([], [])
  | x :: rmid' =>
      if less vp x then let (hi, rest) := span_gt vp rmid' in (x :: hi, rest)
      else ([], rmid)
  end.

(** The loop of the partition: [L] is what [pi] has passed, [R] what [pj]
    has passed, [mid] what lies between them; the entries where the two
    stop are exchanged, until they meet. *)
Fixpoint hoare (fuel : nat) (vp : A) (L mid R : list A) : list A * list A :=
  match fuel with
  | 0 => (L ++ mid, R)
  | S fuel' =>
      let (lo, mid1) := span_lt vp mid in
      let L1 := L ++ lo in
      match mid1 with
      | [] => (L1, R)
      | x :: mid2 =>
          let (rhi, rmid3) := span_gt vp (rev mid2) in
          match rmid3 with
          | [] => (L1, x :: mid2 ++ R)
          | y :: rmid3' =>
              hoare fuel' vp (L1 ++ [y]) (rev rmid3') (x :: rev rhi ++ R)
          end
      end
  end.

(** [l] with [x] at the position [k]. *)
Definition set_nth (k : nat) (x : A) (l : list A) : list A :=
  firstn k l ++ match skipn k l with [] => [] | _ :: t => x :: t end.

(** The partition of a range of three entries or more: the entries left
    of the pivot, the pivot, the entries right of it. *)
Definition partition (l : list A) : list A * option A * list A :=
  match l with
  | [] => ([], None, [])
  | x0 :: rest =>
      match rev rest with
      | [] => ([], Some x0, [])
      | xr :: rbody =>
          match rbody with
          | [] => ([], Some x0, [xr])
          | y :: rinit =>
              let n := List.length l in
              let pm := (n - 1) / 2 in
              let init := rev rinit in
              (* [init] is at the positions 1 .. n-3, [y] at n-2 *)
              let xm := nth (pm - 1) (init ++ [y]) y in
              let '(x0', p, xr') := order3 x0 xm xr in
              (* the pivot goes to the position n-2 *)
              let mid :=
                if pm - 1 <? List.length init then set_nth (pm - 1) y init
                else init in
              let (L, T) := hoare (List.length mid) p [] mid [] in
              (* the pivot goes where [pi] stopped *)
              match T with
              | [] => (x0' :: L, Some p, [xr'])
              | x :: T' => (x0' :: L, Some p, T' ++ [x; xr'])
              end
          end
      end
  end.

(** Heapsort of a range, as numpy writes it: the array is read from the
    position 1. *)
Section Heap.

Variable d : A.

Definition at1 (a : list A) (k : nat) : A := nth (k - 1) a d.
Definition put1 (a : list A) (k : nat) (x : A) : list A := set_nth (k - 1) x a.

(** [for (i = l, j = l << 1; j <= n;)]: [tmp] sinks from the position
    [i]. *)
Fixpoint sift (fuel : nat) (a : list A) (n i : nat) (tmp : A) : list A :=
  match fuel with
  | 0 => put1 a i tmp
  | S fuel' =>
      let j := 2 * i in
      if j <=? n then
        let j := if (j <? n) && less (at1 a j) (at1 a (j + 1)) then j + 1
                 else j in
        if less tmp (at1 a j)
        then sift fuel' (put1 a i (at1 a j)) n j tmp
        else put1 a i tmp
      else put1 a i tmp
  end.

(** [for (l = n >> 1; l > 0; --l)] *)
Fixpoint heapify (a : list A) (n l : nat) : list A :=
  match l with
  | 0 => a
  | S l' => heapify (sift n a n l (at1 a l)) n l'
  end.

(** [for (; n > 1;)] *)
Fixpoint extract (a : list A) (n : nat) : list A :=
  match n with
  | 0 => a
  | S n' =>
      if 1 <? n then
        let tmp := at1 a n in
        let a1 := put1 a n (at1 a 1) in
        extract (sift n a1 n' 1 tmp) n'
      else a
  end.

(** Among the first [n] entries, the entry at the position [k] is not
    below its children. *)
Definition heap_at (a : list A) (n k : nat) : Prop :=
  (2 * k <= n -> le_key (at1 a (2 * k)) (at1 a k))
  /\ (2 * k + 1 <= n -> le_key (at1 a (2 * k + 1)) (at1 a k)).

End Heap.

Definition aheapsort (l : list A) : list A :=
  match l with
  | [] => []
  | d :: _ => let n := List.length l in extract d (heapify d l n (n / 2)) n
  end.

(** A range of the sort.  [popped] tells whether the range comes from
    the stack, where the larger part of a partition waits: that is where
    the depth is looked at.  [cdepth] is the depth left. *)
Fixpoint sort_range (fuel : nat) (popped : bool) (cdepth : Z) (l : list A)
  : list A :=
  match fuel with
  | 0 => l
  | S fuel' =>
      if popped && (cdepth <? 0)%Z then aheapsort l
      else if 17 <? List.length l then
        match partition l with
        | (lo, Some p, hi) =>
            let cd := (cdepth - 1)%Z in
            if List.length lo <? List.length hi
            then sort_range fuel' false cd lo
                 ++ p :: sort_range fuel' true cd hi
            else sort_range fuel' true cd lo
                 ++ p :: sort_range fuel' false cd hi
        | _ => l
        end
      else insertion l
  end.

Definition aquicksort (l : list A) : list A :=
  sort_range (S (List.length l)) true
             (2 * Z.log2 (Z.of_nat (List.length l))) l.

End Introsort.

End NumpySort.

(* ------------------------------------------------------------------ *)
(** ** The frame and its moving average *)

(** The timezones of a column: one for all its values. *)
Definition same_tz (a b : option Z) : bool :=
  match a, b with
  | Some x, Some y => (x =? y)%Z
  | None, None => true
  | _, _ => false
  end.

Definition one_timezone (dates : list Timestamp) : bool :=
  match dates with
  | [] => true
  | t :: rest => forallb (fun u => same_tz (ts_tz u) (ts_tz t)) rest
  end.

Definition stamp_cell (c : date_cell) : option Timestamp :=
  match c with
  | DateStamp t => Some t
  | DateText _ => None
  end.

Definition api_cell (c : date_cell) : option Timestamp :=
  match c with
  | DateText s => api_datetime s
  | DateStamp _ => None
  end.

Section Series.

(** What [pd.to_datetime] reads in a cell of a column that does not hold
    texts of the API throughout (how it reads a text depends on the other
    texts of the column), [None] when it raises. *)
Variable parse_other : list date_cell -> date_cell -> option Timestamp.

(** [pd.to_datetime(df['upload_date'])], [None] when line 559 or line 561
    raises: timestamps stay as they are, the texts of the API are read as
    UTC, and values that do not share one timezone are no datetime
    column. *)
Definition to_datetime (column : list date_cell) : option (list Timestamp) :=
  let dates :=
    match traverse stamp_cell column with
    | Some dates => Some dates
    | None =>
        match traverse api_cell column with
        | Some dates => Some dates
        | None => traverse (parse_other column) column
        end
    end in
  match dates with
  | Some dates => if one_timezone dates then Some dates else None
  | None => None
  end.

(** [pd.DataFrame(video_stats)] with [upload_date] converted. *)
Definition frame (video_stats : list video_record) (dates : list Timestamp)
  : list frame_row :=
  map (fun p => mk_row (rec_video_id (fst p)) (rec_title (fst p))
                       (rec_view_count (fst p)) (snd p))
      (combine video_stats dates).

(** Lines 561-562: the frame with naive timestamps. *)
Definition naive_frame (df : list frame_row) : list frame_row :=
  if column_has_tz df then map tz_convert_none df else df.

(** [df.sort_values('upload_date', inplace=True)]: the rows taken in the
    order in which [argsort] puts their dates. *)
Definition sort_values (df : list frame_row) : list frame_row :=
  NumpySort.aquicksort frame_row row_key df.

Definition window_size (count : nat) : nat := Nat.max 1 (count / 10).

(** Lines 557-568: the sorted frame with its [moving_avg] column, [None]
    when a line raises. *)
Definition buildSeries (video_stats : list video_record)
  : option (list (frame_row * float64)) :=
  match to_datetime (map rec_upload_date video_stats) with
  | None => None
  | Some dates =>
      let df := sort_values (naive_frame (frame video_stats dates)) in
      match rolling_mean (window_size (List.length df))
                         (map row_view_count df) with
      | None => None
      | Some moving_avg => Some (combine df moving_avg)
      end
  end.

(** The records under a series: its rows without the [moving_avg] column. *)
Definition records_of (series : list (frame_row * float64))
  : list video_record :=
  map (fun p => mk_record (row_video_id (fst p)) (row_title (fst p))
                          (row_view_count (fst p))
                          (DateStamp (row_upload_date (fst p))))
      series.

End Series.

(* ================================================================== *)
(** * Whitespace and the API key file *)
(* ================================================================== *)

(** [c.isspace()], for the characters below 256: the ASCII blanks and
    separators, NEL and the no-break space. *)
Definition isspace (c : ascii) : bool :=
  let n := nat_of_ascii c in
  ((9 <=? n) && (n <=? 13)) || ((28 <=? n) && (n <=? 32))
  || (n =? 133) || (n =? 160).

(** [s.lstrip()] *)
Fixpoint lstrip (s : string) : string :=
  match s with
  | EmptyString => EmptyString
  | String c s' => if isspace c then lstrip s' else s
  end.

(** [s.rstrip()] with no argument. *)
Fixpoint rstrip_space (s : string) : string :=
  match s with
  | EmptyString => EmptyString
  | String d s' =>
      match rstrip_space s' with
      | EmptyString => if isspace d then EmptyString else String d EmptyString
      | r => String d r
      end
  end.

(** [s.strip()] *)
Definition strip (s : string) : string := rstrip_space (lstrip s).

Module ApiKey.

(** What [open('api.txt', 'r')] and [f.read()] find. *)
Inductive api_file : Type :=
| NoFile                              (* FileNotFoundError *)
| Unreadable (msg : string)           (* any other exception *)
| FileContent (text : string).

Inductive error : Type :=
| FileNotFoundError (msg : string)
| ValueError (msg : string)
| OtherError (msg : string).

(** [get_api_key()]: the handlers re-raise, the first one with a message
    of its own. *)
Definition get_api_key (f : api_file) : string + error :=
  match f with
  | NoFile => inr (FileNotFoundError "api.txt file not found.")
  | Unreadable msg => inr (OtherError msg)
  | FileContent text =>
      let api_key := strip text in
      match api_key with
      | EmptyString => inr (ValueError "API key is empty.")
      | _ => inl api_key
      end
  end.

End ApiKey.

(* ================================================================== *)
(** * The worker: from an address to the statistics *)
(* ================================================================== *)

(** The entry of a [channels] answer that [get_uploads_playlist_id]
    reads. *)
Record channel_item : Type := mk_channel_item {
  ch_contentDetails : option (option (option string));
      (* item['contentDetails']['relatedPlaylists']['uploads'], each key
         present or not *)
  ch_snippet : option (option string) (* item['snippet']['title'] *)
}.

(** [item['contentDetails']['relatedPlaylists']['uploads']] *)
Definition ch_uploads (it : channel_item) : string + exn :=
  match ch_contentDetails it with
  | None => inr (KeyError "contentDetails")
  | Some None => inr (KeyError "relatedPlaylists")
  | Some (Some None) => inr (KeyError "uploads")
  | Some (Some (Some uploads)) => inl uploads
  end.

(** [item['snippet']['title']] *)
Definition ch_title (it : channel_item) : string + exn :=
  match ch_snippet it with
  | None => inr (KeyError "snippet")
  | Some None => inr (KeyError "title")
  | Some (Some title) => inl title
  end.

(** What [channels().list(part='contentDetails,snippet', id=...)] gives:
    the ['items'] of the answer, when present, or an exception. *)
Definition channel_outcome : Type := (option (list channel_item) + exn)%type.

(** [self.n_videos]: ["all"] or a number. *)
Inductive n_videos : Type :=
| AllVideos
| LastN (n : nat).

(** What [finished.emit] carries. *)
Inductive finished : Type :=
| FinishedData (channel_title : string) (video_stats : list video_stat)
| FinishedError (error : string).

(** [str(e)] *)
Definition str_exn (e : exn) : string :=
  match e with
  | SSLError msg => msg
  | HttpError msg => msg
  | KeyError key => ("'" ++ key ++ "'")%string
  | ValueError msg => msg
  end.

(** [str(n)] for a length. *)
Definition str_nat (n : nat) : string :=
  DecimalString.NilEmpty.string_of_uint (Nat.to_uint n).

Section Worker.

Variable W : Type.
Variable exec : W -> request -> outcome * W.
Variable lookup : W -> string -> channel_outcome * W.

(** [get_uploads_playlist_id(youtube, channel_id)] *)
Definition get_uploads_playlist_id (channel_id : string) (w : W)
  : result (string * string) * W :=
  let (out, w1) := lookup w channel_id in
  match out with
  | inr e => (Raise e, w1)
  | inl (Some (it :: _)) =>
      match ch_uploads it with
      | inr e => (Raise e, w1)
      | inl uploads_playlist_id =>
          match ch_title it with
          | inr e => (Raise e, w1)
          | inl channel_title =>
              (Return (uploads_playlist_id, channel_title), w1)
          end
      end
  | inl _ =>
      (Raise (ValueError ("Channel not found for ID: " ++ channel_id)%string),
       w1)
  end.

(** What [run] has done when a stage ends: the progress messages emitted
    so far and, when something was raised or the fuel ran out, no value. *)
Definition stage {A} (progress : list string) (r : result A * W)
    (k : A -> W -> list string * option finished * W)
  : list string * option finished * W :=
  match r with
  | (Return a, w1) => k a w1
  | (Raise e, w1) => (progress, Some (FinishedError (str_exn e)), w1)
  | (OutOfFuel, w1) => (progress, None, w1)
  end.

(** [WorkerThread.run]: the progress messages, what [finished] carries
    ([None] when the fuel of a pagination loop ran out) and the world. *)
Definition run (fuel : nat) (channel_url : string) (n : n_videos) (w : W)
  : list string * option finished * W :=
  let p1 := [("Processing channel: " ++ channel_url)%string] in
  stage p1 (extract_channel_id exec channel_url w) (fun channel_id w1 =>
  let p2 := p1 ++ [("Extracted Channel ID: " ++ channel_id)%string] in
  stage p2 (get_uploads_playlist_id channel_id w1)
    (fun '(uploads_playlist_id, channel_title) w2 =>
  let p3 := p2 ++ [("Channel Title: " ++ channel_title)%string] in
  let p4 := p3 ++ [match n with
                   | AllVideos => "Fetching all video IDs..."
                   | LastN _ => "Fetching video IDs..."
                   end] in
  stage p4
    (match n with
     | AllVideos => get_all_video_ids exec fuel uploads_playlist_id w2
     | LastN k => get_last_n_video_ids exec fuel uploads_playlist_id k w2
     end)
    (fun video_ids w3 =>
  let p5 := p4 ++ [("Total Videos Retrieved: "
                    ++ str_nat (List.length video_ids))%string;
                   "Fetching video statistics..."] in
  stage p5 (get_videos_statistics exec video_ids w3) (fun video_stats w4 =>
  (p5 ++ ["Video statistics retrieved."],
   Some (FinishedData channel_title video_stats), w4))))).

End Worker.

Arguments get_uploads_playlist_id {W} lookup channel_id w.
Arguments stage {W A} progress r k.
Arguments run {W} exec lookup fuel channel_url n w.

(* ================================================================== *)
(** * The window: analysis requests, results and export *)
(* ================================================================== *)

(** [s.lower()], for the characters below 256. *)
Definition lower_char (c : ascii) : ascii :=
  let n := nat_of_ascii c in
  if ((65 <=? n) && (n <=? 90))
     || ((192 <=? n) && (n <=? 222) && negb (n =? 215))
  then ascii_of_nat (n + 32)
  else c.

Fixpoint lower (s : string) : string :=
  match s with
  | EmptyString => EmptyString
  | String c s' => String (lower_char c) (lower s')
  end.

(** [re.match(r'^https?://(www\.)?youtube\.com/', url)] *)
Definition valid_url (url : string) : bool :=
  prefix "http://youtube.com/" url
  || prefix "https://youtube.com/" url
  || prefix "http://www.youtube.com/" url
  || prefix "https://www.youtube.com/" url.

(** The characters of the class that the file name may not hold:
    backslash, slash, star, question mark, colon, double quote, the two
    angle brackets and the bar. *)
Definition illegal_char (c : ascii) : bool :=
  existsb (Ascii.eqb c)
    ["\"%char; "/"%char; "*"%char; "?"%char; ":"%char; ascii_of_nat 34;
     "<"%char; ">"%char; "|"%char].

(** [re.sub] of that class by the empty string in [title]. *)
Fixpoint sanitize (title : string) : string :=
  match title with
  | EmptyString => EmptyString
  | String c s => if illegal_char c then sanitize s else String c (sanitize s)
  end.

(** [f"{sanitized_channel_title}-{self.latest_n_videos}-{current_date}.xlsx"] *)
Definition export_filename (channel_title latest_n_videos current_date : string)
  : string :=
  (sanitize channel_title ++ "-" ++ latest_n_videos ++ "-" ++ current_date
   ++ ".xlsx")%string.

(** A cell of the worksheet. *)
Inductive cell : Type :=
| TextCell (s : string)
| IntCell (z : Z)
| DateCell (t : Timestamp)
| NumberCell (f : float64)
| NaNCell
| EmptyCell.

Definition sheet : Type := list (list cell).

(** The columns of [df], in the order of the keys of the rows of
    [statistics], then [moving_avg]. *)
Definition header : list cell :=
  [TextCell "video_id"; TextCell "title"; TextCell "view_count";
   TextCell "upload_date"; TextCell "moving_avg"].

Definition row_cells (p : frame_row * float64) : list cell :=
  [TextCell (row_video_id (fst p)); TextCell (row_title (fst p));
   IntCell (row_view_count (fst p)); DateCell (row_upload_date (fst p));
   if isna (snd p) then NaNCell else NumberCell (snd p)].

(** [for r in dataframe_to_rows(df, index=False, header=True): ws.append(r)] *)
Definition sheet_of (df : list (frame_row * float64)) : sheet :=
  header :: map row_cells df.

(** The cell at a row and a column, both counted from 1. *)
Definition cell_at (ws : sheet) (row col : nat) : cell :=
  nth (col - 1) (nth (row - 1) ws []) EmptyCell.

(** The cells of [Reference(ws, min_col=col, min_row, max_row)]. *)
Definition column_cells (ws : sheet) (col min_row max_row : nat) : list cell :=
  map (fun r => cell_at ws r col) (seq min_row (max_row + 1 - min_row)).

(** [chart.add_data(Reference(ws, min_col, min_row, max_col, max_row),
    titles_from_data=True)]: one series for each column, its title in the
    first row. *)
Definition add_data (ws : sheet) (min_col min_row max_col max_row : nat)
  : list (cell * list cell) :=
  map (fun c => (cell_at ws min_row c, column_cells ws c (min_row + 1) max_row))
      (seq min_col (max_col + 1 - min_col)).

Record workbook : Type := mk_workbook {
  wb_sheet : sheet;
  wb_chart_title : string;
  wb_series : list (cell * list cell);
  wb_categories : list cell
}.

(** The workbook that [export_to_excel] builds. *)
Definition build_workbook (df : list (frame_row * float64))
    (channel_title : string) : workbook :=
  let ws := sheet_of df in
  let max_row := List.length ws in
  mk_workbook ws ("View Counts for " ++ channel_title)%string
    (add_data ws 3 1 4 max_row)
    (column_cells ws 1 2 max_row).

(** A chart of the window: its title and the points of its two series,
    the view counts and the moving averages. *)
Record chart : Type := mk_chart {
  chart_title : string;
  view_series : list (Q * Q);
  avg_series : list (Q * float64)
}.

(** The fields of the window that the handlers read and write. *)
Record window : Type := mk_window {
  latest_df : option (list (frame_row * float64));
  latest_channel_title : string;
  latest_n_videos : string;
  export_enabled : bool;
  charts : list chart;
  terminal : list string
}.

(** The window when it opens. *)
Definition new_window : window :=
  mk_window None EmptyString EmptyString false [] [].

(** [self.log(message)] *)
Definition log_message (message : string) (st : window) : window :=
  mk_window (latest_df st) (latest_channel_title st) (latest_n_videos st)
            (export_enabled st) (charts st) (terminal st ++ [message]).

Inductive export_outcome : Type :=
| NothingToExport
| Exported (filename : string) (wb : workbook)
| ExportFailed (msg : string).

Section Window.

Variable parse_other : list date_cell -> date_cell -> option Timestamp.

(** [row['upload_date'].timestamp() * 1000] *)
Variable timestamp_ms : Timestamp -> Q.

(** [int(selected_value)], [None] for a [ValueError]. *)
Variable py_int : string -> option Z.

(** The loop over [df.iterrows()] that fills the two series. *)
Fixpoint fill_series (df : list (frame_row * float64))
  : list (Q * Q) * list (Q * float64) :=
  match df with
  | [] => ([], [])
  | (row, moving_avg) :: rest =>
      let timestamp := timestamp_ms (row_upload_date row) in
      let (views, avgs) := fill_series rest in
      ((timestamp, inject_Z (row_view_count row)) :: views,
       if isna moving_avg then avgs else (timestamp, moving_avg) :: avgs)
  end.

(** [handle_worker_finished(self, data)].  When a line of the series
    raises, the handler ends there, with the title stored and nothing
    else done. *)
Definition handle_worker_finished (data : finished) (st : window) : window :=
  match data with
  | FinishedError error => log_message ("Error: " ++ error)%string st
  | FinishedData channel_title video_stats =>
      let st1 :=
        mk_window (latest_df st) channel_title (latest_n_videos st)
                  (export_enabled st) (charts st) (terminal st) in
      match video_stats with
      | [] =>
          log_message
            ("No video statistics available for " ++ channel_title ++ ".")%string
            st1
      | _ =>
          match buildSeries parse_other (map record_of_stat video_stats) with
          | None => st1
          | Some df =>
              let (views, avgs) := fill_series df in
              mk_window (Some df) channel_title (latest_n_videos st) true
                (charts st
                 ++ [mk_chart ("View Counts for " ++ channel_title)%string
                              views avgs])
                (terminal st)
          end
      end
  end.

(** [analyze_channel(self)], from the text of the address field and the
    text of the selector: the window, and the worker that is started. *)
Definition analyze_channel (text selected_value : string) (st : window)
  : window * option (string * n_videos) :=
  let channel_url := strip text in
  match channel_url with
  | EmptyString => (st, None)
  | _ =>
      if negb (valid_url channel_url) then (st, None)
      else
        let n :=
          if String.eqb (lower selected_value) "all" then Some AllVideos
          else match py_int selected_value with
               | Some z => if (z <=? 0)%Z then None
                           else Some (LastN (Z.to_nat z))
               | None => None
               end in
        match n with
        | None => (st, None)
        | Some n_videos =>
            (mk_window (latest_df st) (latest_channel_title st)
                       selected_value false []
                       [("Starting analysis for " ++ channel_url)%string],
             Some (channel_url, n_videos))
        end
  end.

(** [export_to_excel(self)], on the day [current_date]; [save_error] is
    what building and saving the workbook raises, if anything. *)
Definition export_to_excel (current_date : string)
    (save_error : option string) (st : window) : window * export_outcome :=
  match latest_df st with
  | None => (st, NothingToExport)
  | Some df =>
      match latest_channel_title st with
      | EmptyString => (st, NothingToExport)
      | channel_title =>
          match save_error with
          | Some msg => (st, ExportFailed msg)
          | None =>
              let filename :=
                export_filename channel_title (latest_n_videos st)
                                current_date in
              (log_message
                 ("Data exported successfully to " ++ filename)%string st,
               Exported filename (build_workbook df channel_title))
          end
      end
  end.

(** What happens to the window: the user asks for an analysis, a worker
    reports progress or finishes, the user asks for an export. *)
Inductive event : Type :=
| Analyze (text selected_value : string)
| Progress (message : string)
| Finished (data : finished)
| Export (current_date : string) (save_error : option string).

Definition handle (ev : event) (st : window) : window :=
  match ev with
  | Analyze text selected_value => fst (analyze_channel text selected_value st)
  | Progress message => log_message message st
  | Finished data => handle_worker_finished data st
  | Export current_date save_error =>
      fst (export_to_excel current_date save_error st)
  end.

Definition handle_all (events : list event) (st : window) : window :=
  fold_left (fun s ev => handle ev s) events st.

End Window.


(* ================================================================== *)
(** * Vocabulary of the statements *)
(* ================================================================== *)

(** ** Services and sample data for running the functions *)

(** A service that refuses every request, for running the functions on
    concrete inputs. *)
Definition refuse_all : unit -> request -> outcome * unit :=
  fun _ _ => (inr (HttpError "refused"), tt).

Definition refuses : request -> outcome :=
  fun _ => inr (HttpError "refused").

(** A well-formed entry of a videos response, and what the program reads
    from it. *)
Definition stat_item (s : video_stat) : item :=
  mk_item (Some (video_id s)) None
          (Some (mk_snippet None (Some (upload_date s)) (Some (title s))))
          (ViewCount (view_count s)).

Definition sample_ids : list string := repeat "vid" 100.

Definition sample_rows : list video_stat :=
  repeat (mk_stat "vid" "a title" 7 "2024-01-01T00:00:00Z") 50.

Definition sample_page : response :=
  mk_response (Some (map stat_item sample_rows)) None.

(** ** Traces of the statistics loop *)

Definition videos_request (batch_ids : list string) : request :=
  videos_list (join_ids batch_ids).

Definition ssl_run (batch_ids : list string) (e0 e1 e2 e3 : exn) : trace :=
  [(videos_request batch_ids, inr e0); (videos_request batch_ids, inr e1);
   (videos_request batch_ids, inr e2); (videos_request batch_ids, inr e3)].

(** The script of a batch whose executions fail with the errors [errs],
    one after the other. *)
Definition failing (errs : list exn) : list (option outcome) :=
  map (fun e => Some (inr e)) errs.

Definition failures (batch_ids : list string) (errs : list exn) : trace :=
  map (fun e => (videos_request batch_ids, inr e)) errs.

(** ** Traces of the pagination loops *)

(** The number of executions in a trace that failed with a
    secure-transport error. *)
Definition ssl_failure (p : request * outcome) : bool :=
  match snd p with
  | inr e => is_ssl e
  | inl _ => false
  end.

Definition ssl_failures (L : trace) : nat :=
  List.length (filter ssl_failure L).

(** The number of entries the answers of a trace delivered. *)
Definition delivered_by (p : request * outcome) : nat :=
  match snd p with
  | inl r => match items r with Some its => List.length its | None => 0 end
  | inr _ => 0
  end.

Definition delivered (L : trace) : nat :=
  fold_right (fun p acc => delivered_by p + acc) 0 L.

(** Every failed execution that is not the end of the trace is followed by
    an execution of the same request. *)
Definition retried_in_place (L : trace) : Prop :=
  forall i req e,
    nth_error L i = Some (req, inr e) ->
    S i < List.length L ->
    exists out, nth_error L (S i) = Some (req, out).

Definition ends_with_error (L : trace) (e : exn) : Prop :=
  exists L0 req, L = L0 ++ [(req, inr e)].

(** The page sizes of a trace that starts with [collected] identifiers
    already there: each request asks for what is still missing, 50 at
    most. *)
Definition asks_for_remaining (pid : string) (n collected : nat)
    (L : trace) : Prop :=
  forall i req out,
    nth_error L i = Some (req, out) ->
    exists tok,
      req = playlistItems_list pid
              (Nat.min (n - (collected + delivered (firstn i L))) 50) tok.

(** A script of secure-transport faults: [Some msg] makes the execution
    fail with [SSLError msg], [None] lets the service answer. *)
Definition ssl_script (faults : list (option string))
  : list (option outcome) :=
  map (fun f => match f with
                | Some msg => Some (inr (SSLError msg))
                | None => None
                end) faults.

Definition is_fault (f : option string) : bool :=
  match f with Some _ => true | None => false end.

Definition fault_count (faults : list (option string)) : nat :=
  List.length (filter is_fault faults).

(** The longest run of consecutive faults in a script: the most failures
    any one request meets. *)
Fixpoint longest_fault_run (cur : nat) (faults : list (option string)) : nat :=
  match faults with
  | [] => cur
  | Some _ :: rest => longest_fault_run (S cur) rest
  | None :: rest => Nat.max cur (longest_fault_run 0 rest)
  end.

(** Three retries for every page request would get a collection through
    any script in which no request fails more than three times in a row. *)
Definition three_retries_per_page : Prop :=
  forall (playlist : list string) (faults : list (option string))
         (fuel : nat),
    longest_fault_run 0 faults <= 3 ->
    List.length playlist + 50 * fault_count faults < 50 * fuel ->
    fst (get_all_video_ids
           (traced (scripted (playlist_service unary unary_pos playlist)))
           fuel "UU" (ssl_script faults, []))
    = Return playlist.

(** ** Windows, orders and sample records of the series *)

Definition zsum (l : list Z) : Z := fold_right Z.add 0%Z l.

(** The values at positions [i - w + 1 .. i]. *)
Definition trailing_window (w : nat) (values : list Z) (i : nat) : list Z :=
  firstn w (skipn (i + 1 - w) values).

(** The moving average at the position [i] of counts that float64 sums
    hold exactly: NaN before the window is full; then the count itself
    when the window holds one count throughout, else the float64 quotient
    of the sum of the window by its length. *)
Definition mean_at (w : nat) (values : list Z) (i : nat) : float64 :=
  if i + 1 <? w then S754_nan
  else
    let v := nth i values 0%Z in
    if forallb (Z.eqb v) (trailing_window w values i) then f64_of_Z v
    else f64_div (f64_of_Z (zsum (trailing_window w values i)))
                 (f64_of_Z (Z.of_nat w)).

(** The arithmetic mean, as an exact rational. *)
Definition mean (l : list Z) : Q := Qmake (zsum l) (Pos.of_nat (List.length l)).

(** The rational that a float64 stands for. *)
Definition value_of (f : float64) : option Q :=
  match f with
  | S754_zero _ => Some 0%Q
  | S754_finite s m e =>
      let q := match e with
               | Zneg p => Qmake (Zpos m) (2 ^ p)
               | _ => inject_Z (Zpos m * 2 ^ e)
               end in
      Some (if s then Qopp q else q)
  | S754_infinity _ | S754_nan => None
  end.

Definition by_date (a b : frame_row) : Prop := (row_key a <= row_key b)%Z.

(** The rows of the instant [t]. *)
Definition uploaded_at (t : Z) (r : frame_row) : bool := (row_key r =? t)%Z.

(** The number of positions up to [i] that hold the value of the position
    [i] without a break. *)
Fixpoint same_value_run (values : list Z) (i : nat) : nat :=
  match i with
  | 0 => 1
  | S i' =>
      if (nth (S i') values 0 =? nth i' values 0)%Z
      then S (same_value_run values i') else 1
  end.

Definition prefix_sum (values : list Z) (k : nat) : Z :=
  zsum (firstn k values).

(** The state of the loop of [roll_mean] when it has handled the position
    [i] of counts that float64 sums hold exactly. *)
Definition rolled (values : list Z) (w i : nat) (st : mean_state) : Prop :=
  nobs st = Z.of_nat (Nat.min (i + 1) w)
  /\ sum_x st
     = f64_of_Z (prefix_sum values (i + 1) - prefix_sum values (i + 1 - w))
  /\ neg_ct st = 0%Z
  /\ compensation_add st = f64_zero
  /\ compensation_remove st = f64_zero
  /\ num_consecutive_same_value st = Z.of_nat (same_value_run values i)
  /\ prev_value st = f64_of_Z (nth i values 0%Z).

(** *** Integers that a float64 holds exactly *)

Definition in_range (z : Z) : Prop := (Z.abs z < 2 ^ 53)%Z.

Definition digits (X : positive) : Z := Zpos (digits2_pos X).

Definition shift_of (X : positive) : nat := Z.to_nat (53 - digits X).

(** The float64 of a positive integer below [2^53], with the sign [s]:
    its 53-bit mantissa and its exponent. *)
Definition finite_int (s : bool) (X : positive) : float64 :=
  S754_finite s (Pos.shiftl_nat X (shift_of X)) (digits X - 53).

Definition exact_record (m : positive) : shr_record :=
  {| shr_m := Zpos m; shr_r := false; shr_s := false |}.

(** A float that is a number and carries the sign [s]. *)
Definition has_sign (s : bool) (f : float64) : Prop :=
  match f with
  | S754_nan => False
  | S754_zero s' | S754_infinity s' | S754_finite s' _ _ => s' = s
  end.

(** *** Sample records *)

(** A number below 100 in two digits. *)
Definition two_digits (n : nat) : string :=
  String (ascii_of_nat (48 + n / 10))
         (String (ascii_of_nat (48 + n mod 10)) EmptyString).

(** Midnight UTC of a day of January 2024, as the API writes it. *)
Definition january (day : nat) : string :=
  ("2024-01-" ++ two_digits day ++ "T00:00:00Z")%string.

(** Three videos with 10, 20 and 30 views, uploaded on the first three
    days of January 2024. *)
Definition three_records : list video_record :=
  [mk_record "v1" "one" 10 (DateText "2024-01-01T00:00:00Z");
   mk_record "v2" "two" 20 (DateText "2024-01-02T00:00:00Z");
   mk_record "v3" "three" 30 (DateText "2024-01-03T00:00:00Z")].

(** Thirty videos, one for each of the first thirty days of January
    2024, with one view each but the third, which has two. *)
Definition thirty_records : list video_record :=
  map (fun day => mk_record ("v" ++ two_digits day) "a title"
                            (if day =? 3 then 2 else 1)
                            (DateText (january day)))
      (seq 1 30).

(** Eighteen videos published in the same second. *)
Definition eighteen_premieres : list video_record :=
  map (fun k => mk_record ("v" ++ two_digits k) "a title" (Z.of_nat k)
                          (DateText "2024-01-01T00:00:00Z"))
      (seq 0 18).

(** A [to_datetime] that raises on every column that does not hold texts
    of the API throughout. *)
Definition api_only : list date_cell -> date_cell -> option Timestamp :=
  fun _ _ => None.

(** *** The claims on the series, as they are stated *)

(** The moving average from the position [w - 1] on is the arithmetic
    mean of the window. *)
Definition moving_average_is_mean : Prop :=
  forall (parse_other : list date_cell -> date_cell -> option Timestamp)
         (video_stats : list video_record)
         (df : list (frame_row * float64)) (i : nat),
    buildSeries parse_other video_stats = Some df ->
    let w := Nat.max 1 (List.length video_stats / 10) in
    w - 1 <= i < List.length video_stats ->
    exists q,
      value_of (nth i (map snd df) S754_nan) = Some q
      /\ Qeq q (mean (trailing_window w
                        (map (fun p => row_view_count (fst p)) df) i)).

(** A stable sort: the rows of each instant are in the series in the
    order they have in the frame. *)
Definition keeps_input_order : Prop :=
  forall (parse_other : list date_cell -> date_cell -> option Timestamp)
         (video_stats : list video_record) (dates : list Timestamp)
         (df : list (frame_row * float64)) (t : Z),
    to_datetime parse_other (map rec_upload_date video_stats) = Some dates ->
    buildSeries parse_other video_stats = Some df ->
    filter (uploaded_at t) (map fst df)
    = filter (uploaded_at t) (naive_frame (frame video_stats dates)).

Definition idempotent : Prop :=
  forall (parse_other : list date_cell -> date_cell -> option Timestamp)
         (video_stats : list video_record)
         (df : list (frame_row * float64)),
    buildSeries parse_other video_stats = Some df ->
    buildSeries parse_other (records_of df) = Some df.

(** ** Answers of the videos endpoint *)

(** The answer that holds the rows [rows], and the script entry that
    gives it. *)
Definition rows_page (rows : list video_stat) : response :=
  mk_response (Some (map stat_item rows)) None.

Definition answered (rows : list video_stat) : option outcome :=
  Some (inl (rows_page rows)).

Definition answers_trace (bs : list (list string))
    (answers : list (list video_stat)) : trace :=
  map (fun p => (videos_request (fst p), inl (rows_page (snd p))))
      (combine bs answers).

(** What a run gives, with [f] applied to the rows it returns. *)
Definition map_result {A B} (f : A -> B) (r : result A) : result B :=
  match r with
  | Return a => Return (f a)
  | Raise e => Raise e
  | OutOfFuel => OutOfFuel
  end.

(** ** The executions of one batch *)

(** The part of a trace that belongs to one batch: between one and four
    executions, all of the request of that batch. *)
Definition batch_run (batch_ids : list string) (seg : trace) : Prop :=
  1 <= List.length seg <= 4
  /\ Forall (fun p => fst p = videos_request batch_ids) seg.

(** ** The claims about addresses and pages, as they are worded *)





(** C6 as it is worded: an answer that carries no items, be it an empty
    list of them, ends the loop. *)
Definition stops_without_items : Prop :=
  forall (W : Type) (exec : W -> request -> outcome * W)
         (pid : string) (fuel : nat) (video_ids : list string)
         (tok : option string) (retries : nat) (w w1 : W) (r : response),
    exec w (playlistItems_list pid 50 tok) = (inl r, w1) ->
    items r = Some [] ->
    all_loop exec pid (S fuel) video_ids tok retries w
    = (Return video_ids, w1).

(** ** Trailing path segments *)

(** [url.rstrip('/').split('/')[-1]]: the name looked up for a [/user/],
    [/c/] or [/@] address. *)
Definition trailing_segment (url : string) : string :=
  last (split "/" (rstrip "/" url)) EmptyString.

(** [k] times the character [c]. *)
Fixpoint repeat_char (c : ascii) (k : nat) : string :=
  match k with
  | 0 => EmptyString
  | S k' => String c (repeat_char c k')
  end.

(** A string that holds the character [c]. *)
Fixpoint has_char (c : ascii) (s : string) : bool :=
  match s with
  | EmptyString => false
  | String d s' => Ascii.eqb d c || has_char c s'
  end.

(** ** Answers of the channel lookups *)

(** The first entry of an answer, when it has one. *)
Definition first_item (r : response) : option item :=
  match items r with
  | Some (it :: _) => Some it
  | _ => None
  end.

(** What a lookup gives when its answer is [out] and the identifier is
    read from the first entry with [field], which gives the identifier or
    the [KeyError] of the first key that is not there; [missing] is the
    result of an answer without entries. *)
Definition lookup_result (field : item -> string + exn)
    (missing : result string) (out : outcome) : result string :=
  match out with
  | inr e => Raise e
  | inl r =>
      match first_item r with
      | Some it =>
          match field it with
          | inl cid => Return cid
          | inr e => Raise e
          end
      | None => missing
      end
  end.

(** An entry of a search answer: without ['snippet'], and with a snippet
    that names the channel (or not). *)
Definition bare_entry : item := mk_item None None None NoStatistics.

Definition search_entry (channel : option string) : item :=
  mk_item None None (Some (mk_snippet channel None None)) NoStatistics.

Definition channel_not_found (url : string) : result string :=
  Raise (ValueError ("Channel not found for URL: " ++ url)%string).


(** ** Whitespace at the ends of a text *)

(** A text of whitespace only. *)
Fixpoint all_space (s : string) : bool :=
  match s with
  | EmptyString => true
  | String c s' => isspace c && all_space s'
  end.

Definition first_char (s : string) : option ascii :=
  match s with
  | EmptyString => None
  | String c _ => Some c
  end.

Fixpoint last_char (s : string) : option ascii :=
  match s with
  | EmptyString => None
  | String c EmptyString => Some c
  | String _ s' => last_char s'
  end.

(** A text that is not empty and neither starts nor ends with
    whitespace. *)
Definition trimmed (s : string) : bool :=
  match first_char s, last_char s with
  | Some a, Some b => negb (isspace a) && negb (isspace b)
  | _, _ => false
  end.

(** The line feed that ends the line of the key in the file. *)
Definition newline : string := String (ascii_of_nat 10) EmptyString.

(** ** The moving average of a row *)

(** A moving average that is a number, not NaN. *)
Definition is_number (f : float64) : bool := negb (isna f).

(** ** Instants on the time axis *)

(** [t.timestamp() * 1000] for an instant given in nanoseconds. *)
Definition utc_ms (t : Timestamp) : Q := Qmake (ts_value t) 1000000.

(** [int(s)] for the texts of the selector that are used below. *)
Definition int_of_selector (s : string) : option Z :=
  if String.eqb s "50" then Some 50%Z
  else if String.eqb s "0" then Some 0%Z
  else None.

(** ** A channel behind the endpoints of the worker *)

(** The uploads playlist is served by pages; a videos request is answered
    with the rows that [rows_of] gives for its [id] parameter. *)
Definition channel_service (enc : nat -> string) (dec : string -> nat)
    (playlist : list string) (rows_of : string -> list video_stat)
    (req : request) : outcome :=
  match req with
  | videos_list id => inl (rows_page (rows_of id))
  | _ => playlist_service enc dec playlist req
  end.

(** A channels endpoint that answers every identifier with the entries
    [its]. *)
Definition channel_lookup {W : Type} (its : list channel_item)
  : W -> string -> channel_outcome * W :=
  fun w _ => (inl (Some its), w).

(** The identifier that [extract_channel_id] reads in a [/channel/]
    address. *)
Definition channel_segment (url : string) : string :=
  hd EmptyString (split "/" (last (split "/channel/" url) EmptyString)).

(** The identifiers the worker is asked for. *)
Definition wanted (n : n_videos) (playlist : list string) : list string :=
  match n with
  | AllVideos => playlist
  | LastN k => firstn k playlist
  end.

(** The progress messages of a run that goes through. *)
Definition full_progress (channel_url channel_id channel_title : string)
    (n : n_videos) (count : nat) : list string :=
  [("Processing channel: " ++ channel_url)%string;
   ("Extracted Channel ID: " ++ channel_id)%string;
   ("Channel Title: " ++ channel_title)%string;
   match n with
   | AllVideos => "Fetching all video IDs..."
   | LastN _ => "Fetching video IDs..."
   end;
   ("Total Videos Retrieved: " ++ str_nat count)%string;
   "Fetching video statistics...";
   "Video statistics retrieved."].

(** A world of the scripted service whose script is used up. *)
Definition script_done (w : list (option outcome) * trace) : Prop :=
  fst w = [].

(* ================================================================== *)
(** * Facts about the string operations *)
(* ================================================================== *)

Module PyStrFacts.

Local Open Scope string_scope.

Lemma append_assoc s t u : (s ++ t) ++ u = s ++ (t ++ u).
Proof. induction s; simpl; congruence. Qed.

Lemma append_empty_r s : s ++ EmptyString = s.
Proof. induction s; simpl; congruence. Qed.

Lemma drop_length n s : length (drop n s) = length s - n.
Proof. revert s; induction n; destruct s; simpl; auto. Qed.

Lemma prefix_length p s : prefix p s = true -> length p <= length s.
Proof.
  intros H. apply prefix_drop in H. apply (f_equal length) in H.
  rewrite append_length in H. lia.
Qed.


Lemma py_in_eq sub s :
  py_in sub s =
  if prefix sub s then true
  else match s with
       | EmptyString => false
       | String _ s' => py_in sub s'
       end.
Proof. destruct s; reflexivity. Qed.

Lemma cut_None sep s : cut sep s = None <-> py_in sep s = false.
Proof.
  induction s as [|c s IH]; rewrite cut_eq, py_in_eq;
    destruct (prefix sep _); try (split; congruence).
  destruct (cut sep s) as [[a b]|]; split; intros H; try congruence.
  - apply IH in H. discriminate.
  - apply IH. reflexivity.
Qed.


Lemma split_cut_None sep s : cut sep s = None -> split sep s = [s].
Proof.
  intros C. destruct sep as [|c sep']; simp split; [reflexivity|].
  generalize (inspect (cut (String c sep') s)). intros [o E].
  destruct o as [[a b]|]; [congruence|reflexivity].
Qed.

Lemma split_cut_Some sep s a b :
  sep <> EmptyString -> cut sep s = Some (a, b) ->
  split sep s = a :: split sep b.
Proof.
  intros Hsep C. destruct sep as [|c sep']; [congruence|].
  rewrite (split_equation_2 c sep' s).
  generalize (inspect (cut (String c sep') s)). intros [o E].
  destruct o as [[a' b']|]; [|congruence].
  assert (a' = a /\ b' = b) as [-> ->] by (split; congruence).
  reflexivity.
Qed.

Lemma split_nonempty sep s : split sep s <> [].
Proof.
  destruct sep as [|c sep']; [simp split; discriminate|].
  destruct (cut (String c sep') s) as [[a b]|] eqn:C.
  - assert (Hsep : String c sep' <> EmptyString) by discriminate.
    rewrite (split_cut_Some _ _ _ _ Hsep C). discriminate.
  - rewrite (split_cut_None _ _ C). discriminate.
Qed.

(** [s.split(sep)[-1]] is preceded by an occurrence of [sep] as soon as
    [sep in s]. *)
Lemma split_last sep s :
  sep <> EmptyString -> py_in sep s = true ->
  exists pre,
    s = pre ++ sep ++ last (split sep s) EmptyString
    /\ py_in sep (last (split sep s) EmptyString) = false.
Proof.
  intros Hsep.
  remember (length s) as n eqn:Hn. revert s Hn.
  induction n as [n IH] using lt_wf_ind. intros s Hn Hin.
  destruct (cut sep s) as [[a b]|] eqn:C.
  - rewrite (split_cut_Some _ _ _ _ Hsep C).
    assert (Hlast : last (a :: split sep b) "" = last (split sep b) "").
    { simpl. destruct (split sep b) eqn:E; [|reflexivity].
      exfalso. eapply split_nonempty, E. }
    rewrite Hlast.
    pose proof (cut_app _ _ _ _ C) as Hs.
    destruct (py_in sep b) eqn:Hb.
    + assert (Hlen : length b < n).
      { apply cut_shorter in C. destruct sep; [congruence|]. simpl in C. lia. }
      destruct (IH _ Hlen b eq_refl Hb) as [pre [E1 E2]].
      exists (a ++ sep ++ pre). split; [|exact E2].
      rewrite Hs at 1. rewrite E1 at 1.
      rewrite !append_assoc. reflexivity.
    + apply cut_None in Hb. rewrite (split_cut_None _ _ Hb). simpl.
      exists a. split; [exact Hs|]. apply cut_None, Hb.
  - apply cut_None in C. congruence.
Qed.


End PyStrFacts.

Import PyStrFacts.

(* ================================================================== *)
(** * Channel resolution *)
(* ================================================================== *)

Example extract_channel_id_UC123 :
  extract_channel_id (traced refuse_all)
    "https://www.youtube.com/channel/UC123" (tt, [])
  = (Return "UC123", (tt, [])).
Proof. vm_compute. reflexivity. Qed.

(** With two [/channel/] segments the piece after the last one is used. *)
Example extract_channel_id_last_segment :
  extract_channel_id (traced refuse_all)
    "https://www.youtube.com/channel/UC1/channel/UC2/about" (tt, [])
  = (Return "UC2", (tt, [])).
Proof. vm_compute. reflexivity. Qed.




(* ================================================================== *)
(** * Statistics batches *)
(* ================================================================== *)

Lemma batches_nil : batches [] = [].
Proof. reflexivity. Qed.

Lemma batch_count_succ (n : nat) :
  0 < n -> (n + 50 - 1) / 50 = S ((n - 50 + 50 - 1) / 50).
Proof.
  intros Hn. destruct (le_lt_dec 50 n) as [H|H].
  - replace (n + 50 - 1) with (1 * 50 + (n - 50 + 50 - 1)) by lia.
    rewrite Nat.div_add_l by lia. reflexivity.
  - replace (n - 50 + 50 - 1) with 49 by lia.
    rewrite (Nat.div_small 49 50) by lia.
    symmetry. apply Nat.div_unique with (r := n - 1); lia.
Qed.

(** The first batch is the first 50 identifiers, the other batches are
    the batches of the rest. *)
Lemma batches_cons (video_ids : list string) :
  video_ids <> [] ->
  batches video_ids = firstn 50 video_ids :: batches (skipn 50 video_ids).
Proof.
  intros Hne. unfold batches, range_step.
  rewrite batch_count_succ by (destruct video_ids; simpl; [congruence|lia]).
  rewrite length_skipn. cbn [seq map]. f_equal.
  rewrite <- seq_shift, !map_map. apply map_ext. intros k.
  unfold slice. rewrite skipn_skipn.
  replace (S k * 50 + 50 - S k * 50) with (k * 50 + 50 - k * 50) by lia.
  replace (k * 50 + 50) with (S k * 50) by lia. reflexivity.
Qed.



Lemma parse_stat_item (s : video_stat) : parse_item (stat_item s) = inl s.
Proof. destruct s; reflexivity. Qed.

Lemma append_statistics_stat_items (statistics rows : list video_stat) :
  append_statistics statistics (map stat_item rows)
  = (statistics ++ rows, None).
Proof.
  revert statistics; induction rows as [|r rows IH]; intros statistics;
    cbn [map append_statistics].
  - rewrite app_nil_r. reflexivity.
  - rewrite parse_stat_item, IH, <- app_assoc. reflexivity.
Qed.

(** ** The retry loop of one batch *)

(** What the retry loop adds to the trace when it raises: as many failed
    executions of the batch request as it had retries, all of them
    secure-transport errors, the last one being the one raised. *)
Lemma retry_batch_raises :
  forall (W : Type) (exec : W -> request -> outcome * W)
         (retries : nat) (batch_ids : list string)
         (statistics statistics' : list video_stat)
         (w w' : W) (log log' : trace) (e : exn),
    retry_batch (traced exec) retries batch_ids statistics (w, log)
    = (statistics', Some e, (w', log')) ->
    exists errs,
      List.length errs = retries
      /\ Forall (fun x => is_ssl x = true) errs
      /\ last errs e = e /\ In e errs
      /\ log' = log ++ map (fun x => (videos_request batch_ids, inr x)) errs.
Proof.
  intros W exec retries. induction retries as [|r IH];
    intros batch_ids st st' w w' log log' e H; simpl in H; [discriminate|].
  destruct (exec w (videos_list (join_ids batch_ids))) as [[resp|x] w1] eqn:E;
    [discriminate|].
  destruct (is_ssl x) eqn:Hx; [|discriminate].
  destruct (r =? 0) eqn:Hr.
  - apply Nat.eqb_eq in Hr. subst r. inversion H; subst.
    exists [e]. simpl. repeat split; auto.
  - apply IH in H. destruct H as [errs (Hlen & Hall & Hlast & Hin & Hlog)].
    exists (x :: errs). simpl. repeat split; auto.
    + destruct errs; [simpl in Hlen; apply Nat.eqb_neq in Hr; lia|exact Hlast].
    + rewrite Hlog, <- app_assoc. reflexivity.
Qed.

(** On any service, what the retry loop raises is a secure-transport
    error. *)
Lemma retry_batch_raises_ssl :
  forall (W : Type) (exec : W -> request -> outcome * W)
         (retries : nat) (batch_ids : list string)
         (statistics statistics' : list video_stat) (w w' : W) (e : exn),
    retry_batch exec retries batch_ids statistics w = (statistics', Some e, w')
    -> is_ssl e = true.
Proof.
  intros W exec retries. induction retries as [|r IH];
    intros batch_ids st st' w w' e H; simpl in H; [discriminate|].
  destruct (exec w (videos_list (join_ids batch_ids))) as [[resp|x] w1] eqn:E;
    [discriminate|].
  destruct (is_ssl x) eqn:Hx; [|discriminate].
  destruct (r =? 0); [inversion H; subst; exact Hx|].
  eapply IH, H.
Qed.

Lemma traced_eq :
  forall (W : Type) (exec : W -> request -> outcome * W)
         (w w1 : W) (log : trace) (req : request) (out : outcome),
    exec w req = (out, w1) ->
    traced exec (w, log) req = (out, (w1, log ++ [(req, out)])).
Proof. intros W exec w w1 log req out E. unfold traced. rewrite E. reflexivity. Qed.

Lemma statistics_loop_raises :
  forall (W : Type) (exec : W -> request -> outcome * W)
         (bs : list (list string)) (statistics : list video_stat)
         (w w' : W) (log log' : trace) (e : exn),
    statistics_loop (traced exec) bs statistics (w, log)
    = (Raise e, (w', log')) ->
    is_ssl e = true
    /\ exists pre batch_ids e0 e1 e2,
         In batch_ids bs
         /\ is_ssl e0 = true /\ is_ssl e1 = true /\ is_ssl e2 = true
         /\ log' = pre ++ ssl_run batch_ids e0 e1 e2 e.
Proof.
  intros W exec bs. induction bs as [|b bs IH];
    intros st w w' log log' e H; cbn [statistics_loop] in H; [discriminate|].
  destruct (exec w (videos_list (join_ids b))) as [out w1] eqn:E.
  rewrite (traced_eq _ _ _ _ _ _ _ E) in H.
  destruct out as [r|x].
  - apply IH in H. destruct H as [He (pre & b' & e0 & e1 & e2 & Hin & H')].
    split; [exact He|]. exists pre, b', e0, e1, e2. split; [right; exact Hin|exact H'].
  - destruct (is_ssl x) eqn:Hx.
    + revert H.
      match goal with
      | |- context [retry_batch ?f ?n ?ids ?s ?v] =>
          destruct (retry_batch f n ids s v)
            as [[st' [e'|]] [w2 log2]] eqn:R; intros H
      end.
      * inversion H; subst. clear H.
        pose proof (retry_batch_raises_ssl _ _ _ _ _ _ _ _ _ R) as He.
        apply retry_batch_raises in R.
        destruct R as [errs (Hlen & Hall & Hlast & _ & Hlog)].
        destruct errs as [|e0 [|e1 [|e2 [|? ?]]]]; try discriminate.
        simpl in Hlast. subst e2.
        inversion Hall as [|? ? Hs0 Hall1]; subst.
        inversion Hall1 as [|? ? Hs1 _]; subst.
        split; [exact He|]. exists log, b, x, e0, e1.
        split; [left; reflexivity|]. repeat split; auto.
        rewrite <- List.app_assoc. reflexivity.
      * apply IH in H. destruct H as [He (pre & b' & e0 & e1 & e2 & Hin & H')].
        split; [exact He|]. exists pre, b', e0, e1, e2.
        split; [right; exact Hin|exact H'].
    + apply IH in H. destruct H as [He (pre & b' & e0 & e1 & e2 & Hin & H')].
      split; [exact He|]. exists pre, b', e0, e1, e2.
      split; [right; exact Hin|exact H'].
Qed.

(** A batch whose first execution fails with anything but a
    secure-transport error is skipped: nothing is added to [statistics] and
    the loop goes on with the next batch. *)
Lemma statistics_loop_skips :
  forall (W : Type) (exec : W -> request -> outcome * W)
         (batch_ids : list string) (rest : list (list string))
         (statistics : list video_stat) (w w1 : W) (e : exn),
    exec w (videos_request batch_ids) = (inr e, w1) ->
    is_ssl e = false ->
    statistics_loop exec (batch_ids :: rest) statistics w
    = statistics_loop exec rest statistics w1.
Proof.
  intros W exec b rest st w w1 e E He. cbn [statistics_loop].
  unfold videos_request in E. rewrite E, He. reflexivity.
Qed.

(** A batch that fails with a secure-transport error, then with up to two
    more during the retries, then with another kind of error: the retry
    loop is left, nothing is added and the loop goes on with the next
    batch. *)
Lemma statistics_loop_skips_in_retry :
  forall (serve : request -> outcome)
         (batch_ids : list string) (rest : list (list string))
         (statistics : list video_stat)
         (e0 : exn) (errs : list exn) (e : exn)
         (pending : list (option outcome)) (log : trace),
    is_ssl e0 = true ->
    Forall (fun x => is_ssl x = true) errs ->
    List.length errs <= 2 ->
    is_ssl e = false ->
    statistics_loop (traced (scripted serve)) (batch_ids :: rest) statistics
      (failing (e0 :: errs ++ [e]) ++ pending, log)
    = statistics_loop (traced (scripted serve)) rest statistics
        (pending, log ++ failures batch_ids (e0 :: errs ++ [e])).
Proof.
  intros serve b rest st e0 errs e pending log H0 Hall Hlen He.
  destruct errs as [|e1 [|e2 [|? ?]]]; [| | |simpl in Hlen; lia];
    repeat match goal with
           | H : Forall _ (_ :: _) |- _ => inversion H; subst; clear H
           end;
    cbn [statistics_loop retry_batch traced scripted failing failures map app];
    repeat match goal with
           | H : is_ssl _ = _ |- _ => rewrite H
           end;
    cbn [Nat.eqb]; rewrite <- ?List.app_assoc; reflexivity.
Qed.

(** A batch answered at once is requested once. *)
Lemma statistics_loop_answered :
  forall (serve : request -> outcome)
         (batch_ids : list string) (rest : list (list string))
         (statistics : list video_stat) (r : response)
         (pending : list (option outcome)) (log : trace),
    statistics_loop (traced (scripted serve)) (batch_ids :: rest) statistics
      (Some (inl r) :: pending, log)
    = statistics_loop (traced (scripted serve)) rest
        (fst (collect_statistics statistics r))
        (pending, log ++ [(videos_request batch_ids, inl r)]).
Proof. reflexivity. Qed.



Lemma batches_100 (video_ids : list string) :
  List.length video_ids = 100 ->
  batches video_ids = [firstn 50 video_ids; skipn 50 video_ids].
Proof.
  intros Hlen.
  assert (Hrest : List.length (skipn 50 video_ids) = 50)
    by (rewrite length_skipn; lia).
  rewrite batches_cons by (intros ->; discriminate).
  rewrite batches_cons by (intros E; rewrite E in Hrest; discriminate).
  rewrite (@firstn_all2 _ 50 (skipn 50 video_ids)) by lia.
  rewrite (@skipn_all2 _ 50 (skipn 50 video_ids)) by lia.
  reflexivity.
Qed.

(** C4: in [get_videos_statistics] a batch whose request fails with an
    error that is not a secure-transport error adds nothing to the rows
    collected so far, raises nothing, and the loop goes on with the batches
    after it; so with 100 identifiers, a first batch answered with rows and
    a second batch failing that way, the function returns exactly the rows
    of the first batch. *)
Theorem get_videos_statistics_skips_failed_batch :
  forall (W : Type) (exec : W -> request -> outcome * W),
    (forall batch_ids rest statistics w w1 e,
        exec w (videos_request batch_ids) = (inr e, w1) ->
        is_ssl e = false ->
        statistics_loop exec (batch_ids :: rest) statistics w
        = statistics_loop exec rest statistics w1)
    /\
    (forall video_ids rows tok w w1 w2 e,
        List.length video_ids = 100 ->
        List.length rows = 50 ->
        exec w (videos_request (firstn 50 video_ids))
        = (inl (mk_response (Some (map stat_item rows)) tok), w1) ->
        exec w1 (videos_request (skipn 50 video_ids)) = (inr e, w2) ->
        is_ssl e = false ->
        exists result,
          get_videos_statistics exec video_ids w = (Return result, w2)
          /\ result = rows /\ List.length result = 50).
Proof.
  intros W exec. split.
  - apply statistics_loop_skips.
  - intros ids rows tok w w1 w2 e Hlen Hrows E1 E2 He.
    exists rows. split; [|split; [reflexivity|exact Hrows]].
    unfold get_videos_statistics. rewrite (batches_100 _ Hlen).
    unfold videos_request in E1, E2. cbn [statistics_loop]. rewrite E1.
    unfold collect_statistics. cbn [items].
    rewrite append_statistics_stat_items. cbn [fst app].
    rewrite E2, He. reflexivity.
Qed.

Lemma get_videos_statistics_skips_failed_batch_witness :
  exists result,
    get_videos_statistics (scripted refuses) sample_ids
      [Some (inl sample_page); Some (inr (HttpError "quotaExceeded"))]
    = (Return result, [])
    /\ result = sample_rows /\ List.length result = 50.
Proof.
  apply (proj2 (get_videos_statistics_skips_failed_batch _ (scripted refuses))
           sample_ids sample_rows None
           [Some (inl sample_page); Some (inr (HttpError "quotaExceeded"))]
           [Some (inr (HttpError "quotaExceeded"))] []
           (HttpError "quotaExceeded"));
    reflexivity.
Defined.



Lemma statistics_loop_has_result :
  forall (W : Type) (exec : W -> request -> outcome * W)
         (bs : list (list string)) (statistics : list video_stat) (w : W),
    fst (statistics_loop exec bs statistics w) <> OutOfFuel.
Proof.
  intros W exec bs. induction bs as [|b bs IH]; intros st w;
    cbn [statistics_loop]; [discriminate|].
  destruct (exec w (videos_list (join_ids b))) as [[r|x] w1]; [apply IH|].
  destruct (is_ssl x); [|apply IH].
  destruct (retry_batch exec 3 b st w1) as [[st' [e'|]] w2];
    [discriminate|apply IH].
Qed.

(** C10: [get_videos_statistics] always ends, and what it raises, if
    anything, is a secure-transport error, raised when the first request of
    a batch and its three retries have all failed with one (the trace ends
    with these four executions).  An error of another kind skips its batch
    and nothing else, on the first request of the batch as well as during
    the retries.  On no identifiers the result is the empty list and
    nothing is requested. *)
Theorem get_videos_statistics_raises_only_ssl :
  forall (W : Type) (exec : W -> request -> outcome * W)
         (serve : request -> outcome),
    (forall video_ids w log,
        fst (get_videos_statistics (traced exec) video_ids (w, log))
        <> OutOfFuel)
    /\
    (forall video_ids w log e w' log',
        get_videos_statistics (traced exec) video_ids (w, log)
        = (Raise e, (w', log')) ->
        is_ssl e = true
        /\ exists pre batch_ids e0 e1 e2,
             In batch_ids (batches video_ids)
             /\ is_ssl e0 = true /\ is_ssl e1 = true /\ is_ssl e2 = true
             /\ log' = pre ++ ssl_run batch_ids e0 e1 e2 e)
    /\
    (forall batch_ids rest statistics w w1 e,
        exec w (videos_request batch_ids) = (inr e, w1) ->
        is_ssl e = false ->
        statistics_loop exec (batch_ids :: rest) statistics w
        = statistics_loop exec rest statistics w1)
    /\
    (forall batch_ids rest statistics e0 errs e pending log,
        is_ssl e0 = true ->
        Forall (fun x => is_ssl x = true) errs ->
        List.length errs <= 2 ->
        is_ssl e = false ->
        statistics_loop (traced (scripted serve)) (batch_ids :: rest)
          statistics (failing (e0 :: errs ++ [e]) ++ pending, log)
        = statistics_loop (traced (scripted serve)) rest statistics
            (pending, log ++ failures batch_ids (e0 :: errs ++ [e])))
    /\
    (forall w log,
        get_videos_statistics (traced exec) [] (w, log)
        = (Return [], (w, log))).
Proof.
  intros W exec serve.
  split; [intros; apply statistics_loop_has_result|].
  split; [intros ids w log e w' log' H;
          apply (statistics_loop_raises _ _ _ _ _ _ _ _ _ H)|].
  split; [apply statistics_loop_skips|].
  split; [apply statistics_loop_skips_in_retry|reflexivity].
Qed.

Lemma get_videos_statistics_raises_only_ssl_witness :
  is_ssl (SSLError "eof") = true
  /\ Forall (fun x => is_ssl x = true) [SSLError "eof again"]
  /\ 1 <= 2
  /\ is_ssl (HttpError "quotaExceeded") = false
  /\ statistics_loop (traced (scripted refuses)) [["a"]; ["b"]] []
       (failing (SSLError "eof"
                 :: [SSLError "eof again"] ++ [HttpError "quotaExceeded"])
        ++ [Some (inl sample_page)], [])
     = statistics_loop (traced (scripted refuses)) [["b"]] []
         ([Some (inl sample_page)],
          [] ++ failures ["a"]
                  (SSLError "eof"
                   :: [SSLError "eof again"] ++ [HttpError "quotaExceeded"])).
Proof.
  split; [reflexivity|].
  split; [repeat constructor|].
  split; [lia|].
  split; [reflexivity|].
  apply (proj1 (proj2 (proj2 (proj2
           (get_videos_statistics_raises_only_ssl unit refuse_all refuses))))).
  - reflexivity.
  - repeat constructor.
  - simpl. lia.
  - reflexivity.
Defined.

(* ================================================================== *)
(** * Pagination: what every run does, on any service *)
(* ================================================================== *)

Lemma item_videoId_error (it : item) (e : exn) :
  item_videoId it = inr e -> is_ssl e = false.
Proof.
  unfold item_videoId, subscript.
  destruct (item_contentDetails it) as [[v|]|]; intros H; inversion H;
    reflexivity.
Qed.

Lemma append_video_ids_error (video_ids : list string) (its : list item)
    (e : exn) :
  append_video_ids video_ids its = inr e -> is_ssl e = false.
Proof.
  revert video_ids; induction its as [|it its IH]; intros ids H; simpl in H.
  - discriminate.
  - destruct (item_videoId it) as [v|e0] eqn:Ev; [eapply IH, H|].
    inversion H; subst. eapply item_videoId_error, Ev.
Qed.

Lemma append_video_ids_upto_error (n : nat) (video_ids : list string)
    (its : list item) (e : exn) :
  append_video_ids_upto n video_ids its = inr e -> is_ssl e = false.
Proof.
  revert video_ids; induction its as [|it its IH]; intros ids H; simpl in H.
  - discriminate.
  - destruct (item_videoId it) as [v|e0] eqn:Ev;
      [|inversion H; subst; eapply item_videoId_error, Ev].
    destruct (List.length (ids ++ [v]) =? n); [discriminate|eapply IH, H].
Qed.

Lemma retried_in_place_single (x : request * outcome) :
  retried_in_place [x].
Proof. intros i req e _ Hlt. simpl in Hlt. lia. Qed.

Lemma retried_in_place_answered (req : request) (r : response) (L : trace) :
  retried_in_place L -> retried_in_place ((req, inl r) :: L).
Proof.
  intros HL [|i] req' e Hi Hlt; simpl in *; [discriminate|].
  apply (HL i req' e Hi). lia.
Qed.

Lemma retried_in_place_failed (req : request) (e : exn) (L : trace) :
  retried_in_place L ->
  (forall p, hd_error L = Some p -> fst p = req) ->
  retried_in_place ((req, inr e) :: L).
Proof.
  intros HL Hhd [|i] req' e' Hi Hlt; simpl in *.
  - inversion Hi; subst. destruct L as [|[req1 out1] L]; [simpl in Hlt; lia|].
    specialize (Hhd _ eq_refl). simpl in Hhd. subst. eauto.
  - apply (HL i req' e' Hi). lia.
Qed.

Lemma ends_with_error_cons (x : request * outcome) (L : trace) (e : exn) :
  ends_with_error L e -> ends_with_error (x :: L) e.
Proof. intros [L0 [req ->]]. exists (x :: L0), req. reflexivity. Qed.

Lemma ends_with_error_single (req : request) (e : exn) :
  ends_with_error [(req, inr e)] e.
Proof. exists [], req. reflexivity. Qed.

Lemma append_video_ids_upto_length (n : nat) (video_ids : list string)
    (its : list item) (video_ids' : list string) :
  append_video_ids_upto n video_ids its = inl video_ids' ->
  List.length video_ids' = List.length video_ids + List.length its
  \/ List.length video_ids' = n.
Proof.
  revert video_ids; induction its as [|it its IH]; intros ids H; simpl in H.
  - inversion H; subst. left. simpl. lia.
  - destruct (item_videoId it) as [v|]; [|discriminate].
    destruct (List.length (ids ++ [v]) =? n) eqn:E.
    + inversion H; subst. right. apply Nat.eqb_eq, E.
    + apply IH in H. rewrite length_app in H. simpl in *. lia.
Qed.

Lemma last_n_loop_done :
  forall (W : Type) (exec : W -> request -> outcome * W)
         pid n fuel video_ids tok retries (w : W),
    n <= List.length video_ids ->
    last_n_loop exec pid n fuel video_ids tok retries w
    = (Return video_ids, w).
Proof.
  intros W exec pid n fuel ids tok retries w Hn.
  apply Nat.ltb_ge in Hn. destruct fuel; cbn [last_n_loop]; rewrite Hn;
    reflexivity.
Qed.

Section AnyService.

Variable W : Type.
Variable exec : W -> request -> outcome * W.
Variable pid : string.

(** The trace a run starts with is a prefix of the trace it ends with,
    and plays no part in the run. *)
Lemma all_loop_frame :
  forall fuel video_ids tok retries w log,
    all_loop (traced exec) pid fuel video_ids tok retries (w, log)
    = let '(res, (w', L)) :=
        all_loop (traced exec) pid fuel video_ids tok retries (w, []) in
      (res, (w', log ++ L)).
Proof.
  induction fuel as [|fuel IH]; intros ids tok retries w log;
    cbn [all_loop traced].
  - rewrite app_nil_r. reflexivity.
  - destruct (exec w (playlistItems_list pid 50 tok)) as [out w1].
    cbn [app].
    destruct out as [r|e].
    + destruct (items r) as [its|]; [|reflexivity].
      destruct (append_video_ids ids its) as [ids'|e]; [|reflexivity].
      destruct (truthy (nextPageToken r)); [|reflexivity].
      rewrite (IH _ _ _ _ (log ++ _)), (IH _ _ _ _ [_]).
      destruct (all_loop (traced exec) pid fuel ids' (nextPageToken r)
                  retries (w1, [])) as [res [w' L]].
      rewrite <- List.app_assoc. reflexivity.
    + destruct (is_ssl e); [|reflexivity].
      destruct (0 <? retries - 1); [|reflexivity].
      rewrite (IH _ _ _ _ (log ++ _)), (IH _ _ _ _ [_]).
      destruct (all_loop (traced exec) pid fuel ids tok (retries - 1)
                  (w1, [])) as [res [w' L]].
      rewrite <- List.app_assoc. reflexivity.
Qed.

Lemma last_n_loop_frame :
  forall n fuel video_ids tok retries w log,
    last_n_loop (traced exec) pid n fuel video_ids tok retries (w, log)
    = let '(res, (w', L)) :=
        last_n_loop (traced exec) pid n fuel video_ids tok retries (w, []) in
      (res, (w', log ++ L)).
Proof.
  intros n. induction fuel as [|fuel IH]; intros ids tok retries w log;
    cbn [last_n_loop traced];
    (destruct (List.length ids <? n);
     [|rewrite app_nil_r; reflexivity]).
  - rewrite app_nil_r. reflexivity.
  - destruct (exec w (playlistItems_list pid
                        (Nat.min (n - List.length ids) 50) tok)) as [out w1].
    cbn [app].
    destruct out as [r|e].
    + destruct (items r) as [its|]; [|reflexivity].
      destruct (append_video_ids_upto n ids its) as [ids'|e]; [|reflexivity].
      destruct (truthy (nextPageToken r)); [|reflexivity].
      rewrite (IH _ _ _ _ (log ++ _)), (IH _ _ _ _ [_]).
      destruct (last_n_loop (traced exec) pid n fuel ids' (nextPageToken r)
                  retries (w1, [])) as [res [w' L]].
      rewrite <- List.app_assoc. reflexivity.
    + destruct (is_ssl e); [|reflexivity].
      destruct (0 <? retries - 1); [|reflexivity].
      rewrite (IH _ _ _ _ (log ++ _)), (IH _ _ _ _ [_]).
      destruct (last_n_loop (traced exec) pid n fuel ids tok (retries - 1)
                  (w1, [])) as [res [w' L]].
      rewrite <- List.app_assoc. reflexivity.
Qed.

(** What the trace of [get_all_video_ids] looks like on any service: the
    first request is the one of the current token, a failed request is
    repeated as it is, a run that returns has seen fewer secure-transport
    failures than [retries], and a run that raises one has seen exactly
    [retries] of them, the last being the one raised. *)
Lemma all_loop_discipline :
  forall fuel video_ids tok retries w res w' L,
    0 < retries ->
    all_loop (traced exec) pid fuel video_ids tok retries (w, [])
    = (res, (w', L)) ->
    (forall p, hd_error L = Some p -> fst p = playlistItems_list pid 50 tok)
    /\ retried_in_place L
    /\ (forall rows, res = Return rows -> ssl_failures L < retries)
    /\ (forall e, res = Raise e -> is_ssl e = true ->
          ssl_failures L = retries /\ ends_with_error L e).
Proof.
  induction fuel as [|fuel IH]; intros ids tok retries w res w' L Hret H;
    cbn [all_loop traced] in H.
  - inversion H; subst. repeat split; try discriminate.
    intros i req e Hi. destruct i; discriminate.
  - destruct (exec w (playlistItems_list pid 50 tok)) as [out w1].
    cbn [app] in H. destruct out as [r|e].
    + assert (Hstop : forall res0,
                 (forall e0, res0 = Raise e0 -> is_ssl e0 = false) ->
                 (res0, (w1, [(playlistItems_list pid 50 tok, @inl _ exn r)]))
                 = (res, (w', L)) ->
                 (forall p, hd_error L = Some p ->
                            fst p = playlistItems_list pid 50 tok)
                 /\ retried_in_place L
                 /\ (forall rows, res = Return rows -> ssl_failures L < retries)
                 /\ (forall e, res = Raise e -> is_ssl e = true ->
                       ssl_failures L = retries /\ ends_with_error L e)).
      { intros res0 Hres0 E. inversion E; subst. split; [|split; [|split]].
        - intros p Hp. inversion Hp. reflexivity.
        - apply retried_in_place_single.
        - intros. unfold ssl_failures. simpl. exact Hret.
        - intros e He Hssl. rewrite (Hres0 _ He) in Hssl. discriminate. }
      destruct (items r) as [its|];
        [|apply (Hstop (Return ids)); [intros; discriminate|exact H]].
      destruct (append_video_ids ids its) as [ids'|e] eqn:A.
      2:{ apply (Hstop (Raise e)); [|exact H].
          intros e0 [= <-]. eapply append_video_ids_error, A. }
      destruct (truthy (nextPageToken r));
        [|apply (Hstop (Return ids')); [intros; discriminate|exact H]].
      rewrite all_loop_frame in H.
      destruct (all_loop (traced exec) pid fuel ids' (nextPageToken r)
                  retries (w1, [])) as [res1 [w1' L1]] eqn:R.
      inversion H; subst. clear H.
      apply (IH _ _ _ _ _ _ _ Hret) in R.
      destruct R as (HA & HB & HC & HD). split; [|split; [|split]].
      * intros p Hp. inversion Hp. reflexivity.
      * apply retried_in_place_answered, HB.
      * intros rows Hr. apply (HC rows Hr).
      * intros e He Hssl. destruct (HD e He Hssl) as [H1 H2].
        split; [exact H1|apply ends_with_error_cons, H2].
    + destruct (is_ssl e) eqn:Hssl.
      * destruct (0 <? retries - 1) eqn:Hleft.
        -- apply Nat.ltb_lt in Hleft. rewrite all_loop_frame in H.
           destruct (all_loop (traced exec) pid fuel ids tok (retries - 1)
                       (w1, [])) as [res1 [w1' L1]] eqn:R.
           inversion H; subst. clear H.
           apply (IH _ _ _ _ _ _ _ Hleft) in R.
           destruct R as (HA & HB & HC & HD). split; [|split; [|split]].
           ++ intros p Hp. inversion Hp. reflexivity.
           ++ apply retried_in_place_failed; assumption.
           ++ intros rows Hr. specialize (HC rows Hr).
              unfold ssl_failures in *. simpl. unfold ssl_failure at 1.
              simpl. rewrite Hssl. simpl. lia.
           ++ intros e0 He Hs. destruct (HD e0 He Hs) as [H1 H2].
              split; [|apply ends_with_error_cons, H2].
              unfold ssl_failures in *. simpl. unfold ssl_failure at 1.
              simpl. rewrite Hssl. simpl. lia.
        -- apply Nat.ltb_ge in Hleft. inversion H; subst. clear H.
           split; [|split; [|split]].
           ++ intros p Hp. inversion Hp. reflexivity.
           ++ apply retried_in_place_single.
           ++ discriminate.
           ++ intros e0 [= <-] _. split; [|apply ends_with_error_single].
              unfold ssl_failures. simpl. unfold ssl_failure. simpl.
              rewrite Hssl. simpl. lia.
      * inversion H; subst. clear H. split; [|split; [|split]].
        -- intros p Hp. inversion Hp. reflexivity.
        -- apply retried_in_place_single.
        -- discriminate.
        -- intros e0 [= <-] Hs. congruence.
Qed.

Ltac empty_trace Hret :=
  split; [intros ? Hp; discriminate|];
  split; [intros [|?] ? ? Hi; discriminate|];
  split; [intros ? Hr; first [discriminate | exact Hret]|];
  split; [intros ? He; discriminate|];
  intros [|?] ? ? Hi; discriminate.

(** The same for [get_last_n_video_ids], with the size of every page
    request. *)
Lemma last_n_loop_discipline :
  forall n fuel video_ids tok retries w res w' L,
    0 < retries ->
    last_n_loop (traced exec) pid n fuel video_ids tok retries (w, [])
    = (res, (w', L)) ->
    (forall p, hd_error L = Some p ->
       fst p = playlistItems_list pid
                 (Nat.min (n - List.length video_ids) 50) tok)
    /\ retried_in_place L
    /\ (forall rows, res = Return rows -> ssl_failures L < retries)
    /\ (forall e, res = Raise e -> is_ssl e = true ->
          ssl_failures L = retries /\ ends_with_error L e)
    /\ asks_for_remaining pid n (List.length video_ids) L.
Proof.
  intros n.
  induction fuel as [|fuel IH]; intros ids tok retries w res w' L Hret H;
    cbn [last_n_loop traced] in H;
    (destruct (List.length ids <? n) eqn:Hcond;
     [|inversion H; subst; empty_trace Hret]).
  - inversion H; subst. empty_trace Hret.
  - set (req0 := playlistItems_list pid
                   (Nat.min (n - List.length ids) 50) tok) in *.
    assert (Hfirst : forall out L1,
               asks_for_remaining pid n
                 (List.length ids + delivered_by (req0, out)) L1 ->
               asks_for_remaining pid n (List.length ids) ((req0, out) :: L1)).
    { intros out L1 H1 [|i] req out' Hi.
      - inversion Hi; subst. exists tok. simpl.
        rewrite Nat.add_0_r. reflexivity.
      - simpl in Hi. destruct (H1 i req out' Hi) as [tok' ->].
        exists tok'. simpl. f_equal. f_equal. lia. }
    assert (Hnil : forall c, asks_for_remaining pid n c []).
    { intros c [|i] ? ? Hi; discriminate. }
    destruct (exec w req0) as [out w1].
    cbn [app] in H. destruct out as [r|e].
    + assert (Hstop : forall res0,
                 (forall e0, res0 = Raise e0 -> is_ssl e0 = false) ->
                 (res0, (w1, [(req0, @inl _ exn r)])) = (res, (w', L)) ->
                 (forall p, hd_error L = Some p -> fst p = req0)
                 /\ retried_in_place L
                 /\ (forall rows, res = Return rows -> ssl_failures L < retries)
                 /\ (forall e, res = Raise e -> is_ssl e = true ->
                       ssl_failures L = retries /\ ends_with_error L e)
                 /\ asks_for_remaining pid n (List.length ids) L).
      { intros res0 Hres0 E. inversion E; subst.
        split; [|split; [|split; [|split]]].
        - intros p Hp. inversion Hp. reflexivity.
        - apply retried_in_place_single.
        - intros. unfold ssl_failures. simpl. exact Hret.
        - intros e He Hssl. rewrite (Hres0 _ He) in Hssl. discriminate.
        - apply Hfirst, Hnil. }
      destruct (items r) as [its|] eqn:Hits;
        [|apply (Hstop (Return ids)); [intros; discriminate|exact H]].
      destruct (append_video_ids_upto n ids its) as [ids'|e] eqn:A.
      2:{ apply (Hstop (Raise e)); [|exact H].
          intros e0 [= <-]. eapply append_video_ids_upto_error, A. }
      destruct (truthy (nextPageToken r));
        [|apply (Hstop (Return ids')); [intros; discriminate|exact H]].
      rewrite last_n_loop_frame in H.
      destruct (last_n_loop (traced exec) pid n fuel ids' (nextPageToken r)
                  retries (w1, [])) as [res1 [w1' L1]] eqn:R.
      inversion H; subst. clear H.
      pose proof R as R'.
      apply (IH _ _ _ _ _ _ _ Hret) in R.
      destruct R as (HA & HB & HC & HD & HE).
      split; [|split; [|split; [|split]]].
      * intros p Hp. inversion Hp. reflexivity.
      * apply retried_in_place_answered, HB.
      * intros rows Hr. apply (HC rows Hr).
      * intros e He Hssl. destruct (HD e He Hssl) as [H1 H2].
        split; [exact H1|apply ends_with_error_cons, H2].
      * apply Hfirst. unfold delivered_by. cbn [snd]. rewrite Hits.
        destruct (append_video_ids_upto_length _ _ _ _ A) as [Hl|Hl].
        -- rewrite <- Hl. exact HE.
        -- rewrite last_n_loop_done in R' by lia.
           inversion R'; subst. apply Hnil.
    + destruct (is_ssl e) eqn:Hssl.
      * destruct (0 <? retries - 1) eqn:Hleft.
        -- apply Nat.ltb_lt in Hleft. rewrite last_n_loop_frame in H.
           destruct (last_n_loop (traced exec) pid n fuel ids tok
                       (retries - 1) (w1, [])) as [res1 [w1' L1]] eqn:R.
           inversion H; subst. clear H.
           apply (IH _ _ _ _ _ _ _ Hleft) in R.
           destruct R as (HA & HB & HC & HD & HE).
           split; [|split; [|split; [|split]]].
           ++ intros p Hp. inversion Hp. reflexivity.
           ++ apply retried_in_place_failed; assumption.
           ++ intros rows Hr. specialize (HC rows Hr).
              unfold ssl_failures in *. simpl. unfold ssl_failure at 1.
              simpl. rewrite Hssl. simpl. lia.
           ++ intros e0 He Hs. destruct (HD e0 He Hs) as [H1 H2].
              split; [|apply ends_with_error_cons, H2].
              unfold ssl_failures in *. simpl. unfold ssl_failure at 1.
              simpl. rewrite Hssl. simpl. lia.
           ++ apply Hfirst. unfold delivered_by. cbn [snd].
              rewrite Nat.add_0_r. exact HE.
        -- apply Nat.ltb_ge in Hleft. inversion H; subst. clear H.
           split; [|split; [|split; [|split]]].
           ++ intros p Hp. inversion Hp. reflexivity.
           ++ apply retried_in_place_single.
           ++ discriminate.
           ++ intros e0 [= <-] _. split; [|apply ends_with_error_single].
              unfold ssl_failures. simpl. unfold ssl_failure. simpl.
              rewrite Hssl. simpl. lia.
           ++ apply Hfirst, Hnil.
      * inversion H; subst. clear H. split; [|split; [|split; [|split]]].
        -- intros p Hp. inversion Hp. reflexivity.
        -- apply retried_in_place_single.
        -- discriminate.
        -- intros e0 [= <-] Hs. congruence.
        -- apply Hfirst, Hnil.
Qed.

(** A run that does not raise a secure-transport error has seen fewer of
    them than [retries]: it returned, raised another error, or was cut
    short. *)
Lemma all_loop_ssl_bound :
  forall fuel video_ids tok retries w res w' L,
    0 < retries ->
    all_loop (traced exec) pid fuel video_ids tok retries (w, [])
    = (res, (w', L)) ->
    (forall e, res = Raise e -> is_ssl e = false) ->
    ssl_failures L < retries.
Proof.
  induction fuel as [|fuel IH]; intros ids tok retries w res w' L Hret H Hq;
    cbn [all_loop traced] in H.
  - inversion H; subst. exact Hret.
  - destruct (exec w (playlistItems_list pid 50 tok)) as [out w1].
    cbn [app] in H. destruct out as [r|e].
    + assert (Hstop : forall res0,
                 (res0, (w1, [(playlistItems_list pid 50 tok, @inl _ exn r)]))
                 = (res, (w', L)) ->
                 ssl_failures L < retries).
      { intros res0 E. inversion E; subst. exact Hret. }
      destruct (items r) as [its|]; [|apply (Hstop _ H)].
      destruct (append_video_ids ids its) as [ids'|e]; [|apply (Hstop _ H)].
      destruct (truthy (nextPageToken r)); [|apply (Hstop _ H)].
      rewrite all_loop_frame in H.
      destruct (all_loop (traced exec) pid fuel ids' (nextPageToken r)
                  retries (w1, [])) as [res1 [w1' L1]] eqn:R.
      inversion H; subst. clear H.
      apply (IH _ _ _ _ _ _ _ Hret R Hq).
    + destruct (is_ssl e) eqn:Hssl.
      * destruct (0 <? retries - 1) eqn:Hleft.
        -- apply Nat.ltb_lt in Hleft. rewrite all_loop_frame in H.
           destruct (all_loop (traced exec) pid fuel ids tok (retries - 1)
                       (w1, [])) as [res1 [w1' L1]] eqn:R.
           inversion H; subst. clear H.
           pose proof (IH _ _ _ _ _ _ _ Hleft R Hq) as Hb.
           unfold ssl_failures in *. simpl. unfold ssl_failure at 1.
           simpl. rewrite Hssl. simpl. lia.
        -- inversion H; subst. clear H.
           rewrite (Hq e eq_refl) in Hssl. discriminate Hssl.
      * inversion H; subst. clear H.
        unfold ssl_failures. simpl. unfold ssl_failure. simpl.
        rewrite Hssl. simpl. exact Hret.
Qed.

Lemma last_n_loop_ssl_bound :
  forall n fuel video_ids tok retries w res w' L,
    0 < retries ->
    last_n_loop (traced exec) pid n fuel video_ids tok retries (w, [])
    = (res, (w', L)) ->
    (forall e, res = Raise e -> is_ssl e = false) ->
    ssl_failures L < retries.
Proof.
  intros n.
  induction fuel as [|fuel IH]; intros ids tok retries w res w' L Hret H Hq;
    cbn [last_n_loop traced] in H;
    (destruct (List.length ids <? n) eqn:Hcond;
     [|inversion H; subst; exact Hret]).
  - inversion H; subst. exact Hret.
  - set (req0 := playlistItems_list pid
                   (Nat.min (n - List.length ids) 50) tok) in *.
    destruct (exec w req0) as [out w1].
    cbn [app] in H. destruct out as [r|e].
    + assert (Hstop : forall res0,
                 (res0, (w1, [(req0, @inl _ exn r)])) = (res, (w', L)) ->
                 ssl_failures L < retries).
      { intros res0 E. inversion E; subst. exact Hret. }
      destruct (items r) as [its|]; [|apply (Hstop _ H)].
      destruct (append_video_ids_upto n ids its) as [ids'|e];
        [|apply (Hstop _ H)].
      destruct (truthy (nextPageToken r)); [|apply (Hstop _ H)].
      rewrite last_n_loop_frame in H.
      destruct (last_n_loop (traced exec) pid n fuel ids' (nextPageToken r)
                  retries (w1, [])) as [res1 [w1' L1]] eqn:R.
      inversion H; subst. clear H.
      apply (IH _ _ _ _ _ _ _ Hret R Hq).
    + destruct (is_ssl e) eqn:Hssl.
      * destruct (0 <? retries - 1) eqn:Hleft.
        -- apply Nat.ltb_lt in Hleft. rewrite last_n_loop_frame in H.
           destruct (last_n_loop (traced exec) pid n fuel ids tok
                       (retries - 1) (w1, [])) as [res1 [w1' L1]] eqn:R.
           inversion H; subst. clear H.
           pose proof (IH _ _ _ _ _ _ _ Hleft R Hq) as Hb.
           unfold ssl_failures in *. simpl. unfold ssl_failure at 1.
           simpl. rewrite Hssl. simpl. lia.
        -- inversion H; subst. clear H.
           rewrite (Hq e eq_refl) in Hssl. discriminate Hssl.
      * inversion H; subst. clear H.
        unfold ssl_failures. simpl. unfold ssl_failure. simpl.
        rewrite Hssl. simpl. exact Hret.
Qed.

(** The budget of a collection that starts with [retries = 3]: at most
    three secure-transport errors, and three exactly when one is
    raised. *)
Lemma ssl_budget (res : result (list string)) (L : trace) :
  (forall rows, res = Return rows -> ssl_failures L < 3) ->
  (forall e, res = Raise e -> is_ssl e = true ->
     ssl_failures L = 3 /\ ends_with_error L e) ->
  ((forall e, res = Raise e -> is_ssl e = false) -> ssl_failures L < 3) ->
  ssl_failures L <= 3
  /\ (ssl_failures L = 3 <-> exists e, res = Raise e /\ is_ssl e = true)
  /\ (forall e, res = Raise e -> is_ssl e = true -> ends_with_error L e).
Proof.
  intros HC HD HQ.
  assert (Hcases : (exists e, res = Raise e /\ is_ssl e = true)
                   \/ (forall e, res = Raise e -> is_ssl e = false)).
  { destruct res as [rows|e|]; [right; intros; discriminate| |
                                right; intros; discriminate].
    destruct (is_ssl e) eqn:E.
    - left. exists e. split; [reflexivity|exact E].
    - right. intros e0 [= <-]. exact E. }
  split; [|split].
  - destruct Hcases as [(e & He & Hs)|Hq].
    + destruct (HD e He Hs) as [H3 _]. lia.
    + specialize (HQ Hq). lia.
  - split.
    + intros H3. destruct Hcases as [Hex|Hq]; [exact Hex|].
      specialize (HQ Hq). lia.
    + intros (e & He & Hs). apply (HD e He Hs).
  - intros e He Hs. apply (HD e He Hs).
Qed.

End AnyService.

(* ================================================================== *)
(** * Pagination over a playlist *)
(* ================================================================== *)

Lemma append_video_ids_playlist (video_ids l : list string) :
  append_video_ids video_ids (map playlist_item l) = inl (video_ids ++ l).
Proof.
  revert video_ids; induction l as [|v l IH]; intros ids; simpl.
  - rewrite app_nil_r. reflexivity.
  - rewrite IH, <- List.app_assoc. reflexivity.
Qed.

Lemma append_video_ids_upto_playlist (n : nat) (video_ids l : list string) :
  List.length video_ids + List.length l <= n ->
  append_video_ids_upto n video_ids (map playlist_item l)
  = inl (video_ids ++ l).
Proof.
  revert video_ids; induction l as [|v l IH]; intros ids H; simpl.
  - rewrite app_nil_r. reflexivity.
  - destruct (List.length (ids ++ [v]) =? n) eqn:E.
    + apply Nat.eqb_eq in E. rewrite length_app in E. simpl in *.
      destruct l; [reflexivity|simpl in H; lia].
    + rewrite IH, <- List.app_assoc; [reflexivity|].
      rewrite length_app. simpl in *. lia.
Qed.

Lemma page_then_rest {A} (m o : nat) (l : list A) :
  firstn m (skipn o l) ++ skipn (o + m) l = skipn o l.
Proof.
  rewrite (Nat.add_comm o m), <- skipn_skipn. apply firstn_skipn.
Qed.

Lemma firstn_then_page {A} (m c : nat) (l : list A) :
  firstn c l ++ firstn m (skipn c l) = firstn (c + m) l.
Proof.
  revert l; induction c as [|c IH]; intros l; [reflexivity|].
  destruct l as [|x l]; simpl.
  - rewrite firstn_nil. reflexivity.
  - rewrite IH. reflexivity.
Qed.

Section PlaylistRuns.

Variable enc : nat -> string.
Variable dec : string -> nat.
Hypothesis dec_enc : forall n, dec (enc n) = n.
Hypothesis enc_truthy : forall n, truthy (Some (enc n)) = true.

Variable playlist : list string.
Variable pid : string.

Let service := traced (scripted (playlist_service enc dec playlist)).

(** With fewer faults in the script than [retries] and fuel for the pages
    that are left and for the faults, [get_all_video_ids] returns what it
    had collected followed by the rest of the playlist. *)
Lemma all_loop_playlist :
  forall fuel faults tok video_ids retries log,
    page_offset dec tok <= List.length playlist ->
    fault_count faults < retries ->
    List.length playlist + 50 * fault_count faults
      < page_offset dec tok + 50 * fuel ->
    exists w',
      all_loop service pid fuel video_ids tok retries (ssl_script faults, log)
      = (Return (video_ids ++ skipn (page_offset dec tok) playlist), w').
Proof.
  induction fuel as [|fuel IH]; intros faults tok ids retries log Ho Hf Hfuel;
    [lia|].
  assert (Hserved : forall rest log1,
             fault_count rest < retries ->
             List.length playlist + 50 * fault_count rest
               < page_offset dec tok + 50 * S fuel ->
             exists w',
               match items (page enc dec playlist 50 tok) with
               | None => (Return ids, (ssl_script rest, log1))
               | Some its =>
                   match append_video_ids ids its with
                   | inr e => (Raise e, (ssl_script rest, log1))
                   | inl ids' =>
                       let next :=
                         nextPageToken (page enc dec playlist 50 tok) in
                       if truthy next
                       then all_loop service pid fuel ids' next retries
                                     (ssl_script rest, log1)
                       else (Return ids', (ssl_script rest, log1))
                   end
               end
               = (Return (ids ++ skipn (page_offset dec tok) playlist), w')).
  { intros rest log1 Hr Hfu. cbn [page items nextPageToken].
    rewrite append_video_ids_playlist.
    destruct (page_offset dec tok + 50 <? List.length playlist) eqn:Hmore.
    - apply Nat.ltb_lt in Hmore. rewrite enc_truthy.
      destruct (IH rest (Some (enc (page_offset dec tok + 50)))
                  (ids ++ firstn 50 (skipn (page_offset dec tok) playlist))
                  retries log1)
        as [w' Hw'].
      + cbn [page_offset]. rewrite dec_enc. lia.
      + exact Hr.
      + cbn [page_offset]. rewrite dec_enc. lia.
      + exists w'. rewrite Hw'.
        cbn [page_offset]. rewrite dec_enc, <- List.app_assoc, page_then_rest.
        reflexivity.
    - apply Nat.ltb_ge in Hmore. cbn [truthy]. eexists.
      rewrite firstn_all2; [reflexivity|]. rewrite length_skipn. lia. }
  destruct faults as [|[msg|] rest]; cbn [all_loop service traced scripted
                                          ssl_script map playlist_service].
  - apply (Hserved nil); assumption.
  - cbn [is_ssl].
    assert (Hr : fault_count rest < retries - 1)
      by (unfold fault_count in *; simpl in Hf; lia).
    assert (Hleft : (0 <? retries - 1) = true) by (apply Nat.ltb_lt; lia).
    rewrite Hleft. apply IH; try assumption.
    unfold fault_count in *. simpl in Hfuel. lia.
  - apply (Hserved rest); assumption.
Qed.

(** The same for [get_last_n_video_ids], which returns the first [n]
    identifiers of the playlist, all of them when there are fewer. *)
Lemma last_n_loop_playlist :
  forall n fuel faults tok video_ids retries log,
    video_ids = firstn (List.length video_ids) playlist ->
    page_offset dec tok = List.length video_ids ->
    List.length video_ids <= n ->
    fault_count faults < retries ->
    (List.length video_ids < n ->
     n - List.length video_ids + 50 * fault_count faults <= 50 * fuel) ->
    exists w',
      last_n_loop service pid n fuel video_ids tok retries
        (ssl_script faults, log)
      = (Return (firstn n playlist), w').
Proof.
  intros n.
  assert (Hdone : forall fuel ids tok retries w,
             ids = firstn (List.length ids) playlist ->
             List.length ids <= n ->
             (List.length ids <? n) = false ->
             exists w',
               last_n_loop service pid n fuel ids tok retries w
               = (Return (firstn n playlist), w')).
  { intros fuel ids tok retries w Hpre Hle Hcond. apply Nat.ltb_ge in Hcond.
    exists w. rewrite last_n_loop_done by exact Hcond.
    replace n with (List.length ids) by lia. rewrite <- Hpre. reflexivity. }
  induction fuel as [|fuel IH];
    intros faults tok ids retries log Hpre Htok Hle Hf Hfuel;
    destruct (List.length ids <? n) eqn:Hcond;
    try (apply Hdone; assumption).
  { apply Nat.ltb_lt in Hcond. specialize (Hfuel Hcond). lia. }
  apply Nat.ltb_lt in Hcond. specialize (Hfuel Hcond).
  set (c := List.length ids) in *.
  set (m := Nat.min (n - c) 50) in *.
  assert (Hlen : List.length playlist >= c).
  { subst c. rewrite Hpre, length_firstn. lia. }
  assert (Hserved : forall rest log1,
             fault_count rest < retries ->
             n - c + 50 * fault_count rest <= 50 * S fuel ->
             exists w',
               match items (page enc dec playlist m tok) with
               | None => (Return ids, (ssl_script rest, log1))
               | Some its =>
                   match append_video_ids_upto n ids its with
                   | inr e => (Raise e, (ssl_script rest, log1))
                   | inl ids' =>
                       let next :=
                         nextPageToken (page enc dec playlist m tok) in
                       if truthy next
                       then last_n_loop service pid n fuel ids' next retries
                                        (ssl_script rest, log1)
                       else (Return ids', (ssl_script rest, log1))
                   end
               end
               = (Return (firstn n playlist), w')).
  { intros rest log1 Hr Hfu. cbn [page items nextPageToken]. rewrite Htok.
    rewrite append_video_ids_upto_playlist
      by (rewrite length_firstn; fold c; lia).
    assert (Hids : ids ++ firstn m (skipn c playlist)
                   = firstn (c + m) playlist).
    { rewrite Hpre at 1. fold c. apply firstn_then_page. }
    rewrite Hids.
    destruct (c + m <? List.length playlist) eqn:Hmore.
    - apply Nat.ltb_lt in Hmore. rewrite enc_truthy.
      assert (Hl : List.length (firstn (c + m) playlist) = c + m)
        by (rewrite length_firstn; lia).
      apply IH.
      + rewrite Hl. reflexivity.
      + cbn [page_offset]. rewrite dec_enc, Hl. reflexivity.
      + rewrite Hl. lia.
      + exact Hr.
      + rewrite Hl. lia.
    - apply Nat.ltb_ge in Hmore. cbn [truthy]. eexists.
      rewrite !firstn_all2 by lia. reflexivity. }
  destruct faults as [|[msg|] rest];
    cbn [last_n_loop service traced scripted ssl_script map playlist_service];
    fold c; fold m;
    (replace (c <? n) with true by (symmetry; apply Nat.ltb_lt; exact Hcond)).
  - unfold fault_count in Hfuel. simpl in Hfuel.
    apply (Hserved nil); [exact Hf|unfold fault_count; simpl; lia].
  - cbn [is_ssl].
    assert (Hr : fault_count rest < retries - 1)
      by (unfold fault_count in *; simpl in Hf; lia).
    assert (Hleft : (0 <? retries - 1) = true) by (apply Nat.ltb_lt; lia).
    rewrite Hleft. apply IH; try assumption.
    intros _. unfold fault_count in *. simpl in Hfuel. fold c. lia.
  - apply (Hserved rest); assumption.
Qed.

End PlaylistRuns.

Lemma unary_length (n : nat) : String.length (unary n) = S n.
Proof. induction n as [|n IH]; simpl; congruence. Qed.

Lemma unary_pos_unary (n : nat) : unary_pos (unary n) = n.
Proof. unfold unary_pos. rewrite unary_length. lia. Qed.

Lemma unary_truthy (n : nat) : truthy (Some (unary n)) = true.
Proof. destruct n; reflexivity. Qed.

(** ** All of the playlist *)

(** C6, as stated, fails: an answer with an empty list of items and a
    token does not end the loop; the next page is requested and its
    identifiers are returned. *)
Lemma stops_without_items_fails : ~ stops_without_items.
Proof.
  intros H.
  specialize (H _ (scripted refuses) "UU" 1 [] None 3
                [Some (inl (mk_response (Some []) (Some "x")));
                 Some (inl (mk_response (Some [playlist_item "a"]) None))]
                [Some (inl (mk_response (Some [playlist_item "a"]) None))]
                (mk_response (Some []) (Some "x")) eq_refl eq_refl).
  vm_compute in H. discriminate H.
Qed.

(** C6, amended: on a playlist of any size, with fuel for its pages,
    [get_all_video_ids] returns the identifiers of the playlist, all of
    them and in the order of the pages, no more.  And a turn of the loop
    whose request is answered ends the loop exactly when the answer has no
    ['items'] entry at all or no (non-empty) ['nextPageToken']; otherwise,
    also when the list of items is empty, the loop goes on from that
    token. *)
Theorem get_all_video_ids_returns_playlist :
  forall (enc : nat -> string) (dec : string -> nat),
    (forall n, dec (enc n) = n) ->
    (forall n, truthy (Some (enc n)) = true) ->
    forall (playlist : list string) (pid : string) (fuel : nat),
      List.length playlist < 50 * fuel ->
      (exists result w',
          get_all_video_ids
            (traced (scripted (playlist_service enc dec playlist)))
            fuel pid ([], [])
          = (Return result, w')
          /\ result = playlist
          /\ List.length result = List.length playlist)
      /\
      (forall (W : Type) (exec : W -> request -> outcome * W)
              fuel' video_ids tok retries w r w1,
          exec w (playlistItems_list pid 50 tok) = (inl r, w1) ->
          (items r = None ->
           all_loop exec pid (S fuel') video_ids tok retries w
           = (Return video_ids, w1))
          /\
          (forall its video_ids',
              items r = Some its ->
              append_video_ids video_ids its = inl video_ids' ->
              (truthy (nextPageToken r) = false ->
               all_loop exec pid (S fuel') video_ids tok retries w
               = (Return video_ids', w1))
              /\
              (truthy (nextPageToken r) = true ->
               all_loop exec pid (S fuel') video_ids tok retries w
               = all_loop exec pid fuel' video_ids' (nextPageToken r)
                          retries w1))).
Proof.
  intros enc dec Hde Htr playlist pid fuel Hfuel. split.
  - destruct (all_loop_playlist enc dec Hde Htr playlist pid fuel [] None []
                3 []) as [w' Hw'].
    + simpl. lia.
    + unfold fault_count. simpl. lia.
    + unfold fault_count. simpl. lia.
    + exists playlist, w'. split; [exact Hw'|split; reflexivity].
  - intros W exec fuel' ids tok retries w r w1 E. split.
    + intros Hi. cbn [all_loop]. rewrite E, Hi. reflexivity.
    + intros its ids' Hi Ha. split; intros Ht; cbn [all_loop];
        rewrite E, Hi, Ha; cbn zeta; rewrite Ht; reflexivity.
Qed.

Lemma get_all_video_ids_returns_playlist_witness :
  List.length ["a"; "b"; "c"] < 50 * 1
  /\ exists result w',
       get_all_video_ids
         (traced (scripted (playlist_service unary unary_pos ["a"; "b"; "c"])))
         1 "UU" ([], [])
       = (Return result, w')
       /\ result = ["a"; "b"; "c"]
       /\ List.length result = List.length ["a"; "b"; "c"].
Proof.
  split; [simpl; lia|].
  apply (proj1 (get_all_video_ids_returns_playlist unary unary_pos
                  unary_pos_unary unary_truthy ["a"; "b"; "c"] "UU" 1
                  ltac:(simpl; lia))).
Defined.

(** A page with an empty [items] list and a token does not end the loop. *)
Example all_loop_empty_page_goes_on :
  map fst
    (snd (snd (get_all_video_ids
                 (traced (scripted (playlist_service unary unary_pos ["a"])))
                 2 "UU"
                 ([Some (inl (mk_response (Some []) (Some "x")))], []))))
  = [playlistItems_list "UU" 50 None;
     playlistItems_list "UU" 50 (Some "x")].
Proof. vm_compute. reflexivity. Qed.

(** ** The first n of the playlist *)

(** C5: on a playlist of [M] identifiers and for a positive [n], with fuel
    for the pages, [get_last_n_video_ids] returns the first [n] identifiers
    of the playlist in its order: [n] of them when [n <= M], [M] of them
    when [n > M].  And on any service, each request of a run asks for
    [min(n - collected, 50)] entries, where [collected] counts the entries
    delivered by the answers before it. *)
Theorem get_last_n_video_ids_first_n :
  forall (enc : nat -> string) (dec : string -> nat),
    (forall n, dec (enc n) = n) ->
    (forall n, truthy (Some (enc n)) = true) ->
    forall (playlist : list string) (pid : string) (n fuel : nat),
      0 < n ->
      n <= 50 * fuel ->
      (exists result w',
          get_last_n_video_ids
            (traced (scripted (playlist_service enc dec playlist)))
            fuel pid n ([], [])
          = (Return result, w')
          /\ result = firstn n playlist
          /\ (n <= List.length playlist -> List.length result = n)
          /\ (List.length playlist < n ->
              List.length result = List.length playlist))
      /\
      (forall (W : Type) (exec : W -> request -> outcome * W)
              fuel' w res w' L,
          get_last_n_video_ids (traced exec) fuel' pid n (w, [])
          = (res, (w', L)) ->
          asks_for_remaining pid n 0 L).
Proof.
  intros enc dec Hde Htr playlist pid n fuel Hn Hfuel. split.
  - destruct (last_n_loop_playlist enc dec Hde Htr playlist pid n fuel [] None
                [] 3 []) as [w' Hw'].
    + reflexivity.
    + reflexivity.
    + simpl. lia.
    + unfold fault_count. simpl. lia.
    + intros _. unfold fault_count. simpl. lia.
    + exists (firstn n playlist), w'. split; [exact Hw'|].
      split; [reflexivity|]. rewrite length_firstn. lia.
  - intros W exec fuel' w res w' L H.
    apply (last_n_loop_discipline W exec pid n fuel' [] None 3 w res w' L
             ltac:(lia) H).
Qed.

Lemma get_last_n_video_ids_first_n_witness :
  0 < 2 /\ 2 <= 50 * 1
  /\ exists result w',
       get_last_n_video_ids
         (traced (scripted (playlist_service unary unary_pos ["a"; "b"; "c"])))
         1 "UU" 2 ([], [])
       = (Return result, w')
       /\ result = firstn 2 ["a"; "b"; "c"]
       /\ (2 <= List.length ["a"; "b"; "c"] -> List.length result = 2)
       /\ (List.length ["a"; "b"; "c"] < 2 ->
           List.length result = List.length ["a"; "b"; "c"]).
Proof.
  split; [lia|]. split; [simpl; lia|].
  apply (proj1 (get_last_n_video_ids_first_n unary unary_pos
                  unary_pos_unary unary_truthy ["a"; "b"; "c"] "UU" 2 1
                  ltac:(lia) ltac:(simpl; lia))).
Defined.

(** 120 identifiers, the last 70 wanted: a page of 50, then a page of 20. *)
Example get_last_n_video_ids_page_sizes :
  map fst
    (snd (snd (get_last_n_video_ids
                 (traced (scripted
                            (playlist_service unary unary_pos
                               (repeat "v" 120))))
                 5 "UU" 70 ([], []))))
  = [playlistItems_list "UU" 50 None;
     playlistItems_list "UU" 20 (Some (unary 50))].
Proof. vm_compute. reflexivity. Qed.

(** ** Secure-transport faults during pagination *)

(** C1, at the failing input: the first page request fails three times
    with a secure-transport error.  The claim has the page retried up to
    three times, so that the fourth execution would be answered; the code
    sets [retries = 3] once, decrements before testing [retries > 0], and
    raises the third failure after two retries, with three executions in
    all. *)
Example get_all_video_ids_third_failure :
  get_all_video_ids
    (traced (scripted (playlist_service unary unary_pos ["v1"])))
    10 "UU" (ssl_script [Some "a"; Some "b"; Some "c"], [])
  = (Raise (SSLError "c"),
     ([],
      [(playlistItems_list "UU" 50 None, inr (SSLError "a"));
       (playlistItems_list "UU" 50 None, inr (SSLError "b"));
       (playlistItems_list "UU" 50 None, inr (SSLError "c"))])).
Proof. vm_compute. reflexivity. Qed.

(** The counter is not reset between pages: after one failure on the
    first page, the second page is retried once and its second failure is
    raised. *)
Example get_all_video_ids_shared_counter :
  let run :=
    get_all_video_ids
      (traced (scripted (playlist_service unary unary_pos (repeat "v" 60))))
      10 "UU" (ssl_script [Some "a"; None; Some "b"; Some "c"], []) in
  fst run = Raise (SSLError "c")
  /\ map fst (snd (snd run))
     = [playlistItems_list "UU" 50 None;
        playlistItems_list "UU" 50 None;
        playlistItems_list "UU" 50 (Some (unary 50));
        playlistItems_list "UU" 50 (Some (unary 50))].
Proof. vm_compute. split; reflexivity. Qed.

(** With three failures of the first page request the collection raises
    instead of retrying a third time: three retries of each page are not
    what the code gives. *)
Lemma three_retries_per_page_fails : ~ three_retries_per_page.
Proof.
  intros H.
  specialize (H ["v1"] [Some "a"; Some "b"; Some "c"] 10).
  vm_compute in H.
  specialize (H (le_n 3)).
  assert (Hfuel : 151 < 500) by lia.
  specialize (H Hfuel). discriminate H.
Qed.

(** What the code does with secure-transport errors during pagination,
    in both modes and on any service.  A failed page request
    that is not the end of the run is followed by the same request (same
    token, same size).  A collection meets at most three such errors over
    all its pages, and it meets three exactly when it raises one: the
    third, which is then the last entry of its trace; a run that returns,
    raises another error or is cut short has met two at most.  On a
    playlist, with at most two faults in the script, the retried pages
    contribute once: the result is the playlist, or its first [n]
    identifiers. *)
Theorem get_video_ids_retry_budget :
  forall (enc : nat -> string) (dec : string -> nat),
    (forall n, dec (enc n) = n) ->
    (forall n, truthy (Some (enc n)) = true) ->
    forall (playlist : list string) (pid : string),
      (forall (W : Type) (exec : W -> request -> outcome * W)
              fuel w res w' L,
          get_all_video_ids (traced exec) fuel pid (w, []) = (res, (w', L)) ->
          retried_in_place L
          /\ ssl_failures L <= 3
          /\ (ssl_failures L = 3
              <-> exists e, res = Raise e /\ is_ssl e = true)
          /\ (forall e, res = Raise e -> is_ssl e = true ->
                ends_with_error L e))
      /\
      (forall (W : Type) (exec : W -> request -> outcome * W)
              n fuel w res w' L,
          get_last_n_video_ids (traced exec) fuel pid n (w, [])
          = (res, (w', L)) ->
          retried_in_place L
          /\ ssl_failures L <= 3
          /\ (ssl_failures L = 3
              <-> exists e, res = Raise e /\ is_ssl e = true)
          /\ (forall e, res = Raise e -> is_ssl e = true ->
                ends_with_error L e))
      /\
      (forall faults fuel log,
          fault_count faults <= 2 ->
          List.length playlist + 50 * fault_count faults < 50 * fuel ->
          exists w',
            get_all_video_ids
              (traced (scripted (playlist_service enc dec playlist)))
              fuel pid (ssl_script faults, log)
            = (Return playlist, w'))
      /\
      (forall n faults fuel log,
          fault_count faults <= 2 ->
          n + 50 * fault_count faults <= 50 * fuel ->
          exists w',
            get_last_n_video_ids
              (traced (scripted (playlist_service enc dec playlist)))
              fuel pid n (ssl_script faults, log)
            = (Return (firstn n playlist), w')).
Proof.
  intros enc dec Hde Htr playlist pid. split; [|split; [|split]].
  - intros W exec fuel w res w' L H.
    destruct (all_loop_discipline W exec pid fuel [] None 3 w res w' L
                ltac:(lia) H) as (_ & HB & HC & HD).
    split; [exact HB|]. apply ssl_budget; [exact HC|exact HD|].
    apply (all_loop_ssl_bound W exec pid fuel [] None 3 w res w' L
             ltac:(lia) H).
  - intros W exec n fuel w res w' L H.
    destruct (last_n_loop_discipline W exec pid n fuel [] None 3 w res w' L
                ltac:(lia) H) as (_ & HB & HC & HD & _).
    split; [exact HB|]. apply ssl_budget; [exact HC|exact HD|].
    apply (last_n_loop_ssl_bound W exec pid n fuel [] None 3 w res w' L
             ltac:(lia) H).
  - intros faults fuel log Hf Hfuel.
    apply (all_loop_playlist enc dec Hde Htr playlist pid fuel faults None []
             3 log); simpl; lia.
  - intros n faults fuel log Hf Hfuel.
    apply (last_n_loop_playlist enc dec Hde Htr playlist pid n fuel faults
             None [] 3 log); try reflexivity; simpl; lia.
Qed.

Lemma get_video_ids_retry_budget_witness :
  fault_count [None; Some "eof"; Some "eof"] <= 2
  /\ List.length (repeat "v" 60)
       + 50 * fault_count [None; Some "eof"; Some "eof"] < 50 * 4
  /\ exists w',
       get_all_video_ids
         (traced (scripted (playlist_service unary unary_pos (repeat "v" 60))))
         4 "UU" (ssl_script [None; Some "eof"; Some "eof"], [])
       = (Return (repeat "v" 60), w').
Proof.
  split; [vm_compute; lia|]. split; [vm_compute; lia|].
  apply (proj1 (proj2 (proj2
           (get_video_ids_retry_budget unary unary_pos unary_pos_unary
              unary_truthy (repeat "v" 60) "UU")))).
  - vm_compute. lia.
  - vm_compute. lia.
Defined.

(* ================================================================== *)
(** * float64 on integers *)
(* ================================================================== *)

(** ** Integers that a float64 holds exactly *)

Lemma iter_pos_nat {A} (f : A -> A) (p : positive) (x : A) :
  iter_pos f p x = Nat.iter (Pos.to_nat p) f x.
Proof.
  revert x. induction p as [p IH|p IH|]; intros x; cbn [iter_pos].
  - rewrite !IH. rewrite Pos2Nat.inj_xI.
    replace (S (2 * Pos.to_nat p)) with (Pos.to_nat p + S (Pos.to_nat p))
      by lia.
    rewrite Nat.iter_add. f_equal. rewrite Nat.iter_succ_r. reflexivity.
  - rewrite !IH. rewrite Pos2Nat.inj_xO.
    replace (2 * Pos.to_nat p) with (Pos.to_nat p + Pos.to_nat p) by lia.
    rewrite Nat.iter_add. reflexivity.
  - reflexivity.
Qed.

Lemma shr_shiftl (X : positive) (k : nat) :
  Nat.iter k shr_1 (exact_record (Pos.shiftl_nat X k)) = exact_record X.
Proof.
  induction k as [|k IH]; [reflexivity|].
  rewrite Nat.iter_succ_r. cbn [Pos.shiftl_nat nat_rect].
  exact IH.
Qed.

Lemma shiftl_nat_add (X : positive) (a b : nat) :
  Pos.shiftl_nat (Pos.shiftl_nat X a) b = Pos.shiftl_nat X (a + b).
Proof.
  unfold Pos.shiftl_nat.
  induction b as [|b IH]; cbn [nat_rect].
  - rewrite Nat.add_0_r. reflexivity.
  - rewrite IH. rewrite Nat.add_succ_r. reflexivity.
Qed.

Lemma iter_xO_shiftl (m d : positive) :
  Pos.iter xO m d = Pos.shiftl_nat m (Pos.to_nat d).
Proof.
  rewrite Pos2Nat.inj_iter. reflexivity.
Qed.

Lemma Zpos_shiftl_nat (X : positive) (k : nat) :
  Zpos (Pos.shiftl_nat X k) = (Zpos X * 2 ^ Z.of_nat k)%Z.
Proof.
  induction k as [|k IH]; [cbn; lia|].
  cbn [Pos.shiftl_nat nat_rect]. rewrite Pos2Z.inj_xO.
  change (nat_rect (fun _ => positive) X (fun _ => xO) k)
    with (Pos.shiftl_nat X k).
  rewrite IH, Nat2Z.inj_succ, Z.pow_succ_r by lia. lia.
Qed.

Lemma digits_pos (X : positive) : (1 <= digits X)%Z.
Proof. unfold digits. lia. Qed.

Lemma digits_shiftl (X : positive) (k : nat) :
  digits (Pos.shiftl_nat X k) = (digits X + Z.of_nat k)%Z.
Proof.
  unfold digits. induction k as [|k IH]; [cbn; lia|].
  cbn [Pos.shiftl_nat nat_rect digits2_pos].
  change (nat_rect (fun _ => positive) X (fun _ => xO) k)
    with (Pos.shiftl_nat X k).
  rewrite Pos2Z.inj_succ, IH. lia.
Qed.

Lemma digits_lower (X : positive) : (2 ^ (digits X - 1) <= Zpos X)%Z.
Proof.
  unfold digits. induction X as [X IH|X IH|]; cbn [digits2_pos].
  - rewrite Pos2Z.inj_succ.
    replace (Z.succ (Zpos (digits2_pos X)) - 1)%Z
      with (Z.succ (Zpos (digits2_pos X) - 1))%Z by lia.
    rewrite Z.pow_succ_r by lia. lia.
  - rewrite Pos2Z.inj_succ.
    replace (Z.succ (Zpos (digits2_pos X)) - 1)%Z
      with (Z.succ (Zpos (digits2_pos X) - 1))%Z by lia.
    rewrite Z.pow_succ_r by lia. lia.
  - cbn. lia.
Qed.

Lemma digits_bound (X : positive) :
  (Zpos X < 2 ^ 53)%Z -> (digits X <= 53)%Z.
Proof.
  intros H. pose proof (digits_lower X) as Hl.
  destruct (Z.le_gt_cases (digits X) 53) as [Hle|Hgt]; [exact Hle|].
  exfalso.
  assert (2 ^ 53 <= 2 ^ (digits X - 1))%Z
    by (apply Z.pow_le_mono_r; lia).
  lia.
Qed.

Lemma fexp_digits (d : Z) : (1 <= d)%Z -> fexp prec emax d = (d - 53)%Z.
Proof. intros H. unfold fexp, emin, prec, emax. lia. Qed.

(** A mantissa with at least 53 bits is rounded without loss when the
    bits that leave are zero. *)
Lemma binary_round_aux_exact (s : bool) (X : positive) (k : nat) :
  (Zpos X < 2 ^ 53)%Z ->
  shift_of X <= k ->
  binary_round_aux prec emax s (Zpos (Pos.shiftl_nat X k)) (- Z.of_nat k)
    loc_Exact
  = finite_int s X.
Proof.
  intros HX Hk. pose proof (digits_bound X HX) as Hd.
  pose proof (digits_pos X) as Hd1.
  assert (Ht : Z.of_nat (shift_of X) = (53 - digits X)%Z)
    by (unfold shift_of; lia).
  unfold binary_round_aux.
  assert (Hfirst :
    shr_fexp prec emax (Zpos (Pos.shiftl_nat X k)) (- Z.of_nat k) loc_Exact
    = (exact_record (Pos.shiftl_nat X (shift_of X)), (digits X - 53)%Z)).
  { unfold shr_fexp. cbn [Zdigits2 shr_record_of_loc].
    change (Zpos (digits2_pos (Pos.shiftl_nat X k)))
      with (digits (Pos.shiftl_nat X k)).
    rewrite digits_shiftl.
    replace (digits X + Z.of_nat k + - Z.of_nat k)%Z with (digits X) by lia.
    rewrite fexp_digits by lia.
    unfold shr.
    destruct (digits X - 53 - - Z.of_nat k)%Z as [|p|p] eqn:E.
    - replace k with (shift_of X) by lia.
      f_equal. lia.
    - rewrite iter_pos_nat.
      replace k with (shift_of X + Pos.to_nat p) by lia.
      rewrite <- shiftl_nat_add.
      change {| shr_m := Zpos (Pos.shiftl_nat
                                 (Pos.shiftl_nat X (shift_of X))
                                 (Pos.to_nat p));
                shr_r := false; shr_s := false |}
        with (exact_record (Pos.shiftl_nat (Pos.shiftl_nat X (shift_of X))
                              (Pos.to_nat p))).
      rewrite shr_shiftl. f_equal. lia.
    - lia. }
  rewrite Hfirst. cbn [exact_record shr_m loc_of_shr_record
                       round_nearest_even].
  assert (Hsecond :
    shr_fexp prec emax (Zpos (Pos.shiftl_nat X (shift_of X)))
      (digits X - 53) loc_Exact
    = (exact_record (Pos.shiftl_nat X (shift_of X)), (digits X - 53)%Z)).
  { unfold shr_fexp. cbn [Zdigits2 shr_record_of_loc].
    change (Zpos (digits2_pos (Pos.shiftl_nat X (shift_of X))))
      with (digits (Pos.shiftl_nat X (shift_of X))).
    rewrite digits_shiftl, Ht.
    replace (digits X + (53 - digits X) + (digits X - 53))%Z
      with (digits X) by lia.
    rewrite fexp_digits by lia. rewrite Z.sub_diag. reflexivity. }
  rewrite Hsecond. cbn [exact_record shr_m].
  replace (digits X - 53 <=? emax - prec)%Z with true
    by (symmetry; apply Z.leb_le; unfold emax, prec; lia).
  reflexivity.
Qed.

Lemma binary_round_exact (s : bool) (X : positive) (k : nat) :
  (Zpos X < 2 ^ 53)%Z ->
  binary_round prec emax s (Pos.shiftl_nat X k) (- Z.of_nat k)
  = finite_int s X.
Proof.
  intros HX. pose proof (digits_bound X HX) as Hd.
  pose proof (digits_pos X) as Hd1.
  assert (Ht : Z.of_nat (shift_of X) = (53 - digits X)%Z)
    by (unfold shift_of; lia).
  unfold binary_round.
  change (Zpos (digits2_pos (Pos.shiftl_nat X k)))
    with (digits (Pos.shiftl_nat X k)).
  rewrite digits_shiftl.
  replace (digits X + Z.of_nat k + - Z.of_nat k)%Z with (digits X) by lia.
  rewrite fexp_digits by lia. unfold shl_align.
  destruct (digits X - 53 - - Z.of_nat k)%Z as [|p|p] eqn:E.
  - apply binary_round_aux_exact; [exact HX|lia].
  - apply binary_round_aux_exact; [exact HX|lia].
  - rewrite iter_xO_shiftl, shiftl_nat_add.
    replace (k + Pos.to_nat p) with (shift_of X) by lia.
    replace (digits X - 53)%Z with (- Z.of_nat (shift_of X))%Z by lia.
    apply binary_round_aux_exact; [exact HX|lia].
Qed.

(** What [f64_of_Z] is on the integers of the range. *)
Lemma f64_of_Z_pos (X : positive) :
  in_range (Zpos X) -> f64_of_Z (Zpos X) = finite_int false X.
Proof.
  intros H. unfold f64_of_Z, binary_normalize.
  apply (binary_round_exact false X 0). exact H.
Qed.

Lemma f64_of_Z_neg (X : positive) :
  in_range (Zneg X) -> f64_of_Z (Zneg X) = finite_int true X.
Proof.
  intros H. unfold f64_of_Z, binary_normalize.
  apply (binary_round_exact true X 0). exact H.
Qed.

(** An integer of the range that is given with trailing zero bits. *)
Lemma normalize_exact (z : Z) (k : nat) :
  in_range z ->
  binary_normalize prec emax (z * 2 ^ Z.of_nat k) (- Z.of_nat k) false = f64_of_Z z.
Proof.
  intros H. destruct z as [|X|X].
  - reflexivity.
  - rewrite f64_of_Z_pos by exact H. rewrite <- Zpos_shiftl_nat.
    apply binary_round_exact. exact H.
  - rewrite f64_of_Z_neg by exact H.
    replace (Zneg X * 2 ^ Z.of_nat k)%Z
      with (Zneg (Pos.shiftl_nat X k))
      by (rewrite <- Pos2Z.opp_pos, Zpos_shiftl_nat; lia).
    apply binary_round_exact. exact H.
Qed.

(** ** Sums and differences of such integers *)

Lemma f64_of_Z_zero : f64_of_Z 0 = S754_zero false.
Proof. reflexivity. Qed.

Lemma f64_of_Z_signed (s : bool) (X : positive) :
  in_range (Zpos X) -> f64_of_Z (cond_Zopp s (Zpos X)) = finite_int s X.
Proof.
  intros H. destruct s; cbn [cond_Zopp Z.opp]; [apply f64_of_Z_neg|apply f64_of_Z_pos];
    exact H.
Qed.

Lemma shl_align_finite (X : positive) (T : nat) :
  (Zpos X < 2 ^ 53)%Z ->
  shift_of X <= T ->
  fst (shl_align (Pos.shiftl_nat X (shift_of X)) (digits X - 53)
         (- Z.of_nat T))
  = Pos.shiftl_nat X T.
Proof.
  intros HX HT. pose proof (digits_bound X HX) as Hd.
  assert (Ht : Z.of_nat (shift_of X) = (53 - digits X)%Z)
    by (unfold shift_of; lia).
  unfold shl_align.
  destruct (- Z.of_nat T - (digits X - 53))%Z as [|p|p] eqn:E; cbn [fst].
  - replace T with (shift_of X) by lia. reflexivity.
  - lia.
  - rewrite iter_xO_shiftl, shiftl_nat_add. f_equal. lia.
Qed.

Lemma cond_Zopp_mul (s : bool) (a b : Z) :
  cond_Zopp s (a * b) = (cond_Zopp s a * b)%Z.
Proof. destruct s; cbn [cond_Zopp]; lia. Qed.

Lemma min_exponent (X Y : positive) :
  (Zpos X < 2 ^ 53)%Z -> (Zpos Y < 2 ^ 53)%Z ->
  Z.min (digits X - 53) (digits Y - 53)
  = (- Z.of_nat (Nat.max (shift_of X) (shift_of Y)))%Z.
Proof.
  intros HX HY. pose proof (digits_bound X HX). pose proof (digits_bound Y HY).
  unfold shift_of. lia.
Qed.

Lemma SFadd_finite_int (sx sy : bool) (X Y : positive) :
  in_range (Zpos X) -> in_range (Zpos Y) ->
  in_range (cond_Zopp sx (Zpos X) + cond_Zopp sy (Zpos Y)) ->
  f64_add (finite_int sx X) (finite_int sy Y)
  = f64_of_Z (cond_Zopp sx (Zpos X) + cond_Zopp sy (Zpos Y)).
Proof.
  intros HX HY HZ. unfold f64_add, finite_int, SFadd.
  rewrite (min_exponent X Y HX HY).
  rewrite !shl_align_finite by (assumption || lia).
  rewrite !Zpos_shiftl_nat, !cond_Zopp_mul, <- Z.mul_add_distr_r.
  apply normalize_exact. exact HZ.
Qed.

Lemma SFsub_finite_int (sx sy : bool) (X Y : positive) :
  in_range (Zpos X) -> in_range (Zpos Y) ->
  in_range (cond_Zopp sx (Zpos X) - cond_Zopp sy (Zpos Y)) ->
  f64_sub (finite_int sx X) (finite_int sy Y)
  = f64_of_Z (cond_Zopp sx (Zpos X) - cond_Zopp sy (Zpos Y)).
Proof.
  intros HX HY HZ. unfold f64_sub, finite_int, SFsub.
  rewrite (min_exponent X Y HX HY).
  rewrite !shl_align_finite by (assumption || lia).
  rewrite !Zpos_shiftl_nat, !cond_Zopp_mul, <- Z.mul_sub_distr_r.
  apply normalize_exact. exact HZ.
Qed.

Lemma f64_of_Z_cases (z : Z) :
  in_range z ->
  (z = 0%Z /\ f64_of_Z z = S754_zero false)
  \/ exists s X, z = cond_Zopp s (Zpos X) /\ in_range (Zpos X)
                 /\ f64_of_Z z = finite_int s X.
Proof.
  intros H. destruct z as [|X|X].
  - left. split; reflexivity.
  - right. exists false, X. split; [reflexivity|]. split; [exact H|].
    apply f64_of_Z_pos, H.
  - right. exists true, X. split; [reflexivity|]. split; [exact H|].
    apply f64_of_Z_neg, H.
Qed.

(** Float64 addition and subtraction are exact on the integers of the
    range whose result is in the range. *)
Lemma f64_add_exact (x y : Z) :
  in_range x -> in_range y -> in_range (x + y) ->
  f64_add (f64_of_Z x) (f64_of_Z y) = f64_of_Z (x + y).
Proof.
  intros Hx Hy Hz.
  destruct (f64_of_Z_cases x Hx) as [[-> Ex]|(sx & X & -> & HX & Ex)];
    destruct (f64_of_Z_cases y Hy) as [[-> Ey]|(sy & Y & -> & HY & Ey)];
    rewrite ?Ex, ?Ey.
  - reflexivity.
  - rewrite Z.add_0_l, f64_of_Z_signed by exact HY. reflexivity.
  - rewrite Z.add_0_r, f64_of_Z_signed by exact HX. reflexivity.
  - apply SFadd_finite_int; assumption.
Qed.

Lemma f64_sub_exact (x y : Z) :
  in_range x -> in_range y -> in_range (x - y) ->
  f64_sub (f64_of_Z x) (f64_of_Z y) = f64_of_Z (x - y).
Proof.
  intros Hx Hy Hz.
  destruct (f64_of_Z_cases x Hx) as [[-> Ex]|(sx & X & -> & HX & Ex)];
    destruct (f64_of_Z_cases y Hy) as [[-> Ey]|(sy & Y & -> & HY & Ey)];
    rewrite ?Ex, ?Ey.
  - reflexivity.
  - replace (0 - cond_Zopp sy (Zpos Y))%Z with (cond_Zopp (negb sy) (Zpos Y))
      by (destruct sy; cbn; lia).
    rewrite f64_of_Z_signed by exact HY. reflexivity.
  - rewrite Z.sub_0_r, f64_of_Z_signed by exact HX. reflexivity.
  - apply SFsub_finite_int; assumption.
Qed.

(** ** Comparisons, signs and quotients *)

Lemma shiftl_nat_inj (X Y : positive) (k : nat) :
  Pos.shiftl_nat X k = Pos.shiftl_nat Y k -> X = Y.
Proof.
  intros H. apply (f_equal Zpos) in H. rewrite !Zpos_shiftl_nat in H.
  assert (0 < 2 ^ Z.of_nat k)%Z by (apply Z.pow_pos_nonneg; lia).
  apply Z.mul_cancel_r in H; [|lia]. congruence.
Qed.

Lemma SFeqb_finite_int (X Y : positive) :
  SFeqb (finite_int false X) (finite_int false Y) = (Zpos X =? Zpos Y)%Z.
Proof.
  destruct (Z.eqb_spec (Zpos X) (Zpos Y)) as [E|E].
  - injection E as ->. unfold SFeqb, finite_int, SFcompare.
    rewrite Z.compare_refl, Pos.compare_cont_refl. reflexivity.
  - unfold SFeqb, finite_int, SFcompare.
    destruct (digits X - 53 ?= digits Y - 53)%Z eqn:Ec; try reflexivity.
    apply Z.compare_eq in Ec.
    assert (Hs : shift_of X = shift_of Y) by (unfold shift_of; lia).
    rewrite Hs.
    destruct (Pos.compare_cont Eq (Pos.shiftl_nat X (shift_of Y))
                (Pos.shiftl_nat Y (shift_of Y))) eqn:Em; try reflexivity.
    apply Pos.compare_eq in Em. apply shiftl_nat_inj in Em.
    exfalso. apply E. congruence.
Qed.

(** On the counts of the range, the float64 comparison is the comparison
    of the integers. *)
Lemma SFeqb_f64_of_Z (x y : Z) :
  (0 <= x)%Z -> (0 <= y)%Z -> in_range x -> in_range y ->
  SFeqb (f64_of_Z x) (f64_of_Z y) = (x =? y)%Z.
Proof.
  intros Hx Hy Rx Ry. destruct x as [|X|X], y as [|Y|Y]; try lia.
  - reflexivity.
  - rewrite f64_of_Z_pos by exact Ry. reflexivity.
  - rewrite f64_of_Z_pos by exact Rx. reflexivity.
  - rewrite !f64_of_Z_pos by assumption. apply SFeqb_finite_int.
Qed.

Lemma signbit_f64_of_Z (z : Z) : (0 <= z)%Z -> in_range z -> signbit (f64_of_Z z) = false.
Proof.
  intros Hz Rz. destruct z as [|X|X]; try lia; [reflexivity|].
  rewrite f64_of_Z_pos by exact Rz. reflexivity.
Qed.

Lemma shr_1_nonneg (mrs : shr_record) :
  (0 <= shr_m mrs)%Z -> (0 <= shr_m (shr_1 mrs))%Z.
Proof.
  destruct mrs as [m r s]. destruct m as [|[p|p|]|p]; cbn; lia.
Qed.

Lemma shr_fexp_nonneg (m e : Z) (l : location) :
  (0 <= m)%Z -> (0 <= shr_m (fst (shr_fexp prec emax m e l)))%Z.
Proof.
  intros Hm. unfold shr_fexp, shr.
  assert (H0 : (0 <= shr_m (shr_record_of_loc m l))%Z)
    by (destruct l as [|[]]; exact Hm).
  destruct (fexp prec emax (Zdigits2 m + e) - e)%Z as [|p|p]; cbn [fst];
    try exact H0.
  rewrite iter_pos_nat.
  induction (Pos.to_nat p) as [|k IH]; [exact H0|].
  cbn [Nat.iter nat_rect]. apply shr_1_nonneg. exact IH.
Qed.

Lemma round_nearest_even_nonneg (m : Z) (l : location) :
  (0 <= m)%Z -> (0 <= round_nearest_even m l)%Z.
Proof.
  intros Hm. destruct l as [|[]]; cbn; try lia. destruct (Z.even m); lia.
Qed.

Lemma binary_round_aux_sign (s : bool) (m e : Z) (l : location) :
  (0 <= m)%Z -> has_sign s (binary_round_aux prec emax s m e l).
Proof.
  intros Hm. unfold binary_round_aux.
  pose proof (shr_fexp_nonneg m e l Hm) as H1.
  destruct (shr_fexp prec emax m e l) as [mrs' e']. cbn [fst] in H1.
  pose proof (shr_fexp_nonneg _ e' loc_Exact
                (round_nearest_even_nonneg _ (loc_of_shr_record mrs') H1))
    as H2.
  destruct (shr_fexp prec emax
              (round_nearest_even (shr_m mrs') (loc_of_shr_record mrs'))
              e' loc_Exact) as [mrs'' e''].
  cbn [fst] in H2. destruct (shr_m mrs'') as [|p|p]; [reflexivity| |lia].
  destruct (e'' <=? emax - prec)%Z; reflexivity.
Qed.

Lemma f64_of_Z_sign (z : Z) : has_sign (z <? 0)%Z (f64_of_Z z).
Proof.
  destruct z as [|X|X]; [reflexivity| |];
    unfold f64_of_Z, binary_normalize, binary_round;
    destruct (shl_align _ _ _) as [mz ez];
    apply binary_round_aux_sign; lia.
Qed.

Lemma has_sign_number (s : bool) (f : float64) :
  has_sign s f -> f <> S754_nan.
Proof. intros H E. rewrite E in H. exact H. Qed.

(** The quotient of a positive count of the range by a positive integer
    is a number, and it is not negative. *)
Lemma f64_div_sign (x y : Z) :
  (0 < x)%Z -> (0 < y)%Z -> in_range x ->
  has_sign false (f64_div (f64_of_Z x) (f64_of_Z y)).
Proof.
  intros Hx Hy Rx. destruct x as [|X|X]; try lia. rewrite (f64_of_Z_pos X Rx).
  pose proof (f64_of_Z_sign y) as Hs.
  replace (y <? 0)%Z with false in Hs by (symmetry; apply Z.ltb_ge; lia).
  destruct (f64_of_Z y) as [s|s| |s m e]; cbn in Hs; try contradiction; subst s;
    try reflexivity.
  unfold f64_div, finite_int, SFdiv, SFdiv_core_binary.
  match goal with
  | |- context [Z.div_eucl ?a ?b] =>
      pose proof (Z.div_eucl_eq a b) as Hq;
      pose proof (Z.mod_pos_bound a b) as Hr;
      assert (Ha : (0 <= a)%Z);
      [|unfold Z.modulo in Hr; destruct (Z.div_eucl a b) as [q r]]
  end.
  { match goal with
    | |- (0 <= match ?s with _ => _ end)%Z =>
        destruct s; [lia|apply Z.shiftl_nonneg; lia|lia]
    end. }
  cbn [xorb]. apply binary_round_aux_sign.
  assert (Hb : (0 < Zpos m)%Z) by lia.
  specialize (Hq ltac:(lia)). specialize (Hr Hb). nia.
Qed.

Lemma has_sign_not_negative (f : float64) :
  has_sign false f -> SFltb f f64_zero = false.
Proof.
  destruct f as [s|s| |s m e]; cbn; intros H; try contradiction; subst;
    reflexivity.
Qed.

(* ================================================================== *)
(** * The moving average *)
(* ================================================================== *)


Lemma SFeqb_refl_number (f : float64) : f <> S754_nan -> SFeqb f f = true.
Proof.
  destruct f as [s|s| |s m e]; intros H; try reflexivity;
    [destruct s; reflexivity|contradiction H; reflexivity|].
  unfold SFeqb, SFcompare. rewrite Z.compare_refl, Pos.compare_cont_refl.
  destruct s; reflexivity.
Qed.

Lemma add_range_one (values : list float64) (i : nat) (st : mean_state) :
  add_range values i (i + 1) st = add_mean (value_at values i) st.
Proof.
  unfold add_range. replace (i + 1 - i) with 1 by lia. reflexivity.
Qed.

(** With the window 1 every position sets the state up anew, and the one
    value of the window is the mean. *)
Lemma roll_mean_from_window_1 (values : list float64) (count i : nat)
    (st : mean_state) :
  (forall j, j < List.length values -> value_at values j <> S754_nan) ->
  i + count <= List.length values ->
  roll_mean_from 1 1 values i count st = map (value_at values) (seq i count).
Proof.
  intros Hv. revert i st. induction count as [|count IH]; intros i st Hi;
    [reflexivity|].
  cbn [roll_mean_from seq map].
  assert (Hb : (i =? 0) || (window_end (i - 1) <=? window_start 1 i) = true).
  { unfold window_end, window_start. destruct i; [reflexivity|].
    cbn [Nat.eqb orb]. apply Nat.leb_le. lia. }
  rewrite Hb. unfold window_start, window_end.
  replace (i + 1 - 1) with i by lia. rewrite add_range_one.
  assert (Hst : add_mean (value_at values i) (setup values i)
                = mk_mean_state 1
                    (f64_add f64_zero (f64_sub (value_at values i) f64_zero))
                    (if signbit (value_at values i) then 1 else 0)%Z
                    (f64_sub
                       (f64_sub
                          (f64_add f64_zero
                             (f64_sub (value_at values i) f64_zero))
                          f64_zero)
                       (f64_sub (value_at values i) f64_zero))
                    f64_zero 1 (value_at values i)).
  { unfold add_mean, setup.
    cbn [nobs sum_x neg_ct compensation_add compensation_remove
         num_consecutive_same_value prev_value].
    rewrite (SFeqb_refl_number _ (Hv i ltac:(lia))).
    destruct (signbit (value_at values i)); reflexivity. }
  rewrite Hst. f_equal. apply IH. lia.
Qed.

Lemma value_at_map (zs : list Z) (j : nat) :
  j < List.length zs -> value_at (map f64_of_Z zs) j = f64_of_Z (nth j zs 0%Z).
Proof.
  intros Hj. unfold value_at.
  rewrite (nth_indep _ S754_nan (f64_of_Z 0)) by (rewrite length_map; exact Hj).
  apply map_nth.
Qed.

Lemma zsum_app (a b : list Z) : zsum (a ++ b) = (zsum a + zsum b)%Z.
Proof. induction a as [|x a IH]; simpl; [reflexivity|]. rewrite IH. lia. Qed.

Lemma zsum_nonneg (l : list Z) :
  Forall (fun z => 0 <= z)%Z l -> (0 <= zsum l)%Z.
Proof. induction 1; simpl; lia. Qed.

Lemma skipn_nth_cons {A} (d : A) (k : nat) (l : list A) :
  k < List.length l -> skipn k l = nth k l d :: skipn (S k) l.
Proof.
  revert l. induction k as [|k IH]; intros [|x l] H; simpl in *;
    try lia; [reflexivity|].
  apply IH. lia.
Qed.

Lemma firstn_succ_nth {A} (d : A) (k : nat) (l : list A) :
  k < List.length l -> firstn (S k) l = firstn k l ++ [nth k l d].
Proof.
  revert l. induction k as [|k IH]; intros [|x l] H; simpl in *;
    try lia; [reflexivity|].
  f_equal. apply IH. lia.
Qed.

Section RollFacts.

Variable zs : list Z.
Hypothesis counts_nonneg : Forall (fun z => 0 <= z)%Z zs.
Hypothesis counts_small : (zsum zs < 2 ^ 53)%Z.

Local Abbreviation P := (prefix_sum zs).

Lemma prefix_succ (k : nat) :
  k < List.length zs -> P (S k) = (P k + nth k zs 0)%Z.
Proof.
  intros H. unfold prefix_sum. rewrite (firstn_succ_nth 0%Z) by exact H.
  rewrite zsum_app. simpl. lia.
Qed.

Lemma nth_nonneg (k : nat) : (0 <= nth k zs 0)%Z.
Proof.
  destruct (Nat.lt_ge_cases k (List.length zs)) as [H|H].
  - apply (proj1 (Forall_forall _ _) counts_nonneg). apply nth_In, H.
  - rewrite nth_overflow by exact H. lia.
Qed.

Lemma prefix_mono (a b : nat) : a <= b -> (0 <= P a <= P b)%Z.
Proof.
  intros Hab. split.
  - unfold prefix_sum. apply zsum_nonneg.
    apply Forall_forall. intros x Hx.
    apply (proj1 (Forall_forall _ _) counts_nonneg).
    rewrite <- (firstn_skipn a zs). apply in_or_app. left. exact Hx.
  - induction Hab as [|b Hab IH]; [lia|].
    destruct (Nat.lt_ge_cases b (List.length zs)) as [H|H].
    + rewrite prefix_succ by exact H. pose proof (nth_nonneg b). lia.
    + unfold prefix_sum in *. rewrite (firstn_all2 (n:=S b)) by lia.
      rewrite (firstn_all2 (n:=b)) in IH by lia. exact IH.
Qed.

Lemma prefix_bound (a : nat) : (P a <= zsum zs)%Z.
Proof.
  pose proof (prefix_mono a (List.length zs)) as H.
  destruct (Nat.le_ge_cases a (List.length zs)) as [Ha|Ha].
  - specialize (H Ha). unfold prefix_sum in H at 3. rewrite firstn_all in H. lia.
  - unfold prefix_sum. rewrite firstn_all2 by exact Ha. lia.
Qed.

Lemma window_sum (w i : nat) :
  w <= i + 1 -> i < List.length zs ->
  zsum (trailing_window w zs i) = (P (i + 1) - P (i + 1 - w))%Z.
Proof.
  intros Hw Hi. unfold trailing_window, prefix_sum.
  rewrite <- (firstn_skipn (i + 1 - w) (firstn (i + 1) zs)).
  rewrite zsum_app. rewrite firstn_firstn.
  replace (Nat.min (i + 1 - w) (i + 1)) with (i + 1 - w) by lia.
  rewrite skipn_firstn_comm.
  replace (i + 1 - (i + 1 - w)) with w by lia. lia.
Qed.

Lemma in_range_between (a b : nat) : b <= a -> in_range (P a - P b).
Proof.
  intros H. pose proof (prefix_mono b a H). pose proof (prefix_bound a).
  unfold in_range. lia.
Qed.

Lemma in_range_count (k : nat) : in_range (nth k zs 0%Z).
Proof.
  pose proof (nth_nonneg k) as H0. unfold in_range.
  destruct (Nat.lt_ge_cases k (List.length zs)) as [H|H].
  - pose proof (prefix_succ k H). pose proof (prefix_mono 0 k ltac:(lia)).
    pose proof (prefix_bound (S k)). lia.
  - rewrite nth_overflow by exact H. cbn. lia.
Qed.

Lemma in_range_nonneg (z : Z) : (0 <= z < 2 ^ 53)%Z -> in_range z.
Proof. unfold in_range. lia. Qed.

Lemma f64_of_Z_number (z : Z) : in_range z -> f64_of_Z z <> S754_nan.
Proof.
  intros H. destruct (f64_of_Z_cases z H) as [[_ E]|(s & X & _ & _ & E)];
    rewrite E; discriminate.
Qed.

(** One value enters the window. *)
Lemma add_mean_exact (z S p : Z) (st : mean_state) :
  (0 <= z)%Z -> (0 <= S)%Z -> (S + z < 2 ^ 53)%Z -> (0 <= p < 2 ^ 53)%Z ->
  sum_x st = f64_of_Z S -> compensation_add st = f64_zero -> prev_value st = f64_of_Z p ->
  add_mean (f64_of_Z z) st
  = mk_mean_state (nobs st + 1) (f64_of_Z (S + z)) (neg_ct st) f64_zero
      (compensation_remove st)
      (if (z =? p)%Z then num_consecutive_same_value st + 1 else 1)%Z
      (f64_of_Z z).
Proof.
  intros Hz HS Hsum Hp Es Ec Ep. unfold add_mean.
  assert (Rz : in_range z) by (apply in_range_nonneg; lia).
  assert (RS : in_range S) by (apply in_range_nonneg; lia).
  assert (Rt : in_range (S + z)) by (apply in_range_nonneg; lia).
  assert (Rp : in_range p) by (apply in_range_nonneg; lia).
  rewrite (SFeqb_refl_number _ (f64_of_Z_number z Rz)).
  rewrite Es, Ec, Ep. change f64_zero with (f64_of_Z 0).
  rewrite (f64_sub_exact z 0) by (rewrite ?Z.sub_0_r; assumption || exact I
                                  || (unfold in_range; cbn; lia)).
  rewrite Z.sub_0_r.
  rewrite (f64_add_exact S z) by assumption.
  rewrite (f64_sub_exact (S + z) S)
    by (try assumption; replace (S + z - S)%Z with z by lia; exact Rz).
  replace (S + z - S)%Z with z by lia.
  rewrite (f64_sub_exact z z)
    by (try assumption; rewrite Z.sub_diag; unfold in_range; cbn; lia).
  rewrite Z.sub_diag.
  rewrite (signbit_f64_of_Z z Hz Rz).
  rewrite (SFeqb_f64_of_Z z p) by (assumption || lia).
  reflexivity.
Qed.

Lemma add_zero_negative (S : Z) :
  in_range S -> f64_add (f64_of_Z S) (S754_zero true) = f64_of_Z S.
Proof.
  intros H. destruct (f64_of_Z_cases S H) as [[_ E]|(s & X & _ & _ & E)];
    rewrite E; reflexivity.
Qed.

(** One value leaves the window. *)
Lemma remove_mean_exact (z S : Z) (st : mean_state) :
  (0 <= z <= S)%Z -> (S < 2 ^ 53)%Z ->
  sum_x st = f64_of_Z S -> compensation_remove st = f64_zero ->
  remove_mean (f64_of_Z z) st
  = mk_mean_state (nobs st - 1) (f64_of_Z (S - z)) (neg_ct st)
      (compensation_add st) f64_zero (num_consecutive_same_value st)
      (prev_value st).
Proof.
  intros Hz HS Es Ec. unfold remove_mean.
  assert (Rz : in_range z) by (apply in_range_nonneg; lia).
  assert (RS : in_range S) by (apply in_range_nonneg; lia).
  assert (Rt : in_range (S - z)) by (apply in_range_nonneg; lia).
  assert (R0 : in_range 0) by (unfold in_range; cbn; lia).
  rewrite (SFeqb_refl_number _ (f64_of_Z_number z Rz)).
  rewrite Es, Ec, (signbit_f64_of_Z z (proj1 Hz) Rz).
  destruct (Z.eq_dec z 0) as [->|Hnz].
  - change (SFopp (f64_of_Z 0)) with (S754_zero true).
    change (f64_sub (S754_zero true) f64_zero) with (S754_zero true).
    rewrite add_zero_negative by exact RS.
    change f64_zero with (f64_of_Z 0).
    rewrite (f64_sub_exact S S) by (rewrite ?Z.sub_diag; assumption).
    rewrite Z.sub_diag, Z.sub_0_r. reflexivity.
  - assert (Eo : SFopp (f64_of_Z z) = f64_of_Z (- z)).
    { destruct z as [|X|X]; try lia. rewrite f64_of_Z_pos by exact Rz.
      change (- Z.pos X)%Z with (Z.neg X). rewrite f64_of_Z_neg by exact Rz.
      reflexivity. }
    assert (Rn : in_range (- z)) by (unfold in_range in *; lia).
    rewrite Eo. change f64_zero with (f64_of_Z 0).
    rewrite (f64_sub_exact (- z) 0) by (rewrite ?Z.sub_0_r; assumption).
    rewrite Z.sub_0_r.
    rewrite (f64_add_exact S (- z))
      by (try assumption; replace (S + - z)%Z with (S - z)%Z by lia;
          exact Rt).
    replace (S + - z)%Z with (S - z)%Z by lia.
    rewrite (f64_sub_exact (S - z) S)
      by (try assumption; replace (S - z - S)%Z with (- z)%Z by lia;
          exact Rn).
    replace (S - z - S)%Z with (- z)%Z by lia.
    rewrite (f64_sub_exact (- z) (- z))
      by (try assumption; rewrite Z.sub_diag; exact R0).
    rewrite Z.sub_diag. reflexivity.
Qed.

Lemma same_value_run_spec (i k : nat) :
  1 <= k ->
  (k <= same_value_run zs i
   <-> k <= i + 1
       /\ forall j, i + 1 - k <= j <= i -> nth j zs 0%Z = nth i zs 0%Z).
Proof.
  revert k. induction i as [|i IH]; intros k Hk.
  - cbn [same_value_run]. split.
    + intros H. split; [lia|]. intros j Hj. replace j with 0 by lia.
      reflexivity.
    + intros [H _]. lia.
  - cbn [same_value_run]. destruct (Z.eqb_spec (nth (S i) zs 0%Z) (nth i zs 0%Z))
      as [E|E].
    + split.
      * intros H. destruct (Nat.eq_dec k 1) as [->|Hk1].
        -- split; [lia|]. intros j Hj. replace j with (S i) by lia.
           reflexivity.
        -- destruct (proj1 (IH (k - 1) ltac:(lia)) ltac:(lia)) as [H1 H2].
           split; [lia|]. intros j Hj.
           destruct (Nat.eq_dec j (S i)) as [->|Hj1]; [reflexivity|].
           rewrite E. apply H2. lia.
      * intros [H1 H2]. destruct (Nat.eq_dec k 1) as [->|Hk1]; [lia|].
        assert (k - 1 <= same_value_run zs i); [|lia].
        apply (IH (k - 1)); [lia|]. split; [lia|]. intros j Hj.
        rewrite <- E. apply H2. lia.
    + split.
      * intros H. assert (k = 1) by lia. subst k. split; [lia|].
        intros j Hj. replace j with (S i) by lia. reflexivity.
      * intros [H1 H2]. destruct (Nat.eq_dec k 1) as [->|Hk1]; [lia|].
        exfalso. apply E. symmetry. apply H2. lia.
Qed.

Lemma forallb_window (f : Z -> bool) (w s : nat) :
  forallb f (firstn w (skipn s zs)) = true
  <-> forall j, s <= j < s + w -> j < List.length zs -> f (nth j zs 0%Z) = true.
Proof.
  rewrite forallb_forall. split.
  - intros H j Hj Hlen. apply H.
    replace (nth j zs 0%Z) with (nth (j - s) (firstn w (skipn s zs)) 0%Z).
    + apply nth_In. rewrite length_firstn, length_skipn. lia.
    + rewrite nth_firstn, nth_skipn.
      replace (j - s <? w) with true by (symmetry; apply Nat.ltb_lt; lia).
      f_equal. lia.
  - intros H x Hx. destruct (In_nth _ _ 0%Z Hx) as (n & Hn & <-).
    rewrite length_firstn, length_skipn in Hn.
    rewrite nth_firstn, nth_skipn.
    replace (n <? w) with true by (symmetry; apply Nat.ltb_lt; lia).
    apply H; lia.
Qed.

Lemma same_value_run_window (w i : nat) :
  1 <= w -> w <= i + 1 -> i < List.length zs ->
  (Z.of_nat w <=? Z.of_nat (same_value_run zs i))%Z
  = forallb (Z.eqb (nth i zs 0%Z)) (trailing_window w zs i).
Proof.
  intros Hw Hwi Hi. apply Bool.eq_iff_eq_true.
  unfold trailing_window. rewrite forallb_window, Z.leb_le.
  rewrite <- Nat2Z.inj_le, (same_value_run_spec i w Hw). split.
  - intros [_ H] j Hj Hlen. apply Z.eqb_eq. symmetry. apply H. lia.
  - intros H. split; [lia|]. intros j Hj. symmetry. apply Z.eqb_eq.
    apply H; lia.
Qed.

Lemma zsum_bounds_entry (l : list Z) (x : Z) :
  Forall (fun z => 0 <= z)%Z l -> In x l -> (0 <= x <= zsum l)%Z.
Proof.
  induction 1 as [|y l Hy Hl IH]; intros Hin; [contradiction|].
  pose proof (zsum_nonneg l Hl). destruct Hin as [->|Hin]; simpl.
  - lia.
  - specialize (IH Hin). lia.
Qed.

Lemma window_nonneg (w i : nat) :
  Forall (fun z => 0 <= z)%Z (trailing_window w zs i).
Proof.
  apply Forall_forall. intros x Hx. unfold trailing_window in Hx.
  apply (proj1 (Forall_forall _ _) counts_nonneg).
  rewrite <- (firstn_skipn (i + 1 - w) zs). apply in_or_app. right.
  rewrite <- (firstn_skipn w (skipn (i + 1 - w) zs)). apply in_or_app.
  left. exact Hx.
Qed.

(** A window of counts whose sum is zero holds zeros only. *)
Lemma window_all_zero (w i : nat) :
  1 <= w -> w <= i + 1 -> i < List.length zs ->
  (zsum (trailing_window w zs i) <= 0)%Z ->
  forallb (Z.eqb (nth i zs 0%Z)) (trailing_window w zs i) = true.
Proof.
  intros Hw Hwi Hi Hz.
  assert (Hlast : In (nth i zs 0%Z) (trailing_window w zs i)).
  { unfold trailing_window.
    replace (nth i zs 0%Z)
      with (nth (w - 1) (firstn w (skipn (i + 1 - w) zs)) 0%Z).
    - apply nth_In. rewrite length_firstn, length_skipn. lia.
    - rewrite nth_firstn, nth_skipn.
      replace (w - 1 <? w) with true by (symmetry; apply Nat.ltb_lt; lia).
      f_equal. lia. }
  pose proof (zsum_bounds_entry _ _ (window_nonneg w i) Hlast) as Hv.
  apply forallb_forall. intros x Hx.
  pose proof (zsum_bounds_entry _ _ (window_nonneg w i) Hx) as Hb.
  apply Z.eqb_eq. lia.
Qed.

Variable w : nat.
Hypothesis window_wide : 2 <= w.

Let values : list float64 := map f64_of_Z zs.

Lemma count_bounds (k : nat) : (0 <= nth k zs 0 < 2 ^ 53)%Z.
Proof.
  pose proof (nth_nonneg k) as H0. pose proof (in_range_count k) as H1.
  unfold in_range in H1. lia.
Qed.

Lemma rolled_first :
  0 < List.length zs -> rolled zs w 0 (add_range values 0 1 (setup values 0)).
Proof.
  intros Hlen. change (add_range values 0 1) with (add_range values 0 (0 + 1)).
  rewrite add_range_one. unfold values.
  rewrite (value_at_map zs 0 Hlen).
  rewrite (add_mean_exact (nth 0 zs 0%Z) 0 (nth 0 zs 0%Z));
    try (pose proof (count_bounds 0); lia);
    try reflexivity;
    [|cbn [setup prev_value]; apply value_at_map; exact Hlen].
  unfold rolled.
  cbn [nobs sum_x neg_ct compensation_add compensation_remove
       num_consecutive_same_value prev_value setup same_value_run].
  rewrite Z.eqb_refl.
  replace (0 + 1 - w) with 0 by lia.
  change (0 + 1) with 1. rewrite (prefix_succ 0 Hlen).
  change (P 0) with 0%Z.
  replace (Nat.min 1 w) with 1 by lia.
  repeat split. f_equal. lia.
Qed.

Lemma rolled_next (k : nat) (st : mean_state) :
  S k < List.length zs ->
  rolled zs w k st ->
  rolled zs w (S k)
    (add_range values (window_end k) (window_end (S k))
       (remove_range values (window_start w k) (window_start w (S k)) st)).
Proof.
  intros Hlen (Hn & Hs & Hneg & Hca & Hcr & Hrun & Hprev).
  unfold window_end, window_start.
  replace (k + 1) with (S k) in Hn, Hs |- * by lia. rewrite add_range_one.
  unfold values. rewrite (value_at_map zs (S k) Hlen).
  pose proof (count_bounds (S k)) as Hz.
  pose proof (count_bounds k) as Hp.
  pose proof (prefix_succ (S k) Hlen) as Hsucc.
  pose proof (prefix_bound (S (S k))) as Hall.
  destruct (Nat.lt_ge_cases (S k) w) as [Hsmall|Hfull].
  - (* the window is not full yet: nothing leaves *)
    unfold remove_range.
    replace (S k + 1 - w - (S k - w)) with 0 by lia. cbn [seq fold_left].
    replace (S k - w) with 0 in Hs by lia. change (P 0) with 0%Z in Hs.
    pose proof (prefix_mono 0 (S k) ltac:(lia)) as Hm.
    rewrite (add_mean_exact (nth (S k) zs 0%Z) (P (S k) - 0)
               (nth k zs 0%Z));
      try lia; try assumption.
    unfold rolled.
    cbn [nobs sum_x neg_ct compensation_add compensation_remove
         num_consecutive_same_value prev_value same_value_run].
    replace (S k + 1 - w) with 0 by lia. change (P 0) with 0%Z.
    replace (S k + 1) with (S (S k)) by lia. rewrite Hsucc, Hn, Hrun.
    repeat split; try assumption.
    + lia.
    + f_equal. lia.
    + destruct (nth (S k) zs 0 =? nth k zs 0)%Z; lia.
  - (* the oldest value leaves *)
    unfold remove_range.
    replace (S k + 1 - w - (S k - w)) with 1 by lia. cbn [seq fold_left].
    assert (Hold : S k - w < List.length zs) by lia.
    rewrite (value_at_map zs (S k - w) Hold).
    pose proof (count_bounds (S k - w)) as Hzo.
    pose proof (prefix_succ (S k - w) Hold) as Hso.
    pose proof (prefix_mono (S (S k - w)) (S k) ltac:(lia)) as Hm.
    pose proof (prefix_mono 0 (S k - w) ltac:(lia)) as Hm0.
    pose proof (prefix_bound (S k)) as Hb.
    rewrite (remove_mean_exact (nth (S k - w) zs 0%Z)
               (P (S k) - P (S k - w)));
      try lia; try assumption.
    rewrite (add_mean_exact (nth (S k) zs 0%Z)
               (P (S k) - P (S k - w) - nth (S k - w) zs 0%Z)
               (nth k zs 0%Z));
      try lia; try assumption; try reflexivity.
    unfold rolled.
    cbn [nobs sum_x neg_ct compensation_add compensation_remove
         num_consecutive_same_value prev_value same_value_run].
    replace (S k + 1 - w) with (S (S k - w)) by lia.
    replace (S k + 1) with (S (S k)) by lia. rewrite Hsucc, Hso, Hn, Hrun.
    repeat split; try assumption.
    + lia.
    + f_equal. lia.
    + destruct (nth (S k) zs 0 =? nth k zs 0)%Z; lia.
Qed.

Lemma calc_mean_rolled (i : nat) (st : mean_state) :
  i < List.length zs -> rolled zs w i st ->
  calc_mean (Z.of_nat w) st = mean_at w zs i.
Proof.
  intros Hi (Hn & Hs & Hneg & Hca & Hcr & Hrun & Hprev).
  unfold calc_mean, mean_at. rewrite Hn, Hs, Hneg, Hrun, Hprev.
  destruct (i + 1 <? w) eqn:E.
  - apply Nat.ltb_lt in E.
    replace (Z.of_nat w <=? Z.of_nat (Nat.min (i + 1) w))%Z with false
      by (symmetry; apply Z.leb_gt; lia).
    reflexivity.
  - apply Nat.ltb_ge in E. replace (Nat.min (i + 1) w) with w by lia.
    rewrite Z.leb_refl.
    replace (0 <? Z.of_nat w)%Z with true by (symmetry; apply Z.ltb_lt; lia).
    cbn [andb]. rewrite (same_value_run_window w i) by lia.
    destruct (forallb _ _) eqn:Ef; [reflexivity|].
    assert (Hpos : (0 < zsum (trailing_window w zs i))%Z).
    { destruct (Z.lt_ge_cases 0 (zsum (trailing_window w zs i)))
        as [Hp|Hp]; [exact Hp|].
      exfalso. rewrite (window_all_zero w i) in Ef by (assumption || lia).
      discriminate Ef. }
    rewrite (window_sum w i E Hi) in *.
    rewrite (has_sign_not_negative _
               (f64_div_sign (P (i + 1) - P (i + 1 - w)) (Z.of_nat w)
                  Hpos ltac:(lia)
                  (in_range_between (i + 1) (i + 1 - w) ltac:(lia)))).
    replace (0 =? Z.of_nat w)%Z with false by (symmetry; apply Z.eqb_neq; lia).
    reflexivity.
Qed.

Lemma roll_mean_from_rolled (count i : nat) (st : mean_state) :
  i + count = List.length zs ->
  i = 0 \/ (exists k, i = S k /\ rolled zs w k st) ->
  roll_mean_from w (Z.of_nat w) values i count st
  = map (mean_at w zs) (seq i count).
Proof.
  revert i st. induction count as [|count IH]; intros i st Hlen Hst;
    [reflexivity|].
  cbn [roll_mean_from seq map].
  destruct Hst as [->|(k & -> & Hk)].
  - cbn [Nat.eqb orb].
    assert (Ews : window_start w 0 = 0) by (unfold window_start; lia).
    rewrite Ews. change (window_end 0) with 1.
    pose proof (rolled_first ltac:(lia)) as H0.
    rewrite (calc_mean_rolled 0 _ ltac:(lia) H0). f_equal.
    apply IH; [lia|]. right. exists 0. split; [reflexivity|exact H0].
  - replace ((S k =? 0) || (window_end (S k - 1) <=? window_start w (S k)))
      with false
      by (symmetry; cbn [Nat.eqb orb]; apply Nat.leb_gt;
          unfold window_end, window_start; lia).
    replace (S k - 1) with k by lia.
    pose proof (rolled_next k st ltac:(lia) Hk) as H1.
    rewrite (calc_mean_rolled (S k) _ ltac:(lia) H1). f_equal.
    apply IH; [lia|]. right. exists (S k). split; [reflexivity|exact H1].
Qed.

End RollFacts.

Lemma mean_at_window_1 (zs : list Z) (i : nat) :
  i < List.length zs -> mean_at 1 zs i = f64_of_Z (nth i zs 0%Z).
Proof.
  intros Hi. unfold mean_at, trailing_window.
  replace (i + 1 <? 1) with false by (symmetry; apply Nat.ltb_ge; lia).
  replace (i + 1 - 1) with i by lia.
  rewrite (skipn_nth_cons 0%Z i zs Hi). cbn [firstn forallb].
  rewrite Z.eqb_refl. reflexivity.
Qed.

Lemma map_nth_seq {A} (l : list A) (d : A) :
  map (fun i => nth i l d) (seq 0 (List.length l)) = l.
Proof.
  induction l as [|x l IH]; simpl; [reflexivity|].
  rewrite <- seq_shift, map_map. rewrite IH. reflexivity.
Qed.

(** With the window 1 the rolling mean of numbers is the numbers. *)
Lemma roll_mean_window_1 (values : list float64) :
  Forall (fun v => v <> S754_nan) values ->
  roll_mean 1 values = values.
Proof.
  intros Hv. unfold roll_mean.
  rewrite roll_mean_from_window_1.
  - apply map_nth_seq.
  - intros j Hj. apply (proj1 (Forall_forall _ _) Hv). apply nth_In, Hj.
  - lia.
Qed.

(** pandas' rolling mean on counts that float64 sums hold exactly. *)
Theorem roll_mean_spec (w : nat) (zs : list Z) :
  1 <= w ->
  Forall (fun z => 0 <= z)%Z zs -> (zsum zs < 2 ^ 53)%Z ->
  roll_mean w (map f64_of_Z zs) = map (mean_at w zs) (seq 0 (List.length zs)).
Proof.
  intros Hw Hnn Hsum.
  destruct (Nat.eq_dec w 1) as [->|Hw1].
  - rewrite roll_mean_window_1.
    + transitivity (map f64_of_Z (map (fun i => nth i zs 0%Z) (seq 0 (List.length zs))));
        [rewrite map_nth_seq; reflexivity|].
      rewrite map_map. apply map_ext_in. intros i Hi. apply in_seq in Hi.
      symmetry. apply mean_at_window_1. lia.
    + apply Forall_forall. intros v Hv. apply in_map_iff in Hv.
      destruct Hv as (z & <- & _). apply (has_sign_number _ _ (f64_of_Z_sign z)).
  - unfold roll_mean. rewrite length_map.
    apply roll_mean_from_rolled; try assumption; try lia.
Qed.

(* ================================================================== *)
(** * Sorting by upload date *)
(* ================================================================== *)

Module NumpySortFacts.

Import NumpySort.

Section IntrosortFacts.

Variable A : Type.
Variable key : A -> Z.

Local Abbreviation less := (less A key).
Local Abbreviation insert_back := (insert_back A key).
Local Abbreviation insertion := (insertion A key).
Local Abbreviation order3 := (order3 A key).
Local Abbreviation span_lt := (span_lt A key).
Local Abbreviation span_gt := (span_gt A key).
Local Abbreviation hoare := (hoare A key).
Local Abbreviation set_nth := (set_nth A).
Local Abbreviation partition := (partition A key).
Local Abbreviation aheapsort := (aheapsort A key).
Local Abbreviation sort_range := (sort_range A key).
Local Abbreviation aquicksort := (aquicksort A key).
Local Abbreviation le_key := (le_key A key).
Local Abbreviation ge_key := (ge_key A key).
Local Abbreviation has_key := (has_key A key).

Lemma sorted_app (R : A -> A -> Prop) (l1 l2 : list A) :
  StronglySorted R l1 -> StronglySorted R l2 ->
  (forall x y, In x l1 -> In y l2 -> R x y) ->
  StronglySorted R (l1 ++ l2).
Proof.
  induction l1 as [|a l1 IH]; intros H1 H2 H; simpl; [exact H2|].
  inversion H1; subst. constructor.
  - apply IH; auto. intros x y Hx Hy. apply H; [right|]; assumption.
  - apply Forall_app. split; [assumption|].
    apply Forall_forall. intros y Hy. apply H; [left; reflexivity|exact Hy].
Qed.

Lemma sorted_rev (R : A -> A -> Prop) (l : list A) :
  StronglySorted R l -> StronglySorted (fun a b => R b a) (rev l).
Proof.
  induction 1 as [|a l Hs IH Hall]; simpl; [constructor|].
  apply sorted_app; [exact IH|repeat constructor|].
  intros x y Hx [<-|[]]. apply in_rev in Hx.
  rewrite Forall_forall in Hall. apply Hall, Hx.
Qed.

(** ** Insertion *)

Lemma insert_back_perm (x : A) (rp : list A) :
  Permutation (x :: rp) (insert_back x rp).
Proof.
  induction rp as [|y rp IH]; simpl; [apply Permutation_refl|].
  destruct (less x y); [|apply Permutation_refl].
  eapply perm_trans; [apply perm_swap|]. apply perm_skip, IH.
Qed.

Lemma insert_back_sorted (x : A) (rp : list A) :
  StronglySorted ge_key rp -> StronglySorted ge_key (insert_back x rp).
Proof.
  induction 1 as [|y rp Hs IH Hall]; simpl; [repeat constructor|].
  unfold less. destruct (key x <? key y)%Z eqn:E.
  - apply Z.ltb_lt in E. constructor; [exact IH|].
    eapply Permutation_Forall; [apply insert_back_perm|].
    constructor; [unfold ge_key; lia|exact Hall].
  - apply Z.ltb_ge in E. constructor; [constructor; assumption|].
    constructor; [exact E|].
    eapply Forall_impl; [|exact Hall]. unfold ge_key. intros a Ha. lia.
Qed.

Lemma insertion_fold (l acc : list A) :
  Permutation (rev l ++ acc)
    (fold_left (fun rp x => insert_back x rp) l acc)
  /\ (StronglySorted ge_key acc ->
      StronglySorted ge_key
        (fold_left (fun rp x => insert_back x rp) l acc)).
Proof.
  revert acc. induction l as [|x l IH]; intros acc; simpl.
  - split; [apply Permutation_refl|auto].
  - destruct (IH (insert_back x acc)) as [Hp Hs]. split.
    + eapply perm_trans; [|exact Hp]. rewrite <- app_assoc. simpl.
      apply Permutation_app_head, insert_back_perm.
    + intros Hacc. apply Hs, insert_back_sorted, Hacc.
Qed.

Lemma insertion_perm (l : list A) : Permutation l (insertion l).
Proof.
  unfold insertion. destruct (insertion_fold l []) as [Hp _].
  rewrite app_nil_r in Hp. eapply perm_trans; [apply Permutation_rev|].
  eapply perm_trans; [exact Hp|apply Permutation_rev].
Qed.

Lemma insertion_sorted (l : list A) :
  StronglySorted le_key (insertion l).
Proof.
  unfold insertion. destruct (insertion_fold l []) as [_ Hs].
  apply (sorted_rev ge_key). apply Hs. constructor.
Qed.

(** The entries of one key keep their order. *)
Lemma insert_back_stable (k : Z) (x : A) (rp : list A) :
  filter (has_key k) (rev (insert_back x rp))
  = filter (has_key k) (rev rp) ++ (if has_key k x then [x] else []).
Proof.
  induction rp as [|y rp IH]; simpl; [reflexivity|].
  unfold less. destruct (key x <? key y)%Z eqn:E; simpl.
  - rewrite !filter_app, IH. cbn [filter]. apply Z.ltb_lt in E.
    destruct (has_key k x) eqn:Ex; destruct (has_key k y) eqn:Ey;
      rewrite ?app_nil_r; try reflexivity.
    unfold has_key in Ex, Ey. apply Z.eqb_eq in Ex, Ey. lia.
  - rewrite !filter_app. cbn [filter].
    destruct (has_key k x); destruct (has_key k y);
      rewrite ?app_nil_r, <- ?app_assoc; reflexivity.
Qed.

Lemma insertion_stable (k : Z) (l : list A) :
  filter (has_key k) (insertion l) = filter (has_key k) l.
Proof.
  unfold insertion.
  assert (H : forall acc,
             filter (has_key k)
               (rev (fold_left (fun rp x => insert_back x rp) l acc))
             = filter (has_key k) (rev acc) ++ filter (has_key k) l).
  { induction l as [|x l IH]; intros acc; simpl.
    - rewrite app_nil_r. reflexivity.
    - rewrite IH, insert_back_stable, <- app_assoc.
      destruct (has_key k x); reflexivity. }
  apply (H []).
Qed.


Section HeapFacts.

Variable d : A.

Local Abbreviation at1 := (at1 A d).
Local Abbreviation put1 := (put1 A).
Local Abbreviation sift := (sift A key d).
Local Abbreviation heapify := (heapify A key d).
Local Abbreviation extract := (extract A key d).
Local Abbreviation heap_at := (heap_at A key d).

(** ** Arrays *)

Lemma set_nth_length (k : nat) (x : A) (l : list A) :
  List.length (set_nth k x l) = List.length l.
Proof.
  unfold set_nth. revert k; induction l as [|a l IH]; intros [|k]; simpl;
    try reflexivity.
  f_equal. apply IH.
Qed.

Lemma nth_set_nth_same (k : nat) (x : A) (l : list A) :
  k < List.length l -> nth k (set_nth k x l) d = x.
Proof.
  unfold set_nth. revert k; induction l as [|a l IH]; intros [|k] H;
    simpl in *; try lia; [reflexivity|].
  apply IH. lia.
Qed.

Lemma nth_set_nth_other (k k' : nat) (x : A) (l : list A) :
  k <> k' -> nth k' (set_nth k x l) d = nth k' l d.
Proof.
  unfold set_nth. revert k k'; induction l as [|a l IH]; intros k k' H.
  - destruct k; simpl; destruct k'; reflexivity.
  - destruct k as [|k]; destruct k' as [|k']; simpl;
      [lia|reflexivity|reflexivity|apply IH; lia].
Qed.

Lemma set_nth_same_value (k : nat) (l : list A) :
  set_nth k (nth k l d) l = l.
Proof.
  unfold set_nth. revert k; induction l as [|a l IH]; intros [|k]; simpl;
    try reflexivity.
  f_equal. apply IH.
Qed.

Lemma set_nth_perm (k : nat) (x : A) (l : list A) :
  k < List.length l ->
  Permutation (nth k l d :: set_nth k x l) (x :: l).
Proof.
  revert k; induction l as [|a l IH]; intros k Hk; [simpl in Hk; lia|].
  destruct k as [|k]; [apply perm_swap|].
  unfold set_nth in *. cbn [nth firstn skipn app].
  simpl in Hk. specialize (IH k ltac:(lia)).
  eapply perm_trans; [apply perm_swap|].
  eapply perm_trans; [apply perm_skip, IH|]. apply perm_swap.
Qed.

Lemma skipn_set_nth (n k : nat) (x : A) (l : list A) :
  k < n -> skipn n (set_nth k x l) = skipn n l.
Proof.
  unfold set_nth. revert n k; induction l as [|a l IH]; intros n k H.
  - destruct k; simpl; destruct n; reflexivity.
  - destruct n as [|n]; [lia|]. destruct k as [|k]; simpl; [reflexivity|].
    apply IH. lia.
Qed.

(** Exchanging two entries. *)
Lemma set_nth_twice_perm (i j : nat) (x y : A) (l : list A) :
  i <> j -> i < List.length l -> j < List.length l ->
  Permutation (nth i l d :: nth j l d :: set_nth j y (set_nth i x l))
              (x :: y :: l).
Proof.
  intros Hij Hi Hj.
  apply perm_trans with (nth i l d :: y :: set_nth i x l).
  - apply perm_skip. rewrite <- (nth_set_nth_other i j x l Hij).
    apply set_nth_perm. rewrite set_nth_length. exact Hj.
  - eapply perm_trans; [apply perm_swap|].
    eapply perm_trans; [apply perm_skip, set_nth_perm, Hi|].
    apply perm_swap.
Qed.

Lemma set_nth_exchange (i j : nat) (x y : A) (l : list A) :
  i <> j -> i < List.length l -> j < List.length l ->
  Permutation (set_nth j y (set_nth i x l)) (set_nth j x (set_nth i y l)).
Proof.
  intros Hij Hi Hj.
  apply (Permutation_cons_inv (a := nth j l d)).
  apply (Permutation_cons_inv (a := nth i l d)).
  eapply perm_trans; [apply set_nth_twice_perm; assumption|].
  eapply perm_trans; [apply perm_swap|].
  apply Permutation_sym, set_nth_twice_perm; assumption.
Qed.

Lemma put1_length (a : list A) (k : nat) (x : A) :
  List.length (put1 a k x) = List.length a.
Proof. apply set_nth_length. Qed.

Lemma at1_put1_same (a : list A) (k : nat) (x : A) :
  1 <= k <= List.length a -> at1 (put1 a k x) k = x.
Proof. intros H. apply nth_set_nth_same. lia. Qed.

Lemma at1_put1_other (a : list A) (k k' : nat) (x : A) :
  1 <= k -> 1 <= k' -> k <> k' -> at1 (put1 a k x) k' = at1 a k'.
Proof. intros H H' Hne. apply nth_set_nth_other. lia. Qed.

(** ** The heap *)

Lemma heap_at_put_other (a : list A) (n k i : nat) (x : A) :
  1 <= k -> 1 <= i -> i <> k -> i <> 2 * k -> i <> 2 * k + 1 ->
  heap_at a n k -> heap_at (put1 a i x) n k.
Proof.
  intros Hk Hi H1 H2 H3 [Ha Hb]. unfold heap_at.
  rewrite !at1_put1_other by lia. split; assumption.
Qed.

Lemma heap_at_put_child (a : list A) (n k i : nat) (x : A) :
  1 <= k -> i = 2 * k \/ i = 2 * k + 1 -> i <= List.length a ->
  heap_at a n k -> le_key x (at1 a k) -> heap_at (put1 a i x) n k.
Proof.
  intros Hk Hi Hlen [Ha Hb] Hx. unfold heap_at.
  rewrite (at1_put1_other a i k) by lia.
  destruct Hi as [-> | ->].
  - rewrite at1_put1_same by lia. rewrite at1_put1_other by lia.
    split; [intros _; exact Hx|exact Hb].
  - rewrite at1_put1_same by lia. rewrite at1_put1_other by lia.
    split; [exact Ha|intros _; exact Hx].
Qed.

Lemma heap_at_put_self (a : list A) (n i : nat) (x : A) :
  1 <= i <= List.length a ->
  (2 * i <= n -> le_key (at1 a (2 * i)) x) ->
  (2 * i + 1 <= n -> le_key (at1 a (2 * i + 1)) x) ->
  heap_at (put1 a i x) n i.
Proof.
  intros Hi Ha Hb. unfold heap_at.
  rewrite at1_put1_same by lia. rewrite !at1_put1_other by lia.
  split; assumption.
Qed.

(** Putting [x] into the hole at [i] ends the sifting. *)
Lemma put_heap (a : list A) (n i l : nat) (x : A) :
  n <= List.length a -> 1 <= l -> l <= i -> i <= n ->
  (forall k, l <= k <= n -> (k = i /\ i / 2 < l) \/ heap_at a n k) ->
  (l <= i / 2 -> le_key x (at1 a (i / 2))) ->
  (2 * i <= n -> le_key (at1 a (2 * i)) x) ->
  (2 * i + 1 <= n -> le_key (at1 a (2 * i + 1)) x) ->
  forall k, l <= k <= n -> heap_at (put1 a i x) n k.
Proof.
  intros Hlen Hl Hli Hin HA HC H1 H2 k Hk.
  destruct (Nat.eq_dec k i) as [->|Hne].
  - apply heap_at_put_self; [lia|assumption|assumption].
  - destruct (HA k Hk) as [[E _]|Hh]; [contradiction|].
    destruct (Nat.eq_dec i (2 * k)) as [E|E1].
    + assert (Hd : i / 2 = k)
        by (rewrite E, Nat.mul_comm, Nat.div_mul; lia).
      apply heap_at_put_child; try lia; [exact Hh|].
      rewrite <- Hd. apply HC. lia.
    + destruct (Nat.eq_dec i (2 * k + 1)) as [E|E2].
      * assert (Hd : i / 2 = k).
        { rewrite E. rewrite Nat.mul_comm, Nat.div_add_l by lia.
          simpl. lia. }
        apply heap_at_put_child; try lia; [exact Hh|].
        rewrite <- Hd. apply HC. lia.
      * apply heap_at_put_other; try lia. exact Hh.
Qed.

Lemma sift_spec :
  forall fuel a n i tmp l,
    n <= List.length a -> 1 <= l -> l <= i -> i <= n -> n < fuel + i ->
    (forall k, l <= k <= n -> (k = i /\ i / 2 < l) \/ heap_at a n k) ->
    (l <= i / 2 -> le_key tmp (at1 a (i / 2))) ->
    let r := sift fuel a n i tmp in
    List.length r = List.length a
    /\ (forall k, l <= k <= n -> heap_at r n k)
    /\ skipn n r = skipn n a
    /\ Permutation (put1 a i tmp) r.
Proof.
  induction fuel as [|fuel IH]; intros a n i tmp l Hlen Hl Hli Hin Hfuel HA HC;
    [lia|].
  cbn [sift].
  assert (Hput : (2 * i <= n -> le_key (at1 a (2 * i)) tmp) ->
                 (2 * i + 1 <= n -> le_key (at1 a (2 * i + 1)) tmp) ->
                 List.length (put1 a i tmp) = List.length a
                 /\ (forall k, l <= k <= n -> heap_at (put1 a i tmp) n k)
                 /\ skipn n (put1 a i tmp) = skipn n a
                 /\ Permutation (put1 a i tmp) (put1 a i tmp)).
  { intros H1 H2. split; [apply put1_length|]. split.
    - apply (put_heap a n i l tmp); assumption.
    - split; [apply skipn_set_nth; lia|apply Permutation_refl]. }
  destruct (2 * i <=? n) eqn:E; [apply Nat.leb_le in E|apply Nat.leb_gt in E].
  2:{ apply Hput; intros; lia. }
  set (jj := if (2 * i <? n) && less (at1 a (2 * i)) (at1 a (2 * i + 1))
             then 2 * i + 1 else 2 * i).
  assert (Hjj : (jj = 2 * i \/ jj = 2 * i + 1) /\ jj <= n
                /\ (2 * i <= n -> le_key (at1 a (2 * i)) (at1 a jj))
                /\ (2 * i + 1 <= n ->
                    le_key (at1 a (2 * i + 1)) (at1 a jj))).
  { unfold jj, less, le_key.
    destruct (2 * i <? n) eqn:E1;
      [apply Nat.ltb_lt in E1|apply Nat.ltb_ge in E1]; cbn [andb].
    - destruct (key (at1 a (2 * i)) <? key (at1 a (2 * i + 1)))%Z eqn:E2;
        [apply Z.ltb_lt in E2|apply Z.ltb_ge in E2].
      + repeat split; lia.
      + repeat split; lia.
    - repeat split; lia. }
  destruct Hjj as (Hj & Hjn & Hc1 & Hc2).
  assert (Hjd : jj / 2 = i).
  { destruct Hj as [-> | ->].
    - rewrite Nat.mul_comm, Nat.div_mul; lia.
    - rewrite Nat.mul_comm, Nat.div_add_l by lia. simpl. lia. }
  destruct (less tmp (at1 a jj)) eqn:Et; unfold less in Et;
    [apply Z.ltb_lt in Et|apply Z.ltb_ge in Et].
  2:{ apply Hput; intros H; unfold le_key in *;
        [specialize (Hc1 H)|specialize (Hc2 H)]; lia. }
  specialize (IH (put1 a i (at1 a jj)) n jj tmp l).
  rewrite put1_length in IH.
  assert (Hheap_i : l <= i / 2 -> heap_at a n i).
  { intros Hp. destruct (HA i ltac:(lia)) as [[_ Ht]|Hh]; [lia|exact Hh]. }
  destruct IH as (H1 & H2 & H3 & H4); try lia.
  - intros k Hk. right.
    destruct (Nat.eq_dec k i) as [->|Hne].
    + apply heap_at_put_self; [lia| |]; assumption.
    + destruct (HA k Hk) as [[E1 _]|Hh]; [contradiction|].
      destruct (Nat.eq_dec i (2 * k)) as [E1|E1].
      * assert (Hd : i / 2 = k)
          by (rewrite E1, Nat.mul_comm, Nat.div_mul; lia).
        apply heap_at_put_child; try lia; [exact Hh|].
        destruct (Hheap_i ltac:(lia)) as [Ha Hb].
        destruct Hh as [Hh1 _]. specialize (Hh1 ltac:(lia)).
        rewrite <- E1 in Hh1. unfold le_key in *.
        destruct Hj as [-> | ->];
          [specialize (Ha ltac:(lia))|specialize (Hb ltac:(lia))]; lia.
      * destruct (Nat.eq_dec i (2 * k + 1)) as [E2|E2].
        -- assert (Hd : i / 2 = k).
           { rewrite E2. rewrite Nat.mul_comm, Nat.div_add_l by lia.
             simpl. lia. }
           apply heap_at_put_child; try lia; [exact Hh|].
           destruct (Hheap_i ltac:(lia)) as [Ha Hb].
           destruct Hh as [_ Hh2]. specialize (Hh2 ltac:(lia)).
           rewrite <- E2 in Hh2. unfold le_key in *.
           destruct Hj as [-> | ->];
             [specialize (Ha ltac:(lia))|specialize (Hb ltac:(lia))]; lia.
        -- apply heap_at_put_other; try lia. exact Hh.
  - intros _. rewrite Hjd. rewrite at1_put1_same by lia.
    unfold le_key. lia.
  - split; [exact H1|]. split; [exact H2|]. split.
    + rewrite H3. apply skipn_set_nth. lia.
    + eapply perm_trans; [|exact H4].
      unfold put1.
      eapply perm_trans;
        [|apply (set_nth_exchange (i - 1) (jj - 1) tmp (at1 a jj) a); lia].
      unfold at1. rewrite <- (nth_set_nth_other (i - 1) (jj - 1) tmp a)
        by lia.
      rewrite set_nth_same_value. apply Permutation_refl.
Qed.

Lemma heapify_spec :
  forall l a n,
    n <= List.length a -> l <= n ->
    (forall k, l < k <= n -> heap_at a n k) ->
    let r := heapify a n l in
    List.length r = List.length a
    /\ (forall k, 1 <= k <= n -> heap_at r n k)
    /\ Permutation a r.
Proof.
  induction l as [|l IH]; intros a n Hlen Hl Hheap; cbn [heapify].
  - split; [reflexivity|]. split; [|apply Permutation_refl].
    intros k Hk. apply Hheap. lia.
  - assert (Hhalf : S l / 2 < S l) by (apply Nat.div_lt; lia).
    destruct (sift_spec n a n (S l) (at1 a (S l)) (S l))
      as (H1 & H2 & _ & H4); try lia.
    { intros k Hk. destruct (Nat.eq_dec k (S l)) as [->|Hne].
      - left. split; [reflexivity|exact Hhalf].
      - right. apply Hheap. lia. }
    specialize (IH (sift n a n (S l) (at1 a (S l))) n).
    rewrite H1 in IH. destruct IH as (H5 & H6 & H7); try lia.
    { intros k Hk. apply H2. lia. }
    split; [exact H5|]. split; [exact H6|].
    eapply perm_trans; [|exact H7]. eapply perm_trans; [|exact H4].
    unfold put1, at1. rewrite set_nth_same_value. apply Permutation_refl.
Qed.

Lemma root_max (a : list A) (n : nat) :
  (forall k, 1 <= k <= n -> heap_at a n k) ->
  forall k, 1 <= k <= n -> le_key (at1 a k) (at1 a 1).
Proof.
  intros Hheap k. induction k as [k IH] using lt_wf_ind. intros Hk.
  destruct (Nat.eq_dec k 1) as [->|Hne]; [unfold le_key; lia|].
  assert (Hp : 1 <= k / 2 <= n).
  { split; [apply Nat.div_le_lower_bound; lia|].
    pose proof (Nat.Div0.div_le_upper_bound k 2 k). lia. }
  assert (Hlt : k / 2 < k) by (apply Nat.div_lt; lia).
  specialize (IH (k / 2) Hlt Hp).
  destruct (Hheap (k / 2) Hp) as [Ha Hb].
  pose proof (Nat.div_mod_eq k 2) as Hdm.
  assert (Hm : k mod 2 < 2) by (apply Nat.mod_upper_bound; lia).
  unfold le_key in *.
  destruct (Nat.eq_dec (k mod 2) 0) as [E|E].
  - replace (2 * (k / 2)) with k in Ha by lia. specialize (Ha ltac:(lia)).
    lia.
  - replace (2 * (k / 2) + 1) with k in Hb by lia.
    specialize (Hb ltac:(lia)). lia.
Qed.

Lemma heap_at_shrink (a : list A) (n' k : nat) (x : A) :
  1 <= k -> heap_at a (S n') k -> heap_at (put1 a (S n') x) n' k.
Proof.
  intros Hk [Ha Hb]. unfold heap_at. split; intros H.
  - rewrite !at1_put1_other by lia. apply Ha. lia.
  - rewrite !at1_put1_other by lia. apply Hb. lia.
Qed.

Lemma at1_in_firstn (a : list A) (n k : nat) :
  1 <= k <= n -> n <= List.length a -> In (at1 a k) (firstn n a).
Proof.
  intros Hk Hn. unfold at1.
  replace (nth (k - 1) a d) with (nth (k - 1) (firstn n a) d).
  - apply nth_In. rewrite length_firstn. lia.
  - rewrite nth_firstn.
    replace (k - 1 <? n) with true by (symmetry; apply Nat.ltb_lt; lia).
    reflexivity.
Qed.

Lemma in_firstn_at1 (a : list A) (n : nat) (x : A) :
  In x (firstn n a) -> exists k, 1 <= k <= n /\ k <= List.length a
                                 /\ x = at1 a k.
Proof.
  intros Hin. destruct (In_nth _ _ d Hin) as (m & Hm & Hx).
  rewrite length_firstn in Hm. exists (S m). split; [lia|]. split; [lia|].
  rewrite nth_firstn in Hx.
  replace (m <? n) with true in Hx by (symmetry; apply Nat.ltb_lt; lia).
  unfold at1. replace (S m - 1) with m by lia. symmetry. exact Hx.
Qed.

Lemma skipn_put1_last (a : list A) (n' : nat) (x : A) :
  S n' <= List.length a ->
  skipn n' (put1 a (S n') x) = x :: skipn (S n') a.
Proof.
  unfold put1, set_nth. replace (S n' - 1) with n' by lia.
  revert n'; induction a as [|y a IH]; intros [|n'] H; simpl in H; try lia.
  - reflexivity.
  - cbn [firstn skipn app]. apply IH. lia.
Qed.

Lemma extract_spec :
  forall n a,
    n <= List.length a ->
    (forall k, 1 <= k <= n -> heap_at a n k) ->
    StronglySorted le_key (skipn n a) ->
    (forall x y, In x (firstn n a) -> In y (skipn n a) -> le_key x y) ->
    let r := extract a n in
    Permutation a r /\ StronglySorted le_key r.
Proof.
  induction n as [|n' IH]; intros a Hlen Hheap Hsorted Hcross;
    cbn [extract].
  - split; [apply Permutation_refl|exact Hsorted].
  - destruct (1 <? S n') eqn:E;
      [apply Nat.ltb_lt in E|apply Nat.ltb_ge in E].
    2:{ split; [apply Permutation_refl|].
        rewrite <- (firstn_skipn (S n') a).
        assert (Hn : n' = 0) by lia. subst n'.
        destruct a as [|x a]; [simpl in Hlen; lia|]. cbn [firstn skipn app].
        constructor; [exact Hsorted|].
        apply Forall_forall. intros y Hy.
        apply Hcross; [left; reflexivity|exact Hy]. }
    set (tmp := at1 a (S n')).
    set (a1 := put1 a (S n') (at1 a 1)).
    assert (Hlen1 : List.length a1 = List.length a) by apply put1_length.
    destruct (sift_spec (S n') a1 n' 1 tmp 1)
      as (H1 & H2 & H3 & H4); try lia.
    { intros k Hk. destruct (Nat.eq_dec k 1) as [->|Hne].
      - left. split; reflexivity || (simpl; lia).
      - right. apply heap_at_shrink; [lia|]. apply Hheap. lia. }
    { simpl. lia. }
    assert (Hsuffix : skipn n' (sift (S n') a1 n' 1 tmp)
                      = at1 a 1 :: skipn (S n') a).
    { rewrite H3. apply skipn_put1_last. lia. }
    assert (Hwhole : Permutation a (put1 a1 1 tmp)).
    { unfold a1, tmp, put1, at1. replace (1 - 1) with 0 by lia.
      apply Permutation_sym.
      apply (Permutation_cons_inv (a := nth 0 a d)).
      apply (Permutation_cons_inv (a := nth (S n' - 1) a d)).
      eapply perm_trans; [apply set_nth_twice_perm; lia|].
      apply perm_swap. }
    assert (Hprefix : forall x,
               In x (firstn n' (sift (S n') a1 n' 1 tmp)) ->
               exists k, 1 <= k <= S n' /\ x = at1 a k).
    { intros x Hx.
      assert (Hp : Permutation (firstn n' (put1 a1 1 tmp))
                               (firstn n' (sift (S n') a1 n' 1 tmp))).
      { apply (Permutation_app_inv_r (skipn n' a1)).
        rewrite <- H3 at 2. rewrite firstn_skipn.
        replace (skipn n' a1) with (skipn n' (put1 a1 1 tmp))
          by (apply skipn_set_nth; lia).
        rewrite firstn_skipn. exact H4. }
      apply (Permutation_in _ (Permutation_sym Hp)) in Hx.
      apply in_firstn_at1 in Hx. destruct Hx as (k & Hk & Hkl & ->).
      destruct (Nat.eq_dec k 1) as [->|Hne].
      - exists (S n'). split; [lia|].
        rewrite at1_put1_same by (rewrite Hlen1; lia). reflexivity.
      - exists k. split; [lia|]. rewrite at1_put1_other by lia.
        unfold a1. rewrite at1_put1_other by lia. reflexivity. }
    specialize (IH (sift (S n') a1 n' 1 tmp)).
    destruct IH as (H5 & H6); try lia.
    + intros k Hk. apply H2. lia.
    + rewrite Hsuffix. constructor; [exact Hsorted|].
      apply Forall_forall. intros y Hy. apply Hcross; [|exact Hy].
      apply at1_in_firstn; lia.
    + intros x y Hx Hy. rewrite Hsuffix in Hy.
      destruct (Hprefix x Hx) as (k & Hk & ->).
      destruct Hy as [<-|Hy].
      * apply (root_max a (S n') Hheap). lia.
      * apply Hcross; [apply at1_in_firstn; lia|exact Hy].
    + split; [|exact H6].
      eapply perm_trans; [exact Hwhole|].
      eapply perm_trans; [exact H4|exact H5].
Qed.

End HeapFacts.

Lemma aheapsort_spec (l : list A) :
  Permutation l (aheapsort l) /\ StronglySorted le_key (aheapsort l).
Proof.
  destruct l as [|d l']; [split; constructor|].
  set (l := d :: l'). unfold NumpySort.aheapsort. fold l.
  set (n := List.length l).
  destruct (heapify_spec d (n / 2) l n) as (H1 & H2 & H3).
  - unfold n; lia.
  - pose proof (Nat.Div0.div_le_upper_bound n 2 n). lia.
  - intros k Hk. unfold heap_at. split; intros H; exfalso.
    + pose proof (Nat.div_mod_eq n 2).
      pose proof (Nat.mod_upper_bound n 2). lia.
    + pose proof (Nat.div_mod_eq n 2).
      pose proof (Nat.mod_upper_bound n 2). lia.
  - destruct (extract_spec d n (NumpySort.heapify A key d l n (n / 2)))
      as (H4 & H5).
    + rewrite H1. unfold n. lia.
    + exact H2.
    + rewrite skipn_all2 by (rewrite H1; unfold n; lia). constructor.
    + intros x y _ Hy.
      rewrite skipn_all2 in Hy by (rewrite H1; unfold n; lia). destruct Hy.
    + split; [|exact H5]. eapply perm_trans; [exact H3|exact H4].
Qed.

(** ** Partition *)

Lemma order3_spec (x0 xm xr : A) :
  let '(a, p, b) := order3 x0 xm xr in
  Permutation [x0; xm; xr] [a; p; b] /\ le_key a p /\ le_key p b.
Proof.
  unfold order3, less, le_key.
  destruct (key xm <? key x0)%Z eqn:E1;
  [apply Z.ltb_lt in E1|apply Z.ltb_ge in E1].
  - destruct (key xr <? key x0)%Z eqn:E2;
    [apply Z.ltb_lt in E2|apply Z.ltb_ge in E2].
    + destruct (key xr <? key xm)%Z eqn:E3;
      [apply Z.ltb_lt in E3|apply Z.ltb_ge in E3].
      * split; [|lia].
        apply perm_trans with [xm; x0; xr]; [apply perm_swap|].
        apply perm_trans with [xm; xr; x0];
          [apply perm_skip, perm_swap|apply perm_swap].
      * split; [|lia].
        apply perm_trans with [xm; x0; xr]; [apply perm_swap|].
        apply perm_skip, perm_swap.
    + destruct (key x0 <? key xm)%Z eqn:E3;
      [apply Z.ltb_lt in E3; lia|apply Z.ltb_ge in E3].
      split; [apply perm_swap|lia].
  - destruct (key xr <? key xm)%Z eqn:E2;
    [apply Z.ltb_lt in E2|apply Z.ltb_ge in E2].
    + destruct (key xr <? key x0)%Z eqn:E3;
      [apply Z.ltb_lt in E3|apply Z.ltb_ge in E3].
      * split; [|lia].
        apply perm_trans with [x0; xr; xm]; [apply perm_skip, perm_swap|].
        apply perm_swap.
      * split; [apply perm_skip, perm_swap|lia].
    + destruct (key xm <? key x0)%Z eqn:E3;
      [apply Z.ltb_lt in E3; lia|apply Z.ltb_ge in E3].
      split; [apply Permutation_refl|lia].
Qed.

Lemma span_lt_spec (vp : A) (mid : list A) :
  let (lo, rest) := span_lt vp mid in
  mid = lo ++ rest
  /\ Forall (fun x => le_key x vp) lo
  /\ match rest with [] => True | x :: _ => le_key vp x end.
Proof.
  induction mid as [|x mid IH]; simpl; [repeat split; constructor|].
  unfold less at 1. destruct (key x <? key vp)%Z eqn:E.
  - destruct (span_lt vp mid) as [lo rest].
    destruct IH as (-> & Hlo & Hrest). split; [reflexivity|].
    split; [|exact Hrest]. constructor; [|exact Hlo].
    apply Z.ltb_lt in E. unfold le_key. lia.
  - split; [reflexivity|]. split; [constructor|].
    apply Z.ltb_ge in E. exact E.
Qed.

Lemma span_gt_spec (vp : A) (rmid : list A) :
  let (hi, rest) := span_gt vp rmid in
  rmid = hi ++ rest
  /\ Forall (fun x => le_key vp x) hi
  /\ match rest with [] => True | x :: _ => le_key x vp end.
Proof.
  induction rmid as [|x rmid IH]; simpl; [repeat split; constructor|].
  unfold less at 1. destruct (key vp <? key x)%Z eqn:E.
  - destruct (span_gt vp rmid) as [hi rest].
    destruct IH as (-> & Hhi & Hrest). split; [reflexivity|].
    split; [|exact Hrest]. constructor; [|exact Hhi].
    apply Z.ltb_lt in E. unfold le_key. lia.
  - split; [reflexivity|]. split; [constructor|].
    apply Z.ltb_ge in E. exact E.
Qed.

Lemma perm_exchange (L lo m hi R : list A) (x y : A) :
  Permutation (L ++ (lo ++ x :: (m ++ [y] ++ hi)) ++ R)
              (((L ++ lo) ++ [y]) ++ m ++ x :: hi ++ R).
Proof.
  rewrite <- !app_assoc. apply Permutation_app_head, Permutation_app_head.
  cbn [app]. rewrite <- !app_assoc. cbn [app].
  apply perm_trans with (x :: y :: m ++ hi ++ R).
  - apply perm_skip, Permutation_sym, Permutation_middle.
  - apply perm_trans with (y :: x :: m ++ hi ++ R); [apply perm_swap|].
    apply perm_skip. apply Permutation_middle.
Qed.

Lemma hoare_spec (vp : A) :
  forall fuel L mid R,
    List.length mid <= fuel ->
    Forall (fun x => le_key x vp) L ->
    Forall (fun x => le_key vp x) R ->
    let (L', T) := hoare fuel vp L mid R in
    Permutation (L ++ mid ++ R) (L' ++ T)
    /\ Forall (fun x => le_key x vp) L'
    /\ Forall (fun x => le_key vp x) T.
Proof.
  induction fuel as [|fuel IH]; intros L mid R Hlen HL HR; cbn [hoare].
  - destruct mid; [|simpl in Hlen; lia]. rewrite app_nil_r. cbn [app].
    repeat split; auto.
  - pose proof (span_lt_spec vp mid) as Hs.
    destruct (span_lt vp mid) as [lo mid1].
    destruct Hs as (-> & Hlo & Hhead).
    destruct mid1 as [|x mid2].
    + rewrite app_nil_r. cbn [app]. split; [|split].
      * rewrite app_assoc. apply Permutation_refl.
      * apply Forall_app; split; assumption.
      * exact HR.
    + pose proof (span_gt_spec vp (rev mid2)) as Hg.
      destruct (span_gt vp (rev mid2)) as [rhi rmid3].
      destruct Hg as (Hrev & Hhi & Hy).
      assert (Hmid2 : mid2 = rev rmid3 ++ rev rhi).
      { rewrite <- rev_app_distr, <- Hrev, rev_involutive. reflexivity. }
      destruct rmid3 as [|y rmid3'].
      * split; [|split].
        -- rewrite <- !app_assoc. reflexivity.
        -- apply Forall_app; split; assumption.
        -- constructor; [exact Hhead|]. apply Forall_app. split; [|exact HR].
           rewrite Hmid2. cbn [rev app]. apply Forall_rev, Hhi.
      * subst mid2. cbn [rev].
        specialize (IH ((L ++ lo) ++ [y]) (rev rmid3')
                       (x :: rev rhi ++ R)).
        destruct (hoare fuel vp ((L ++ lo) ++ [y]) (rev rmid3')
                    (x :: rev rhi ++ R)) as [L' T].
        assert (H1 : List.length (rev rmid3') <= fuel).
        { rewrite length_app in Hlen. cbn in Hlen.
          rewrite !length_app in Hlen. cbn in Hlen. rewrite length_rev in *.
          lia. }
        assert (H2 : Forall (fun x => le_key x vp) ((L ++ lo) ++ [y])).
        { apply Forall_app; split;
            [apply Forall_app; split; assumption|].
          constructor; [exact Hy|constructor]. }
        assert (H3 : Forall (fun x => le_key vp x) (x :: rev rhi ++ R)).
        { constructor; [exact Hhead|]. apply Forall_app. split; [|exact HR].
          apply Forall_rev, Hhi. }
        destruct (IH H1 H2 H3) as (Hp & HL' & HT).
        split; [|split; assumption].
        eapply perm_trans; [|exact Hp].
        rewrite <- (app_assoc (rev rmid3') [y] (rev rhi)).
        apply perm_exchange.
Qed.

Lemma partition_spec (l : list A) :
  3 <= List.length l ->
  exists lo p hi,
    partition l = (lo, Some p, hi)
    /\ Permutation l (lo ++ p :: hi)
    /\ Forall (fun x => le_key x p) lo
    /\ Forall (fun x => le_key p x) hi.
Proof.
  intros Hlen. destruct l as [|x0 rest]; [simpl in Hlen; lia|].
  cbn [partition].
  destruct (rev rest) as [|xr rbody] eqn:Erev.
  { apply (f_equal (@List.length A)) in Erev. rewrite length_rev in Erev.
    simpl in *. lia. }
  destruct rbody as [|y rinit].
  { apply (f_equal (@List.length A)) in Erev. rewrite length_rev in Erev.
    simpl in *. lia. }
  assert (Hrest : rest = rev rinit ++ [y; xr]).
  { rewrite <- (rev_involutive rest), Erev. cbn [rev].
    rewrite <- app_assoc. reflexivity. }
  set (pm := (List.length (x0 :: rest) - 1) / 2).
  set (init := rev rinit) in *.
  set (xm := nth (pm - 1) (init ++ [y]) y).
  set (mid := if pm - 1 <? List.length init then set_nth (pm - 1) y init
              else init).
  assert (Hmid : Permutation (init ++ [y]) (xm :: mid)).
  { unfold xm, mid. destruct (pm - 1 <? List.length init) eqn:E.
    - apply Nat.ltb_lt in E. rewrite app_nth1 by exact E.
      eapply perm_trans; [apply Permutation_sym, Permutation_cons_append|].
      apply Permutation_sym, (set_nth_perm y), E.
    - apply Nat.ltb_ge in E. rewrite app_nth2 by exact E.
      replace (nth (pm - 1 - List.length init) [y] y) with y
        by (destruct (pm - 1 - List.length init) as [|[|k]]; reflexivity).
      apply Permutation_sym, Permutation_cons_append. }
  pose proof (order3_spec x0 xm xr) as H3.
  destruct (order3 x0 xm xr) as [[x0' p] xr'].
  destruct H3 as (Hp3 & Hle1 & Hle2).
  pose proof (hoare_spec p (List.length mid) [] mid [] (le_n _)
                (Forall_nil _) (Forall_nil _)) as Hh.
  destruct (hoare (List.length mid) p [] mid []) as [L T].
  destruct Hh as (Hperm & HL & HT). cbn [app] in Hperm.
  rewrite app_nil_r in Hperm.
  assert (Hall : Permutation (x0 :: rest) (x0' :: p :: xr' :: L ++ T)).
  { rewrite Hrest.
    apply perm_trans with (x0 :: xm :: xr :: mid).
    - apply perm_skip.
      change (init ++ [y; xr]) with (init ++ [y] ++ [xr]).
      rewrite app_assoc.
      eapply perm_trans; [apply Permutation_app_tail, Hmid|].
      cbn [app]. apply perm_skip.
      apply Permutation_sym, Permutation_cons_append.
    - apply perm_trans with (x0' :: p :: xr' :: mid).
      + apply (Permutation_app_tail mid Hp3).
      + do 3 apply perm_skip. exact Hperm. }
  destruct T as [|x T'].
  - exists (x0' :: L), p, [xr']. split; [reflexivity|]. split; [|split].
    + eapply perm_trans; [exact Hall|]. rewrite app_nil_r. cbn [app].
      apply perm_skip.
      apply perm_trans with (p :: L ++ [xr']).
      * apply perm_skip. apply Permutation_cons_append.
      * apply Permutation_middle.
    + constructor; assumption.
    + constructor; [exact Hle2|constructor].
  - exists (x0' :: L), p, (T' ++ [x; xr']). split; [reflexivity|].
    split; [|split].
    + eapply perm_trans; [exact Hall|]. cbn [app]. apply perm_skip.
      apply perm_trans with (p :: L ++ T' ++ [x; xr']).
      * apply perm_skip.
        apply perm_trans with (xr' :: L ++ T' ++ [x]).
        -- apply perm_skip, Permutation_app_head.
           apply Permutation_cons_append.
        -- eapply perm_trans; [apply Permutation_cons_append|].
           rewrite <- !app_assoc. reflexivity.
      * apply Permutation_middle.
    + constructor; assumption.
    + inversion HT; subst. apply Forall_app. split; [assumption|].
      constructor; [assumption|]. constructor; [exact Hle2|constructor].
Qed.


(** ** The whole sort *)

Lemma sort_range_spec :
  forall fuel popped cdepth l,
    List.length l < fuel ->
    Permutation l (sort_range fuel popped cdepth l)
    /\ StronglySorted le_key (sort_range fuel popped cdepth l).
Proof.
  induction fuel as [|fuel IH]; intros popped cd l Hfuel; [lia|].
  cbn [NumpySort.sort_range].
  destruct (popped && (cd <? 0)%Z); [apply aheapsort_spec|].
  destruct (17 <? List.length l) eqn:E;
    [apply Nat.ltb_lt in E
    |split; [apply insertion_perm|apply insertion_sorted]].
  destruct (partition_spec l ltac:(lia)) as (lo & p & hi & -> & Hp & Hlo & Hhi).
  assert (Hlen : List.length l = List.length lo + S (List.length hi)).
  { rewrite (Permutation_length Hp), length_app. reflexivity. }
  assert (Hcomb : forall slo shi,
             Permutation lo slo -> StronglySorted le_key slo ->
             Permutation hi shi -> StronglySorted le_key shi ->
             Permutation l (slo ++ p :: shi)
             /\ StronglySorted le_key (slo ++ p :: shi)).
  { intros slo shi P1 S1 P2 S2. split.
    - eapply perm_trans; [exact Hp|].
      apply Permutation_app; [exact P1|apply perm_skip, P2].
    - assert (Hshi : Forall (fun x => le_key p x) shi)
        by (eapply Permutation_Forall; [exact P2|exact Hhi]).
      assert (Hslo : Forall (fun x => le_key x p) slo)
        by (eapply Permutation_Forall; [exact P1|exact Hlo]).
      apply sorted_app; [exact S1|constructor; assumption|].
      intros x y Hx Hy. rewrite Forall_forall in Hslo, Hshi.
      specialize (Hslo x Hx). destruct Hy as [<-|Hy]; [exact Hslo|].
      specialize (Hshi y Hy). unfold le_key in *. lia. }
  destruct (List.length lo <? List.length hi).
  - destruct (IH false (cd - 1)%Z lo ltac:(lia)) as [P1 S1].
    destruct (IH true (cd - 1)%Z hi ltac:(lia)) as [P2 S2].
    apply Hcomb; assumption.
  - destruct (IH true (cd - 1)%Z lo ltac:(lia)) as [P1 S1].
    destruct (IH false (cd - 1)%Z hi ltac:(lia)) as [P2 S2].
    apply Hcomb; assumption.
Qed.

Lemma aquicksort_perm (l : list A) : Permutation l (aquicksort l).
Proof. apply sort_range_spec. lia. Qed.

Lemma aquicksort_sorted (l : list A) : StronglySorted le_key (aquicksort l).
Proof. apply sort_range_spec. lia. Qed.

(** A range of at most 17 entries is sorted by insertion alone. *)
Lemma aquicksort_small (l : list A) :
  List.length l <= 17 -> aquicksort l = insertion l.
Proof.
  intros H. unfold NumpySort.aquicksort. cbn [NumpySort.sort_range].
  replace (2 * Z.log2 (Z.of_nat (List.length l)) <? 0)%Z with false.
  - cbn [andb].
    replace (17 <? List.length l) with false
      by (symmetry; apply Nat.ltb_ge; exact H).
    reflexivity.
  - symmetry. apply Z.ltb_ge. pose proof (Z.log2_nonneg (Z.of_nat (List.length l))).
    lia.
Qed.


(** ** Sorted ranges *)

Lemma sorted_app_r (R : A -> A -> Prop) (l1 l2 : list A) :
  StronglySorted R (l1 ++ l2) -> StronglySorted R l2.
Proof.
  induction l1 as [|a l1 IH]; simpl; intros H; [exact H|].
  inversion H; subst. apply IH. assumption.
Qed.

(** Insertion leaves a sorted range as it is. *)
Lemma insertion_sorted_id (l : list A) :
  StronglySorted le_key l -> insertion l = l.
Proof.
  intros Hs. unfold insertion.
  assert (H : forall acc,
             StronglySorted le_key (rev acc ++ l) ->
             fold_left (fun rp x => insert_back x rp) l acc = rev l ++ acc).
  { clear Hs. induction l as [|x l IH]; intros acc Hs; [reflexivity|].
    cbn [fold_left rev].
    assert (Hx : insert_back x acc = x :: acc).
    { destruct acc as [|y acc]; [reflexivity|]. cbn [NumpySort.insert_back].
      replace (less x y) with false; [reflexivity|].
      symmetry. unfold less. apply Z.ltb_ge.
      cbn [rev] in Hs. rewrite <- app_assoc in Hs.
      apply sorted_app_r in Hs. cbn [app] in Hs.
      inversion Hs as [|? ? _ Hall]; subst.
      inversion Hall as [|? ? Hyx _]; subst. exact Hyx. }
    rewrite Hx, IH.
    - rewrite <- app_assoc. reflexivity.
    - cbn [rev]. rewrite <- app_assoc. exact Hs. }
  rewrite (H []) by exact Hs. rewrite app_nil_r. apply rev_involutive.
Qed.

(** Entries with pairwise distinct keys have one ascending order. *)
Lemma sorted_perm_unique (l l' : list A) :
  StronglySorted le_key l ->
  StronglySorted le_key l' ->
  Permutation l l' ->
  NoDup (map key l) ->
  l = l'.
Proof.
  revert l'; induction l as [|a l IH]; intros l' Hs Hs' Hp Hnd.
  - apply Permutation_nil in Hp. congruence.
  - destruct l' as [|b l'].
    { apply Permutation_sym, Permutation_nil in Hp. discriminate. }
    inversion Hs as [|? ? Hsl Hal]; subst.
    inversion Hs' as [|? ? Hsl' Hbl]; subst.
    inversion Hnd as [|? ? Hnotin Hnd']; subst.
    assert (Hab : a = b).
    { assert (Hb : In b (a :: l))
        by (eapply Permutation_in; [apply Permutation_sym, Hp|left; reflexivity]).
      destruct Hb as [Hb|Hb]; [exact Hb|].
      assert (Ha : In a (b :: l'))
        by (eapply Permutation_in; [exact Hp|left; reflexivity]).
      destruct Ha as [Ha|Ha]; [congruence|].
      rewrite Forall_forall in Hal, Hbl.
      specialize (Hal _ Hb). specialize (Hbl _ Ha).
      unfold NumpySort.le_key in *.
      exfalso. apply Hnotin.
      replace (key a) with (key b) by lia.
      apply in_map, Hb. }
    subst b. f_equal. apply IH; try assumption.
    eapply Permutation_cons_inv, Hp.
Qed.

(** Among entries with pairwise distinct keys, every arrangement keeps
    the order of the entries of one key: there is one at most. *)
Lemma distinct_keys_stable (k : Z) (l l' : list A) :
  Permutation l l' ->
  NoDup (map key l) ->
  filter (has_key k) l = filter (has_key k) l'.
Proof.
  induction 1 as [|x l l' Hp IH|x y l|l l' l'' Hp1 IH1 Hp2 IH2]; intros Hnd.
  - reflexivity.
  - cbn [filter]. inversion Hnd; subst. rewrite IH by assumption.
    reflexivity.
  - cbn [filter]. destruct (has_key k y) eqn:Ey, (has_key k x) eqn:Ex;
      try reflexivity.
    exfalso. unfold NumpySort.has_key in Ex, Ey.
    apply Z.eqb_eq in Ex, Ey. cbn [map] in Hnd.
    inversion Hnd as [|? ? Hnotin _]; subst. apply Hnotin. left. congruence.
  - rewrite IH1 by exact Hnd. apply IH2.
    eapply Permutation_NoDup; [apply Permutation_map, Hp1|exact Hnd].
Qed.

End IntrosortFacts.

End NumpySortFacts.

(* ================================================================== *)
(** * The series *)
(* ================================================================== *)

Lemma traverse_length {A B} (f : A -> option B) (l : list A) (ys : list B) :
  traverse f l = Some ys -> List.length ys = List.length l.
Proof.
  revert ys. induction l as [|x l IH]; simpl; intros ys H.
  - injection H as <-. reflexivity.
  - destruct (f x); [|discriminate]. destruct (traverse f l); [|discriminate].
    injection H as <-. simpl. f_equal. apply IH. reflexivity.
Qed.

Lemma traverse_map {A B} (f : A -> option B) (g : A -> B) (l : list A) :
  (forall x, In x l -> f x = Some (g x)) -> traverse f l = Some (map g l).
Proof.
  induction l as [|x l IH]; simpl; intros H; [reflexivity|].
  rewrite (H x) by (left; reflexivity). rewrite IH; [reflexivity|].
  intros y Hy. apply H. right. exact Hy.
Qed.

Lemma traverse_Forall {A B} (f : A -> option B) (P : B -> Prop)
    (l : list A) (ys : list B) :
  (forall x y, f x = Some y -> P y) ->
  traverse f l = Some ys -> Forall P ys.
Proof.
  intros Hf. revert ys. induction l as [|x l IH]; simpl; intros ys H.
  - injection H as <-. constructor.
  - destruct (f x) as [y|] eqn:E; [|discriminate].
    destruct (traverse f l); [|discriminate].
    injection H as <-. constructor; [exact (Hf x y E)|].
    apply IH. reflexivity.
Qed.

Lemma combine_fst {A B} (l : list A) (l' : list B) :
  List.length l = List.length l' -> map fst (combine l l') = l.
Proof.
  revert l'. induction l as [|x l IH]; intros [|y l'] H; simpl in *;
    try reflexivity; try discriminate.
  rewrite IH by lia. reflexivity.
Qed.

Lemma combine_snd {A B} (l : list A) (l' : list B) :
  List.length l = List.length l' -> map snd (combine l l') = l'.
Proof.
  revert l'. induction l as [|x l IH]; intros [|y l'] H; simpl in *;
    try reflexivity; try discriminate.
  rewrite IH by lia. reflexivity.
Qed.

Lemma combine_fst_snd {A B} (l : list (A * B)) :
  combine (map fst l) (map snd l) = l.
Proof.
  induction l as [|[a b] l IH]; simpl; [reflexivity|]. rewrite IH.
  reflexivity.
Qed.

Lemma nth_error_map_seq {A} (f : nat -> A) (n i : nat) :
  i < n -> nth_error (map f (seq 0 n)) i = Some (f i).
Proof.
  intros H. rewrite nth_error_map.
  rewrite (nth_error_nth' (seq 0 n) 0) by (rewrite length_seq; exact H).
  rewrite seq_nth by exact H. reflexivity.
Qed.

Lemma zsum_perm (l l' : list Z) : Permutation l l' -> zsum l = zsum l'.
Proof. induction 1; simpl; lia. Qed.

(** ** View counts as float64 *)

Lemma float64_of_int_number (z : Z) (f : float64) :
  float64_of_int z = Some f -> isna f = false.
Proof.
  unfold float64_of_int. pose proof (f64_of_Z_sign z) as H.
  destruct (f64_of_Z z); try discriminate; intros E; injection E as <-;
    [reflexivity|contradiction H|reflexivity].
Qed.

Lemma float64_of_int_exact (z : Z) :
  in_range z -> float64_of_int z = Some (f64_of_Z z).
Proof.
  intros H. unfold float64_of_int.
  destruct (f64_of_Z_cases z H) as [[_ E]|(s & X & _ & _ & E)]; rewrite E;
    reflexivity.
Qed.

Lemma roll_mean_from_length (win : nat) (minp : Z) (values : list float64)
    (count i : nat) (st : mean_state) :
  List.length (roll_mean_from win minp values i count st) = count.
Proof.
  revert i st. induction count as [|count IH]; intros i st;
    [reflexivity|].
  cbn [roll_mean_from List.length]. rewrite IH. reflexivity.
Qed.

Lemma rolling_mean_length (win : nat) (view_counts : list Z)
    (moving_avg : list float64) :
  rolling_mean win view_counts = Some moving_avg ->
  List.length moving_avg = List.length view_counts.
Proof.
  unfold rolling_mean.
  destruct (traverse float64_of_int view_counts) as [values|] eqn:E;
    [|discriminate].
  intros H. injection H as <-. unfold roll_mean.
  rewrite roll_mean_from_length. apply (traverse_length _ _ _ E).
Qed.

(** With the window 1 the moving averages are the view counts. *)
Lemma rolling_mean_window_1 (view_counts : list Z) :
  rolling_mean 1 view_counts = traverse float64_of_int view_counts.
Proof.
  unfold rolling_mean.
  destruct (traverse float64_of_int view_counts) as [values|] eqn:E;
    [|reflexivity].
  rewrite roll_mean_window_1; [reflexivity|].
  apply (traverse_Forall float64_of_int _ view_counts values); [|exact E].
  intros z f Hf Hnan. apply float64_of_int_number in Hf.
  rewrite Hnan in Hf. discriminate Hf.
Qed.

(** On counts that are not negative and whose sum is below [2^53], the
    moving averages are what [mean_at] says. *)
Lemma rolling_mean_spec (w : nat) (view_counts : list Z) :
  1 <= w ->
  Forall (fun z => 0 <= z)%Z view_counts ->
  (zsum view_counts < 2 ^ 53)%Z ->
  rolling_mean w view_counts
  = Some (map (mean_at w view_counts) (seq 0 (List.length view_counts))).
Proof.
  intros Hw Hnn Hsum. unfold rolling_mean.
  rewrite (traverse_map float64_of_int f64_of_Z).
  - rewrite roll_mean_spec by assumption. reflexivity.
  - intros z Hz. apply float64_of_int_exact.
    destruct (In_nth _ _ 0%Z Hz) as (k & _ & <-).
    apply in_range_count; assumption.
Qed.

Lemma mean_at_number (w : nat) (view_counts : list Z) (i : nat) :
  1 <= w ->
  Forall (fun z => 0 <= z)%Z view_counts ->
  (zsum view_counts < 2 ^ 53)%Z ->
  i < List.length view_counts ->
  isna (mean_at w view_counts i) = (i + 1 <? w).
Proof.
  intros Hw Hnn Hsum Hi. unfold mean_at.
  destruct (i + 1 <? w) eqn:E; [reflexivity|]. apply Nat.ltb_ge in E.
  destruct (forallb _ _) eqn:Ef.
  - pose proof (f64_of_Z_sign (nth i view_counts 0%Z)) as H.
    destruct (f64_of_Z (nth i view_counts 0%Z)); try reflexivity.
    contradiction H.
  - assert (Hpos : (0 < zsum (trailing_window w view_counts i))%Z).
    { destruct (Z.lt_ge_cases 0 (zsum (trailing_window w view_counts i)))
        as [Hp|Hp]; [exact Hp|].
      exfalso.
      rewrite (window_all_zero view_counts Hnn w i) in Ef
        by (assumption || lia).
      discriminate Ef. }
    assert (Hr : in_range (zsum (trailing_window w view_counts i))).
    { rewrite (window_sum view_counts w i E Hi) in *.
      apply (in_range_between view_counts Hnn Hsum). lia. }
    pose proof (f64_div_sign _ (Z.of_nat w) Hpos ltac:(lia) Hr) as H.
    destruct (f64_div _ _); try reflexivity. contradiction H.
Qed.

(** ** The frame *)

Lemma tz_convert_none_naive (r : frame_row) :
  ts_tz (row_upload_date r) = None -> tz_convert_none r = r.
Proof.
  destruct r as [i t v [value tz]]. simpl. intros ->. reflexivity.
Qed.

Lemma tz_convert_none_key (r : frame_row) :
  row_key (tz_convert_none r) = row_key r.
Proof. reflexivity. Qed.

(** Whether the column has a timezone or not, the frame that is sorted
    has the parsed instants without a timezone. *)
Lemma naive_frame_strips (df : list frame_row) :
  naive_frame df = map tz_convert_none df.
Proof.
  unfold naive_frame, column_has_tz.
  destruct (existsb aware df) eqn:E; [reflexivity|].
  induction df as [|r df IH]; [reflexivity|].
  simpl in E. apply orb_false_iff in E. destruct E as [Er Edf].
  simpl. rewrite <- (IH Edf). f_equal. symmetry.
  apply tz_convert_none_naive. unfold aware in Er.
  destruct (ts_tz (row_upload_date r)); [discriminate|reflexivity].
Qed.

Lemma frame_length (video_stats : list video_record)
    (dates : list Timestamp) :
  List.length dates = List.length video_stats ->
  List.length (frame video_stats dates) = List.length video_stats.
Proof.
  intros H. unfold frame. rewrite length_map, length_combine. lia.
Qed.

Lemma frame_view_counts (video_stats : list video_record)
    (dates : list Timestamp) :
  List.length dates = List.length video_stats ->
  map row_view_count (map tz_convert_none (frame video_stats dates))
  = map rec_view_count video_stats.
Proof.
  revert dates. induction video_stats as [|r l IH]; intros [|t dates] H;
    simpl in *; try reflexivity; try discriminate.
  f_equal. apply IH. lia.
Qed.

Lemma frame_keys (video_stats : list video_record)
    (dates : list Timestamp) :
  List.length dates = List.length video_stats ->
  map row_key (map tz_convert_none (frame video_stats dates))
  = map ts_value dates.
Proof.
  revert dates. induction video_stats as [|r l IH]; intros [|t dates] H;
    simpl in *; try reflexivity; try discriminate.
  f_equal. apply IH. lia.
Qed.

Lemma frame_records_of (df : list (frame_row * float64)) :
  frame (records_of df) (map row_upload_date (map fst df)) = map fst df.
Proof.
  induction df as [|[[i t v d] a] df IH]; [reflexivity|].
  unfold frame, records_of in *. simpl. f_equal. exact IH.
Qed.

Lemma traverse_stamp_cells (dates : list Timestamp) :
  traverse stamp_cell (map DateStamp dates) = Some dates.
Proof.
  induction dates as [|t dates IH]; simpl; [reflexivity|].
  rewrite IH. reflexivity.
Qed.

Lemma one_timezone_naive (dates : list Timestamp) :
  Forall (fun t => ts_tz t = None) dates -> one_timezone dates = true.
Proof.
  intros H. destruct dates as [|t rest]; [reflexivity|].
  inversion H as [|? ? Ht Hrest]; subst. cbn [one_timezone].
  apply forallb_forall. intros u Hu.
  rewrite (proj1 (Forall_forall _ _) Hrest u Hu), Ht. reflexivity.
Qed.

Lemma one_timezone_utc (dates : list Timestamp) :
  Forall (fun t => ts_tz t = Some 0%Z) dates -> one_timezone dates = true.
Proof.
  intros H. destruct dates as [|t rest]; [reflexivity|].
  inversion H as [|? ? Ht Hrest]; subst. cbn [one_timezone].
  apply forallb_forall. intros u Hu.
  rewrite (proj1 (Forall_forall _ _) Hrest u Hu), Ht. reflexivity.
Qed.

(** The texts of the API are read as UTC. *)
Lemma api_datetime_utc (s : string) (t : Timestamp) :
  api_datetime s = Some t -> ts_tz t = Some 0%Z.
Proof.
  unfold api_datetime.
  destruct (_ && _); [|discriminate].
  destruct (field _ 0 4); [|discriminate].
  destruct (field _ 5 2); [|discriminate].
  destruct (field _ 8 2); [|discriminate].
  destruct (field _ 11 2); [|discriminate].
  destruct (field _ 14 2); [|discriminate].
  destruct (field _ 17 2); [|discriminate].
  destruct (_ && _); [|discriminate].
  intros H. injection H as <-. reflexivity.
Qed.

Lemma traverse_api_cells (column : list date_cell) :
  Forall (fun c => exists s t, c = DateText s /\ api_datetime s = Some t)
         column ->
  exists dates,
    traverse api_cell column = Some dates
    /\ Forall (fun t => ts_tz t = Some 0%Z) dates.
Proof.
  induction 1 as [|c column (s & t & -> & Ht) _ (dates & Hd & Hutc)].
  - exists []. split; [reflexivity|constructor].
  - exists (t :: dates). cbn [traverse api_cell]. rewrite Ht, Hd.
    split; [reflexivity|]. constructor; [|exact Hutc].
    apply (api_datetime_utc s), Ht.
Qed.

Lemma window_size_pos (count : nat) : 1 <= window_size count.
Proof. unfold window_size. lia. Qed.

(** ** The sort of the frame *)

Lemma sort_values_perm (df : list frame_row) :
  Permutation df (sort_values df).
Proof. apply NumpySortFacts.aquicksort_perm. Qed.

Lemma sort_values_sorted (df : list frame_row) :
  StronglySorted by_date (sort_values df).
Proof. apply (NumpySortFacts.aquicksort_sorted frame_row row_key). Qed.

Lemma sort_values_length (df : list frame_row) :
  List.length (sort_values df) = List.length df.
Proof. symmetry. apply Permutation_length, sort_values_perm. Qed.

(** The rows of one instant keep their order when the frame has at most
    17 rows, and when no two rows share an instant. *)
Lemma sort_values_stable (df : list frame_row) (t : Z) :
  List.length df <= 17 \/ NoDup (map row_key df) ->
  filter (uploaded_at t) (sort_values df) = filter (uploaded_at t) df.
Proof.
  intros [H|H].
  - unfold sort_values.
    rewrite (NumpySortFacts.aquicksort_small frame_row row_key df H).
    apply (NumpySortFacts.insertion_stable frame_row row_key).
  - symmetry.
    apply (NumpySortFacts.distinct_keys_stable frame_row row_key t df);
      [apply sort_values_perm|exact H].
Qed.

(** A sorted frame stays as it is when it has at most 17 rows, and when
    no two rows share an instant. *)
Lemma sort_values_sorted_id (df : list frame_row) :
  StronglySorted by_date df ->
  NoDup (map row_key df) \/ List.length df <= 17 ->
  sort_values df = df.
Proof.
  intros Hs [H|H].
  - symmetry.
    apply (NumpySortFacts.sorted_perm_unique frame_row row_key);
      [exact Hs|apply sort_values_sorted|apply sort_values_perm|exact H].
  - unfold sort_values.
    rewrite (NumpySortFacts.aquicksort_small frame_row row_key df H).
    apply (NumpySortFacts.insertion_sorted_id frame_row row_key). exact Hs.
Qed.

Section SeriesFacts.

Variable parse_other : list date_cell -> date_cell -> option Timestamp.

Lemma to_datetime_length (column : list date_cell)
    (dates : list Timestamp) :
  to_datetime parse_other column = Some dates ->
  List.length dates = List.length column.
Proof.
  unfold to_datetime.
  destruct (traverse stamp_cell column) as [ds|] eqn:E1.
  - destruct (one_timezone ds); [|discriminate]. intros H.
    injection H as <-. apply (traverse_length _ _ _ E1).
  - destruct (traverse api_cell column) as [ds|] eqn:E2.
    + destruct (one_timezone ds); [|discriminate]. intros H.
      injection H as <-. apply (traverse_length _ _ _ E2).
    + destruct (traverse (parse_other column) column) as [ds|] eqn:E3;
        [|discriminate].
      destruct (one_timezone ds); [|discriminate]. intros H.
      injection H as <-. apply (traverse_length _ _ _ E3).
Qed.

(** What a series is made of: the dates that [to_datetime] reads, the
    rows sorted, the moving averages of their view counts. *)
Lemma buildSeries_parts (video_stats : list video_record)
    (df : list (frame_row * float64)) :
  buildSeries parse_other video_stats = Some df ->
  exists dates,
    to_datetime parse_other (map rec_upload_date video_stats) = Some dates
    /\ List.length dates = List.length video_stats
    /\ map fst df
       = sort_values (map tz_convert_none (frame video_stats dates))
    /\ rolling_mean (window_size (List.length video_stats))
         (map row_view_count (map fst df))
       = Some (map snd df)
    /\ List.length df = List.length video_stats.
Proof.
  unfold buildSeries.
  destruct (to_datetime parse_other (map rec_upload_date video_stats))
    as [dates|] eqn:Ed; [|discriminate].
  pose proof (to_datetime_length _ _ Ed) as Hd. rewrite length_map in Hd.
  rewrite naive_frame_strips.
  set (rows := sort_values (map tz_convert_none (frame video_stats dates))).
  assert (Hrows : List.length rows = List.length video_stats).
  { unfold rows. rewrite sort_values_length, length_map.
    apply frame_length, Hd. }
  rewrite Hrows.
  destruct (rolling_mean (window_size (List.length video_stats))
              (map row_view_count rows)) as [avg|] eqn:Er; [|discriminate].
  pose proof (rolling_mean_length _ _ _ Er) as Ha. rewrite length_map in Ha.
  intros H. injection H as <-. exists dates.
  split; [reflexivity|]. split; [exact Hd|].
  rewrite combine_fst by lia. split; [reflexivity|].
  rewrite combine_snd by lia. split; [exact Er|].
  rewrite length_combine. lia.
Qed.

Lemma buildSeries_view_counts (video_stats : list video_record)
    (df : list (frame_row * float64)) :
  buildSeries parse_other video_stats = Some df ->
  Permutation (map rec_view_count video_stats)
              (map row_view_count (map fst df)).
Proof.
  intros H. destruct (buildSeries_parts _ _ H) as (dates & _ & Hd & Hr & _).
  rewrite Hr, <- (frame_view_counts video_stats dates Hd).
  apply Permutation_map, sort_values_perm.
Qed.

(** C2, amended: the window is [w = max(1, count // 10)].  When the view
    counts are not negative and their sum is below [2^53], the moving
    average at every position [i < w - 1] of the series is NaN, and at
    every position [i >= w - 1] it is a float64 number: the view count
    itself when the [w] view counts at the positions [i - w + 1 .. i] are
    one and the same, else the float64 quotient of their sum by [w].
    Three records with 10, 20 and 30 views, uploaded in that order, have
    the window 1 and the moving averages 10.0, 20.0 and 30.0. *)
Theorem buildSeries_moving_average :
  (forall (video_stats : list video_record)
          (df : list (frame_row * float64)),
      buildSeries parse_other video_stats = Some df ->
      Forall (fun r => (0 <= rec_view_count r)%Z) video_stats ->
      (zsum (map rec_view_count video_stats) < 2 ^ 53)%Z ->
      let n := List.length video_stats in
      let w := Nat.max 1 (n / 10) in
      let views := map (fun p => row_view_count (fst p)) df in
      List.length df = n
      /\ forall i,
           i < n ->
           let window := firstn w (skipn (i + 1 - w) views) in
           nth_error (map snd df) i
           = Some (if i <? w - 1 then S754_nan
                   else if forallb (Z.eqb (nth i views 0%Z)) window
                        then f64_of_Z (nth i views 0%Z)
                        else f64_div (f64_of_Z (zsum window))
                                     (f64_of_Z (Z.of_nat w)))
           /\ (w - 1 <= i ->
               List.length window = w
               /\ isna (nth i (map snd df) S754_nan) = false))
  /\ Nat.max 1 (3 / 10) = 1
  /\ option_map (map snd) (buildSeries parse_other three_records)
     = Some [f64_of_Z 10; f64_of_Z 20; f64_of_Z 30].
Proof.
  split; [|split; reflexivity].
  intros stats df Hdf Hnn Hsum n w views.
  destruct (buildSeries_parts _ _ Hdf) as (dates & _ & Hd & Hrows & Hr & Hlen).
  pose proof (buildSeries_view_counts _ _ Hdf) as Hperm.
  assert (Hviews : views = map row_view_count (map fst df))
    by (unfold views; rewrite map_map; reflexivity).
  assert (Hvn : Forall (fun z => 0 <= z)%Z views).
  { rewrite Hviews. eapply Permutation_Forall; [exact Hperm|].
    apply Forall_map. exact Hnn. }
  assert (Hvs : (zsum views < 2 ^ 53)%Z).
  { rewrite Hviews, <- (zsum_perm _ _ Hperm). exact Hsum. }
  assert (Hvl : List.length views = n)
    by (unfold views; rewrite length_map; exact Hlen).
  assert (Hw : 1 <= w) by (unfold w; lia).
  rewrite <- Hviews in Hr. change (window_size (List.length stats)) with w in Hr.
  rewrite (rolling_mean_spec w views Hw Hvn Hvs) in Hr.
  injection Hr as Hr. rewrite Hvl in Hr.
  split; [exact Hlen|]. intros i Hi window. rewrite <- Hr.
  split.
  - rewrite nth_error_map_seq by exact Hi. unfold mean_at.
    fold window. f_equal.
    replace (i + 1 <? w) with (i <? w - 1); [reflexivity|].
    destruct (i <? w - 1) eqn:E1; destruct (i + 1 <? w) eqn:E2;
      try reflexivity;
      [apply Nat.ltb_lt in E1; apply Nat.ltb_ge in E2
      |apply Nat.ltb_ge in E1; apply Nat.ltb_lt in E2]; lia.
  - intros Hwi. split.
    + unfold window. rewrite length_firstn, length_skipn. lia.
    + rewrite (nth_indep _ S754_nan (mean_at w views 0))
        by (rewrite length_map, length_seq; exact Hi).
      rewrite (map_nth (mean_at w views)), seq_nth by exact Hi.
      cbn [Nat.add].
      rewrite (mean_at_number w views i Hw Hvn Hvs) by lia.
      apply Nat.ltb_ge. lia.
Qed.

(** C3, amended: every record is in the series once, with the instant
    that [to_datetime] reads in its upload date and no timezone; the
    series is in ascending order of the instants; and the records of one
    instant are in the order in which they came when there are at most 17
    records, or no two records of one instant.  (Among more records, the
    sort may exchange records of one instant.) *)
Theorem buildSeries_sorted_by_upload_date :
  forall (video_stats : list video_record)
         (df : list (frame_row * float64)),
    buildSeries parse_other video_stats = Some df ->
    exists dates,
      to_datetime parse_other (map rec_upload_date video_stats) = Some dates
      /\ List.length dates = List.length video_stats
      /\ let parsed := map tz_convert_none (frame video_stats dates) in
         let rows := map fst df in
         Permutation parsed rows
         /\ StronglySorted by_date rows
         /\ Forall (fun r => ts_tz (row_upload_date r) = None) rows
         /\ (List.length video_stats <= 17 \/ NoDup (map ts_value dates) ->
             forall t,
               filter (uploaded_at t) rows = filter (uploaded_at t) parsed).
Proof.
  intros stats df Hdf.
  destruct (buildSeries_parts _ _ Hdf) as (dates & Hdates & Hd & Hrows & _).
  exists dates. split; [exact Hdates|]. split; [exact Hd|].
  intros parsed rows. unfold rows. rewrite Hrows. fold parsed.
  split; [apply sort_values_perm|].
  split; [apply sort_values_sorted|]. split.
  - eapply Permutation_Forall; [apply sort_values_perm|].
    unfold parsed. apply Forall_map. apply Forall_forall. intros r _.
    reflexivity.
  - intros H t. apply sort_values_stable.
    destruct H as [H|H]; [left|right].
    + unfold parsed. rewrite length_map, frame_length by exact Hd. exact H.
    + unfold parsed. rewrite frame_keys by exact Hd. exact H.
Qed.

(** C9, amended: when the series has at most 17 rows, or no two rows of
    one upload instant, building the series of the records under it
    gives that series again, rows and moving averages. *)
Theorem buildSeries_idempotent_small_or_distinct :
  forall (video_stats : list video_record)
         (df : list (frame_row * float64)),
    buildSeries parse_other video_stats = Some df ->
    NoDup (map (fun p => row_key (fst p)) df) \/ List.length df <= 17 ->
    buildSeries parse_other (records_of df) = Some df.
Proof.
  intros stats df Hdf Hcase.
  destruct (buildSeries_parts _ _ Hdf) as (dates & _ & Hd & Hrows & Hr & Hlen).
  set (rows := map fst df) in *.
  assert (Hnaive : Forall (fun r => ts_tz (row_upload_date r) = None) rows).
  { rewrite Hrows. eapply Permutation_Forall; [apply sort_values_perm|].
    apply Forall_map. apply Forall_forall. intros r _. reflexivity. }
  assert (Hsorted : StronglySorted by_date rows)
    by (rewrite Hrows; apply sort_values_sorted).
  assert (Hlr : List.length rows = List.length df)
    by (unfold rows; apply length_map).
  assert (Hdates : to_datetime parse_other
                     (map rec_upload_date (records_of df))
                   = Some (map row_upload_date rows)).
  { unfold to_datetime.
    replace (map rec_upload_date (records_of df))
      with (map DateStamp (map row_upload_date rows))
      by (unfold rows, records_of; rewrite !map_map; reflexivity).
    rewrite traverse_stamp_cells, one_timezone_naive; [reflexivity|].
    apply Forall_map. exact Hnaive. }
  assert (Hframe : sort_values
                     (naive_frame
                        (frame (records_of df) (map row_upload_date rows)))
                   = rows).
  { unfold rows at 1. rewrite frame_records_of. fold rows.
    rewrite naive_frame_strips.
    replace (map tz_convert_none rows) with rows.
    - apply sort_values_sorted_id; [exact Hsorted|].
      destruct Hcase as [H|H]; [left|right; lia].
      unfold rows. rewrite map_map. exact H.
    - clear - Hnaive. induction Hnaive as [|r l Hr _ IH]; [reflexivity|].
      simpl. rewrite <- IH, (tz_convert_none_naive r Hr). reflexivity. }
  unfold buildSeries. rewrite Hdates, Hframe.
  replace (List.length rows) with (List.length stats) by lia.
  rewrite Hr. unfold rows. rewrite combine_fst_snd. reflexivity.
Qed.

(** The series is built whenever the upload dates are texts of the API
    and the view counts are below [2^53] in absolute value: no line of
    557-568 raises then, whatever [pd.to_datetime] does with other texts,
    and the series has one row for each record. *)
Theorem buildSeries_returns :
  forall video_stats : list video_record,
    Forall (fun r => exists s t,
                rec_upload_date r = DateText s /\ api_datetime s = Some t)
           video_stats ->
    Forall (fun r => in_range (rec_view_count r)) video_stats ->
    exists df,
      buildSeries parse_other video_stats = Some df
      /\ List.length df = List.length video_stats.
Proof.
  intros stats Hdates Hcounts.
  assert (Hsome : exists df, buildSeries parse_other stats = Some df).
  { destruct (traverse_api_cells (map rec_upload_date stats))
      as (dates & Hd & Hutc); [apply Forall_map; exact Hdates|].
    assert (Hto : to_datetime parse_other (map rec_upload_date stats)
                  = Some dates).
    { unfold to_datetime.
      destruct stats as [|r stats].
      - cbn in Hd. injection Hd as <-. reflexivity.
      - inversion Hdates as [|? ? (s & t & Hs & _) _]; subst.
        assert (Hst : traverse stamp_cell (map rec_upload_date (r :: stats))
                      = None)
          by (cbn [map traverse]; rewrite Hs; reflexivity).
        rewrite Hst, Hd, (one_timezone_utc dates Hutc). reflexivity. }
    pose proof (to_datetime_length _ _ Hto) as Hlen.
    rewrite length_map in Hlen.
    unfold buildSeries. rewrite Hto, naive_frame_strips.
    set (rows := sort_values (map tz_convert_none (frame stats dates))).
    assert (Hin : Forall in_range (map row_view_count rows)).
    { eapply Permutation_Forall;
        [apply Permutation_map, sort_values_perm|].
      rewrite (frame_view_counts stats dates Hlen). apply Forall_map.
      exact Hcounts. }
    unfold rolling_mean.
    rewrite (traverse_map float64_of_int f64_of_Z).
    - eexists. reflexivity.
    - intros z Hz. apply float64_of_int_exact.
      apply (proj1 (Forall_forall _ _) Hin z Hz). }
  destruct Hsome as (df & Hdf). exists df. split; [exact Hdf|].
  destruct (buildSeries_parts _ _ Hdf) as (_ & _ & _ & _ & _ & Hlen).
  exact Hlen.
Qed.

End SeriesFacts.

(** ** The series on concrete records *)

(** Three records of the API, in the order of their dates. *)
Example buildSeries_three_records :
  buildSeries api_only three_records
  = Some [(mk_row "v1" "one" 10 (mk_ts 1704067200000000000 None),
           f64_of_Z 10);
          (mk_row "v2" "two" 20 (mk_ts 1704153600000000000 None),
           f64_of_Z 20);
          (mk_row "v3" "three" 30 (mk_ts 1704240000000000000 None),
           f64_of_Z 30)].
Proof. vm_compute. reflexivity. Qed.

Lemma thirty_records_counts :
  Forall (fun r => (0 <= rec_view_count r)%Z) thirty_records
  /\ (zsum (map rec_view_count thirty_records) < 2 ^ 53)%Z.
Proof.
  split; [|vm_compute; reflexivity].
  unfold thirty_records. apply Forall_map. apply Forall_forall.
  intros day _. cbn [rec_view_count]. destruct (day =? 3); lia.
Qed.

Lemma buildSeries_moving_average_witness :
  exists df,
    buildSeries api_only thirty_records = Some df
    /\ nth_error (map snd df) 1 = Some S754_nan
    /\ nth_error (map snd df) 2 = Some (f64_div (f64_of_Z 4) (f64_of_Z 3))
    /\ nth_error (map snd df) 29 = Some (f64_of_Z 1).
Proof.
  pose proof (proj1 (buildSeries_moving_average api_only) thirty_records)
    as H.
  destruct (buildSeries api_only thirty_records) as [df|] eqn:E;
    [|vm_compute in E; discriminate E].
  specialize (H df eq_refl (proj1 thirty_records_counts)
                (proj2 thirty_records_counts)).
  destruct H as [_ H]. exists df. split; [reflexivity|].
  destruct (H 1 ltac:(simpl; lia)) as [H1 _].
  destruct (H 2 ltac:(simpl; lia)) as [H2 _].
  destruct (H 29 ltac:(simpl; lia)) as [H29 _].
  rewrite H1, H2, H29. clear H H1 H2 H29.
  vm_compute in E. injection E as <-.
  repeat split; vm_compute; reflexivity.
Defined.

(** C2, as stated, fails: the moving average of the views 1, 1 and 2 is
    the float64 nearest to 4/3, which is not 4/3. *)
Lemma moving_average_is_mean_fails : ~ moving_average_is_mean.
Proof.
  intros H. specialize (H api_only thirty_records).
  destruct (buildSeries api_only thirty_records) as [df|] eqn:E;
    [|vm_compute in E; discriminate E].
  specialize (H df 2 eq_refl). cbv zeta in H.
  destruct (H ltac:(simpl; lia)) as (q & Hv & Hq). clear H.
  vm_compute in E. injection E as <-.
  vm_compute in Hv. injection Hv as <-.
  unfold Qeq in Hq. vm_compute in Hq. discriminate Hq.
Qed.

Lemma buildSeries_sorted_by_upload_date_witness :
  exists df,
    buildSeries api_only three_records = Some df
    /\ StronglySorted by_date (map fst df)
    /\ map (fun r => ts_value (row_upload_date r)) (map fst df)
       = [1704067200000000000; 1704153600000000000;
          1704240000000000000]%Z.
Proof.
  destruct (buildSeries api_only three_records) as [df|] eqn:E;
    [|vm_compute in E; discriminate E].
  exists df. split; [reflexivity|].
  destruct (buildSeries_sorted_by_upload_date api_only three_records df E)
    as (dates & _ & _ & _ & Hs & _).
  split; [exact Hs|].
  vm_compute in E. injection E as <-. reflexivity.
Defined.

Lemma buildSeries_returns_witness :
  exists df,
    buildSeries api_only three_records = Some df
    /\ List.length df = 3.
Proof.
  apply (buildSeries_returns api_only three_records).
  - repeat constructor; eexists; eexists; split; reflexivity.
  - repeat constructor; unfold in_range; simpl; lia.
Defined.

(** The sort on eighteen videos of one second: the first and the last
    two stay, the others come out in the opposite order. *)
Example eighteen_premieres_order :
  option_map (map (fun p => row_video_id (fst p)))
             (buildSeries api_only eighteen_premieres)
  = Some ["v00"; "v15"; "v14"; "v13"; "v12"; "v11"; "v10"; "v09"; "v08";
          "v07"; "v06"; "v05"; "v04"; "v03"; "v02"; "v01"; "v16"; "v17"].
Proof. vm_compute. reflexivity. Qed.

(** C3, as stated, fails: the sort is not stable. *)
Lemma keeps_input_order_fails : ~ keeps_input_order.
Proof.
  intros H. specialize (H api_only eighteen_premieres).
  destruct (to_datetime api_only (map rec_upload_date eighteen_premieres))
    as [dates|] eqn:Ed; [|vm_compute in Ed; discriminate Ed].
  destruct (buildSeries api_only eighteen_premieres) as [df|] eqn:E;
    [|vm_compute in E; discriminate E].
  specialize (H dates df 1704067200000000000%Z eq_refl eq_refl).
  vm_compute in Ed. injection Ed as <-.
  vm_compute in E. injection E as <-.
  vm_compute in H. discriminate H.
Qed.

Lemma buildSeries_idempotent_small_or_distinct_witness :
  exists df,
    buildSeries api_only three_records = Some df
    /\ buildSeries api_only (records_of df) = Some df.
Proof.
  destruct (buildSeries api_only three_records) as [df|] eqn:E;
    [|vm_compute in E; discriminate E].
  exists df. split; [reflexivity|].
  apply (buildSeries_idempotent_small_or_distinct api_only three_records
           df E).
  right. vm_compute in E. injection E as <-. simpl. lia.
Defined.

(** C9, as stated, fails: on the eighteen videos of one second, the
    second sort undoes what the first did. *)
Lemma idempotent_fails : ~ idempotent.
Proof.
  intros H. specialize (H api_only eighteen_premieres).
  destruct (buildSeries api_only eighteen_premieres) as [df|] eqn:E;
    [|vm_compute in E; discriminate E].
  specialize (H df eq_refl).
  vm_compute in E. injection E as <-.
  vm_compute in H. discriminate H.
Qed.

(* ================================================================== *)
(** * Further properties of the statistics loop *)
(* ================================================================== *)

Lemma batches_length (video_ids : list string) :
  List.length (batches video_ids) = (List.length video_ids + 49) / 50.
Proof.
  unfold batches, range_step. rewrite !length_map, length_seq.
  f_equal. lia.
Qed.

(** The number of batches is the number of identifiers over 50, rounded
    up; batch [k] holds the identifiers at positions [50 k .. 50 k + 49];
    every batch but the last holds exactly 50. *)
Theorem batches_shape :
  forall (video_ids : list string) (k : nat),
    k < (List.length video_ids + 49) / 50 ->
    List.length (batches video_ids) = (List.length video_ids + 49) / 50
    /\ nth_error (batches video_ids) k
       = Some (firstn 50 (skipn (50 * k) video_ids))
    /\ (S k < (List.length video_ids + 49) / 50 ->
        List.length (firstn 50 (skipn (50 * k) video_ids)) = 50).
Proof.
  intros ids k Hk. split; [apply batches_length|]. split.
  - unfold batches, range_step. rewrite nth_error_map.
    replace (List.length ids + 50 - 1) with (List.length ids + 49) by lia.
    rewrite nth_error_map.
    rewrite (nth_error_nth' (seq 0 ((List.length ids + 49) / 50)) 0)
      by (rewrite length_seq; exact Hk).
    rewrite seq_nth by exact Hk. cbn [option_map]. unfold slice.
    f_equal. f_equal; [lia|f_equal; lia].
  - intros Hk'. rewrite length_firstn, length_skipn.
    pose proof (Nat.Div0.mul_div_le (List.length ids + 49) 50). lia.
Qed.

Lemma batches_shape_witness :
  1 < (List.length sample_ids + 49) / 50
  /\ List.length (batches sample_ids) = (List.length sample_ids + 49) / 50
  /\ nth_error (batches sample_ids) 1
     = Some (firstn 50 (skipn (50 * 1) sample_ids))
  /\ (S 1 < (List.length sample_ids + 49) / 50 ->
      List.length (firstn 50 (skipn (50 * 1) sample_ids)) = 50).
Proof.
  split; [vm_compute; lia|].
  apply (batches_shape sample_ids 1). vm_compute. lia.
Defined.

Lemma append_statistics_extends (statistics : list video_stat)
    (its : list item) :
  exists more, fst (append_statistics statistics its) = statistics ++ more.
Proof.
  revert statistics; induction its as [|it its IH]; intros st;
    cbn [append_statistics].
  - exists []. rewrite app_nil_r. reflexivity.
  - destruct (parse_item it) as [row|e].
    + destruct (IH (st ++ [row])) as [more Hm]. exists (row :: more).
      rewrite Hm, <- List.app_assoc. reflexivity.
    + exists []. rewrite app_nil_r. reflexivity.
Qed.

Lemma collect_statistics_extends (statistics : list video_stat)
    (r : response) :
  exists more, fst (collect_statistics statistics r) = statistics ++ more.
Proof.
  unfold collect_statistics. destruct (items r) as [its|].
  - apply append_statistics_extends.
  - exists []. rewrite app_nil_r. reflexivity.
Qed.

(** What the retry loop of a batch adds to the trace, and to the rows. *)
Lemma retry_batch_trace :
  forall (W : Type) (exec : W -> request -> outcome * W)
         (retries : nat) (batch_ids : list string)
         (statistics statistics' : list video_stat) (o : option exn)
         (w w' : W) (log log' : trace),
    retry_batch (traced exec) retries batch_ids statistics (w, log)
    = (statistics', o, (w', log')) ->
    exists L,
      log' = log ++ L
      /\ List.length L <= retries
      /\ Forall (fun p => fst p = videos_request batch_ids) L
      /\ exists more, statistics' = statistics ++ more.
Proof.
  intros W exec retries. induction retries as [|r IH];
    intros b st st' o w w' log log' H; cbn [retry_batch] in H.
  - inversion H; subst. exists []. rewrite !app_nil_r.
    repeat split; auto. exists []. rewrite app_nil_r. reflexivity.
  - destruct (exec w (videos_list (join_ids b))) as [out w1] eqn:E.
    rewrite (traced_eq _ _ _ _ _ _ _ E) in H.
    assert (Hone : forall st1,
               (exists more, st1 = st ++ more) ->
               (st1, o, (w1, log ++ [(videos_list (join_ids b), out)]))
               = (st', o, (w', log')) ->
               exists L,
                 log' = log ++ L
                 /\ List.length L <= S r
                 /\ Forall (fun p => fst p = videos_request b) L
                 /\ exists more, st' = st ++ more).
    { intros st1 Hst1 E1. inversion E1; subst.
      exists [(videos_list (join_ids b), out)]. repeat split; auto.
      simpl. lia. }
    destruct out as [resp|x].
    + inversion H; subst. apply (Hone (fst (collect_statistics st resp)));
        [apply collect_statistics_extends|reflexivity].
    + destruct (is_ssl x).
      * destruct (r =? 0).
        -- inversion H; subst. apply (Hone st'); [|reflexivity].
           exists []. rewrite app_nil_r. reflexivity.
        -- apply IH in H. destruct H as [L (HL & Hlen & Hall & Hmore)].
           exists ((videos_list (join_ids b), inr x) :: L).
           rewrite HL, <- List.app_assoc. repeat split; auto.
           simpl. lia.
      * inversion H; subst. apply (Hone st'); [|reflexivity].
        exists []. rewrite app_nil_r. reflexivity.
Qed.

Lemma statistics_loop_trace :
  forall (W : Type) (exec : W -> request -> outcome * W)
         (bs : list (list string)) (statistics : list video_stat)
         (w w' : W) (log log' : trace) (res : result (list video_stat)),
    statistics_loop (traced exec) bs statistics (w, log)
    = (res, (w', log')) ->
    exists L,
      log' = log ++ L
      /\ List.length L <= 4 * List.length bs
      /\ (forall rows, res = Return rows ->
            List.length bs <= List.length L
            /\ exists more, rows = statistics ++ more)
      /\ Forall (fun p => exists b, In b bs /\ fst p = videos_request b) L.
Proof.
  intros W exec bs. induction bs as [|b bs IH];
    intros st w w' log log' res H; cbn [statistics_loop] in H.
  - inversion H; subst. exists []. rewrite app_nil_r.
    split; [reflexivity|]. split; [simpl; lia|]. split; [|constructor].
    intros rows [= <-]. split; [simpl; lia|].
    exists []. rewrite app_nil_r. reflexivity.
  - destruct (exec w (videos_list (join_ids b))) as [out w1] eqn:E.
    rewrite (traced_eq _ _ _ _ _ _ _ E) in H.
    assert (Hnext : forall st1 L1 w2 log2,
               (exists more, st1 = st ++ more) ->
               log2 = log ++ (videos_list (join_ids b), out) :: L1 ->
               List.length L1 <= 3 ->
               Forall (fun p => fst p = videos_request b) L1 ->
               statistics_loop (traced exec) bs st1 (w2, log2)
               = (res, (w', log')) ->
               exists L,
                 log' = log ++ L
                 /\ List.length L <= 4 * List.length (b :: bs)
                 /\ (forall rows, res = Return rows ->
                       List.length (b :: bs) <= List.length L
                       /\ exists more, rows = st ++ more)
                 /\ Forall (fun p => exists b0, In b0 (b :: bs)
                                                /\ fst p = videos_request b0)
                      L).
    { intros st1 L1 w2 log2 [m1 Hm1] Hlog2 HL1 Hall1 Hrun.
      apply IH in Hrun. destruct Hrun as [L (HL & Hlen & Hret & Hall)].
      exists (((videos_list (join_ids b), out) :: L1) ++ L).
      split; [rewrite HL, Hlog2, <- !List.app_assoc; reflexivity|].
      split; [rewrite length_app; simpl in *; lia|]. split.
      - intros rows Hr. destruct (Hret rows Hr) as [Hge [m2 Hm2]].
        split; [rewrite length_app; simpl in *; lia|].
        exists (m1 ++ m2). rewrite Hm2, Hm1, <- List.app_assoc. reflexivity.
      - apply Forall_app. split.
        + constructor; [exists b; split; [left|]; reflexivity|].
          eapply Forall_impl; [|exact Hall1].
          intros p Hp. exists b. split; [left; reflexivity|exact Hp].
        + eapply Forall_impl; [|exact Hall].
          intros p [b0 [Hin Hp]]. exists b0. split; [right; exact Hin|exact Hp]. }
    destruct out as [r|x].
    + apply (Hnext (fst (collect_statistics st r)) [] w1
               (log ++ [(videos_list (join_ids b), inl r)])
               (collect_statistics_extends st r) eq_refl);
        [simpl; lia|constructor|exact H].
    + destruct (is_ssl x).
      * revert H.
        match goal with
        | |- context [retry_batch ?f ?n ?ids ?s ?v] =>
            destruct (retry_batch f n ids s v)
              as [[st' o] [w2 log2]] eqn:R; intros H
        end.
        apply retry_batch_trace in R.
        destruct R as [L1 (HL1 & Hlen1 & Hall1 & Hmore1)].
        destruct o as [e'|].
        -- inversion H; subst.
           exists ((videos_list (join_ids b), inr x) :: L1).
           split; [rewrite <- List.app_assoc; reflexivity|].
           split; [simpl; lia|]. split; [intros rows Hr; discriminate|].
           constructor; [exists b; split; [left|]; reflexivity|].
           eapply Forall_impl; [|exact Hall1].
           intros p Hp. exists b. split; [left; reflexivity|exact Hp].
        -- apply (Hnext st' L1 w2 log2 Hmore1); auto.
           rewrite HL1, <- List.app_assoc. reflexivity.
      * apply (Hnext st [] w1
                 (log ++ [(videos_list (join_ids b), inr x)]));
          auto;
          first [exists []; rewrite app_nil_r; reflexivity | simpl; lia].
Qed.

(** The trace of the loop over the batches is made of one run for each
    batch that was reached, in the order of the batches; all the batches
    are reached when the loop returns, and the run of the last batch
    reached has four executions when it raises. *)
Lemma statistics_loop_runs :
  forall (W : Type) (exec : W -> request -> outcome * W)
         (bs : list (list string)) (statistics : list video_stat)
         (w w' : W) (log log' : trace) (res : result (list video_stat)),
    statistics_loop (traced exec) bs statistics (w, log)
    = (res, (w', log')) ->
    exists k segs,
      k <= List.length bs
      /\ Forall2 batch_run (firstn k bs) segs
      /\ log' = log ++ List.concat segs
      /\ (forall rows, res = Return rows -> k = List.length bs)
      /\ (forall e, res = Raise e ->
            exists segs0 seg,
              segs = segs0 ++ [seg] /\ List.length seg = 4).
Proof.
  intros W exec bs. induction bs as [|b bs IH];
    intros st w w' log log' res H; cbn [statistics_loop] in H.
  - inversion H; subst. exists 0, []. cbn. rewrite app_nil_r.
    repeat split; try constructor; try discriminate.
  - destruct (exec w (videos_list (join_ids b))) as [out w1] eqn:E.
    rewrite (traced_eq _ _ _ _ _ _ _ E) in H.
    assert (Hnext : forall st1 L1 w2 log2,
               log2 = log ++ (videos_list (join_ids b), out) :: L1 ->
               List.length L1 <= 3 ->
               Forall (fun p => fst p = videos_request b) L1 ->
               statistics_loop (traced exec) bs st1 (w2, log2)
               = (res, (w', log')) ->
               exists k segs,
                 k <= List.length (b :: bs)
                 /\ Forall2 batch_run (firstn k (b :: bs)) segs
                 /\ log' = log ++ List.concat segs
                 /\ (forall rows, res = Return rows ->
                       k = List.length (b :: bs))
                 /\ (forall e, res = Raise e ->
                       exists segs0 seg,
                         segs = segs0 ++ [seg] /\ List.length seg = 4)).
    { intros st1 L1 w2 log2 Hlog2 HL1 Hall1 Hrun.
      apply IH in Hrun.
      destruct Hrun as (k & segs & Hk & Hsegs & HL & Hret & Hraise).
      exists (S k), (((videos_list (join_ids b), out) :: L1) :: segs).
      split; [simpl; lia|]. split.
      { cbn [firstn]. constructor; [|exact Hsegs]. split; [simpl; lia|].
        constructor; [reflexivity|exact Hall1]. }
      split.
      { rewrite HL, Hlog2. cbn [List.concat].
        rewrite <- !List.app_assoc. reflexivity. }
      split.
      { intros rows Hr. rewrite (Hret rows Hr). reflexivity. }
      intros e He. destruct (Hraise e He) as (segs0 & seg & -> & Hseg).
      exists (((videos_list (join_ids b), out) :: L1) :: segs0), seg.
      split; [reflexivity|exact Hseg]. }
    destruct out as [r|x].
    + apply (Hnext (fst (collect_statistics st r)) [] w1
               (log ++ [(videos_list (join_ids b), inl r)]) eq_refl);
        [simpl; lia|constructor|exact H].
    + destruct (is_ssl x).
      * revert H.
        match goal with
        | |- context [retry_batch ?f ?n ?ids ?s ?v] =>
            destruct (retry_batch f n ids s v)
              as [[st' o] [w2 log2]] eqn:R; intros H
        end.
        destruct o as [e'|].
        -- apply retry_batch_raises in R.
           destruct R as (errs & Hlen & _ & _ & _ & Hlog).
           inversion H; subst.
           exists 1,
             [(videos_list (join_ids b), inr x)
              :: map (fun y => (videos_request b, @inr response exn y)) errs].
           split; [simpl; lia|]. split.
           { cbn [firstn]. constructor; [|constructor].
             split; [simpl; rewrite length_map; lia|].
             constructor; [reflexivity|]. apply Forall_map, Forall_forall.
             intros y _. reflexivity. }
           split.
           { cbn [List.concat]. rewrite app_nil_r, <- List.app_assoc.
             reflexivity. }
           split; [intros rows Hr; discriminate|].
           intros e _. exists [], ((videos_list (join_ids b), inr x)
              :: map (fun y => (videos_request b, @inr response exn y)) errs).
           split; [reflexivity|]. simpl. rewrite length_map, Hlen.
           reflexivity.
        -- apply retry_batch_trace in R.
           destruct R as [L1 (HL1 & Hlen1 & Hall1 & Hmore1)].
           apply (Hnext st' L1 w2 log2); auto.
           rewrite HL1, <- List.app_assoc. reflexivity.
      * apply (Hnext st [] w1
                 (log ++ [(videos_list (join_ids b), inr x)]));
          auto; simpl; lia.
Qed.

(** [get_videos_statistics] executes, for each batch it reaches and in
    the order of the batches, between one and four requests, all of that
    batch (the first and up to three retries): the trace is the runs of
    the first [k] batches, one after the other.  When it returns, [k] is
    the number of batches, so that every batch has its run; when it
    raises, the run of the last batch reached has four executions.  So it
    executes at most four times as many requests as there are batches,
    and nothing but the requests of its batches. *)
Theorem get_videos_statistics_request_bounds :
  forall (W : Type) (exec : W -> request -> outcome * W)
         (video_ids : list string) (w w' : W) (L : trace)
         (res : result (list video_stat)),
    get_videos_statistics (traced exec) video_ids (w, []) = (res, (w', L)) ->
    (exists k segs,
        k <= List.length (batches video_ids)
        /\ Forall2 batch_run (firstn k (batches video_ids)) segs
        /\ L = List.concat segs
        /\ (forall rows, res = Return rows ->
              k = List.length (batches video_ids))
        /\ (forall e, res = Raise e ->
              exists segs0 seg,
                segs = segs0 ++ [seg] /\ List.length seg = 4))
    /\ List.length L <= 4 * ((List.length video_ids + 49) / 50)
    /\ (forall rows, res = Return rows ->
          (List.length video_ids + 49) / 50 <= List.length L)
    /\ Forall (fun p => exists b, In b (batches video_ids)
                                   /\ fst p = videos_request b) L.
Proof.
  intros W exec ids w w' L res H. unfold get_videos_statistics in H.
  split.
  { apply statistics_loop_runs in H.
    destruct H as (k & segs & Hk & Hsegs & HL & Hret & Hraise).
    exists k, segs. repeat split; assumption. }
  apply statistics_loop_trace in H.
  destruct H as [L0 (HL & Hlen & Hret & Hall)]. simpl in HL. subst L0.
  rewrite batches_length in *. split; [exact Hlen|]. split; [|exact Hall].
  intros rows Hr. apply (Hret rows Hr).
Qed.

Lemma get_videos_statistics_request_bounds_witness :
  get_videos_statistics (traced (scripted refuses)) ["a"; "b"]
    (failing [SSLError "eof"; SSLError "eof"] ++ [Some (inl sample_page)], [])
  = (Return sample_rows,
     ([], failures ["a"; "b"] [SSLError "eof"; SSLError "eof"]
          ++ [(videos_request ["a"; "b"], inl sample_page)]))
  /\ List.length
       (failures ["a"; "b"] [SSLError "eof"; SSLError "eof"]
        ++ [(videos_request ["a"; "b"], @inl response exn sample_page)])
     <= 4 * ((List.length ["a"; "b"] + 49) / 50).
Proof.
  assert (H : get_videos_statistics (traced (scripted refuses)) ["a"; "b"]
                (failing [SSLError "eof"; SSLError "eof"]
                 ++ [Some (inl sample_page)], [])
              = (Return sample_rows,
                 ([], failures ["a"; "b"] [SSLError "eof"; SSLError "eof"]
                      ++ [(videos_request ["a"; "b"], inl sample_page)])))
    by reflexivity.
  split; [exact H|].
  exact (proj1 (proj2
           (get_videos_statistics_request_bounds _ _ _ _ _ _ _ H))).
Defined.

(** The loop over the batches, when every batch is answered at once. *)
Lemma statistics_loop_all_answered :
  forall (serve : request -> outcome) (bs : list (list string))
         (answers : list (list video_stat)) (statistics : list video_stat)
         (pending : list (option outcome)) (log : trace),
    List.length answers = List.length bs ->
    statistics_loop (traced (scripted serve)) bs statistics
      (map answered answers ++ pending, log)
    = (Return (statistics ++ List.concat answers),
       (pending, log ++ answers_trace bs answers)).
Proof.
  intros serve bs. induction bs as [|b bs IH];
    intros [|rows answers] st pending log Hlen; try discriminate.
  - simpl. rewrite !app_nil_r. reflexivity.
  - cbn [map app]. unfold answered at 1.
    rewrite statistics_loop_answered.
    unfold rows_page at 1, collect_statistics. cbn [items].
    rewrite append_statistics_stat_items. cbn [fst].
    rewrite IH by (simpl in Hlen; lia).
    unfold answers_trace. cbn [combine map List.concat fst snd].
    rewrite <- !List.app_assoc. reflexivity.
Qed.

(** On a service that answers every batch at once with well-formed rows,
    [get_videos_statistics] returns the rows of the answers in the order of
    the batches, and requests each batch once. *)
Theorem get_videos_statistics_all_answered :
  forall (serve : request -> outcome) (video_ids : list string)
         (answers : list (list video_stat))
         (pending : list (option outcome)),
    List.length answers = (List.length video_ids + 49) / 50 ->
    get_videos_statistics (traced (scripted serve)) video_ids
      (map answered answers ++ pending, [])
    = (Return (List.concat answers),
       (pending, answers_trace (batches video_ids) answers)).
Proof.
  intros serve ids answers pending Hlen. unfold get_videos_statistics.
  rewrite statistics_loop_all_answered
    by (rewrite batches_length; exact Hlen).
  reflexivity.
Qed.

Lemma get_videos_statistics_all_answered_witness :
  List.length [sample_rows; sample_rows] = (List.length sample_ids + 49) / 50
  /\ get_videos_statistics (traced (scripted refuses)) sample_ids
       (map answered [sample_rows; sample_rows] ++ [], [])
     = (Return (List.concat [sample_rows; sample_rows]),
        ([], answers_trace (batches sample_ids) [sample_rows; sample_rows])).
Proof.
  split; [reflexivity|].
  apply (get_videos_statistics_all_answered refuses sample_ids
           [sample_rows; sample_rows] []).
  reflexivity.
Defined.

(** An answer with an entry that cannot be read (a missing ['id'],
    ['statistics'], ['publishedAt'] or ['title'], or a view count that
    [int] rejects): the rows of the entries before it are kept, the
    entries after it are not read, nothing is raised and the loop goes on
    with the next batch. *)
Theorem statistics_loop_unreadable_item :
  forall (serve : request -> outcome)
         (batch_ids : list string) (rest : list (list string))
         (statistics good : list video_stat) (bad : item) (more : list item)
         (e : exn) (tok : option string)
         (pending : list (option outcome)) (log : trace),
    parse_item bad = inr e ->
    let r := mk_response (Some (map stat_item good ++ bad :: more)) tok in
    statistics_loop (traced (scripted serve)) (batch_ids :: rest) statistics
      (Some (inl r) :: pending, log)
    = statistics_loop (traced (scripted serve)) rest (statistics ++ good)
        (pending, log ++ [(videos_request batch_ids, inl r)]).
Proof.
  intros serve b rest st good bad more e tok pending log Hbad r.
  rewrite statistics_loop_answered. f_equal.
  unfold collect_statistics, r. cbn [items].
  clear r. revert st. induction good as [|g good IH]; intros st.
  - cbn [map app append_statistics]. rewrite Hbad, app_nil_r. reflexivity.
  - cbn [map app append_statistics]. rewrite parse_stat_item, IH.
    rewrite <- List.app_assoc. reflexivity.
Qed.

Lemma statistics_loop_unreadable_item_witness :
  parse_item (mk_item None None None NoStatistics)
  = inr (KeyError "id")
  /\ statistics_loop (traced (scripted refuses)) [["a"; "b"; "c"]] []
       ([Some (inl (mk_response
                      (Some (map stat_item (firstn 1 sample_rows)
                             ++ mk_item None None None NoStatistics
                                :: map stat_item sample_rows)) None))], [])
     = statistics_loop (traced (scripted refuses)) []
         ([] ++ firstn 1 sample_rows)
         ([], [] ++ [(videos_request ["a"; "b"; "c"],
                      inl (mk_response
                             (Some (map stat_item (firstn 1 sample_rows)
                                    ++ mk_item None None None NoStatistics
                                       :: map stat_item sample_rows))
                             None))]).
Proof.
  split; [reflexivity|].
  apply (statistics_loop_unreadable_item refuses ["a"; "b"; "c"] [] []
           (firstn 1 sample_rows)
           (mk_item None None None NoStatistics)
           (map stat_item sample_rows) (KeyError "id") None [] []).
  reflexivity.
Defined.

(** The rows a loop starts with stay in front of what it adds. *)
Lemma append_statistics_frame (statistics : list video_stat)
    (its : list item) :
  append_statistics statistics its
  = (statistics ++ fst (append_statistics [] its),
     snd (append_statistics [] its)).
Proof.
  revert statistics; induction its as [|it its IH]; intros st;
    cbn [append_statistics].
  - rewrite app_nil_r. reflexivity.
  - destruct (parse_item it) as [row|e]; cbn [fst snd app].
    + rewrite (IH (st ++ [row])), (IH [row]). cbn [fst snd].
      rewrite <- List.app_assoc. reflexivity.
    + rewrite app_nil_r. reflexivity.
Qed.

Lemma collect_statistics_frame (statistics : list video_stat)
    (r : response) :
  fst (collect_statistics statistics r)
  = statistics ++ fst (collect_statistics [] r).
Proof.
  unfold collect_statistics. destruct (items r) as [its|].
  - rewrite append_statistics_frame. reflexivity.
  - cbn [fst]. rewrite app_nil_r. reflexivity.
Qed.

Lemma retry_batch_frame :
  forall (W : Type) (exec : W -> request -> outcome * W)
         (retries : nat) (batch_ids : list string)
         (statistics : list video_stat) (w : W),
    retry_batch exec retries batch_ids statistics w
    = let '(rows, o, w') := retry_batch exec retries batch_ids [] w in
      (statistics ++ rows, o, w').
Proof.
  intros W exec retries. induction retries as [|r IH]; intros b st w;
    cbn [retry_batch].
  - rewrite app_nil_r. reflexivity.
  - destruct (exec w (videos_list (join_ids b))) as [[resp|x] w1].
    + rewrite collect_statistics_frame. reflexivity.
    + destruct (is_ssl x); [|rewrite app_nil_r; reflexivity].
      destruct (r =? 0); [rewrite app_nil_r; reflexivity|].
      apply IH.
Qed.

Lemma statistics_loop_frame :
  forall (W : Type) (exec : W -> request -> outcome * W)
         (bs : list (list string)) (statistics : list video_stat) (w : W),
    statistics_loop exec bs statistics w
    = let (res, w') := statistics_loop exec bs [] w in
      (map_result (app statistics) res, w').
Proof.
  intros W exec bs. induction bs as [|b bs IH]; intros st w;
    cbn [statistics_loop].
  - cbn [map_result]. rewrite app_nil_r. reflexivity.
  - destruct (exec w (videos_list (join_ids b))) as [[r|x] w1].
    + rewrite collect_statistics_frame.
      rewrite (IH (st ++ _)), (IH (fst (collect_statistics [] r))).
      destruct (statistics_loop exec bs [] w1) as [[rows|e|] w2];
        cbn [map_result]; rewrite ?List.app_assoc; reflexivity.
    + destruct (is_ssl x).
      * rewrite retry_batch_frame.
        destruct (retry_batch exec 3 b [] w1) as [[rows [e'|]] w2].
        -- reflexivity.
        -- rewrite (IH (st ++ rows)), (IH rows).
           destruct (statistics_loop exec bs [] w2) as [[rows'|e|] w3];
             cbn [map_result]; rewrite ?List.app_assoc; reflexivity.
      * apply IH.
Qed.

Lemma statistics_loop_app :
  forall (W : Type) (exec : W -> request -> outcome * W)
         (bs1 bs2 : list (list string)) (statistics : list video_stat)
         (w : W),
    statistics_loop exec (bs1 ++ bs2) statistics w
    = match statistics_loop exec bs1 statistics w with
      | (Return rows, w1) => statistics_loop exec bs2 rows w1
      | other => other
      end.
Proof.
  intros W exec bs1 bs2. induction bs1 as [|b bs1 IH]; intros st w;
    cbn [app statistics_loop]; [reflexivity|].
  destruct (exec w (videos_list (join_ids b))) as [[r|x] w1]; [apply IH|].
  destruct (is_ssl x); [|apply IH].
  destruct (retry_batch exec 3 b st w1) as [[rows [e'|]] w2];
    [reflexivity|apply IH].
Qed.

Lemma batches_app (k : nat) :
  forall ids1 ids2 : list string,
    List.length ids1 = 50 * k ->
    batches (ids1 ++ ids2) = batches ids1 ++ batches ids2.
Proof.
  induction k as [|k IH]; intros ids1 ids2 Hlen.
  - destruct ids1; [reflexivity|simpl in Hlen; lia].
  - assert (Hne : ids1 <> []) by (intros ->; simpl in Hlen; lia).
    rewrite (batches_cons ids1 Hne).
    rewrite batches_cons by (destruct ids1; [congruence|discriminate]).
    rewrite firstn_app, skipn_app.
    replace (50 - List.length ids1) with 0 by lia.
    change (firstn 0 ids2) with (@nil string).
    change (skipn 0 ids2) with ids2.
    rewrite app_nil_r. cbn [app]. f_equal.
    apply IH. rewrite length_skipn. lia.
Qed.

(** When the first list is a whole number of batches, the statistics of
    two lists fetched one after the other are the statistics of the two
    lists fetched as one: the same rows in the same order, the same
    world. *)
Theorem get_videos_statistics_app :
  forall (W : Type) (exec : W -> request -> outcome * W)
         (k : nat) (ids1 ids2 : list string)
         (rows1 rows2 : list video_stat) (w w1 w2 : W),
    List.length ids1 = 50 * k ->
    get_videos_statistics exec ids1 w = (Return rows1, w1) ->
    get_videos_statistics exec ids2 w1 = (Return rows2, w2) ->
    get_videos_statistics exec (ids1 ++ ids2) w
    = (Return (rows1 ++ rows2), w2).
Proof.
  intros W exec k ids1 ids2 rows1 rows2 w w1 w2 Hlen H1 H2.
  unfold get_videos_statistics in *.
  rewrite (batches_app k) by exact Hlen.
  rewrite statistics_loop_app, H1, statistics_loop_frame, H2.
  reflexivity.
Qed.

Lemma get_videos_statistics_app_witness :
  List.length (firstn 50 sample_ids) = 50 * 1
  /\ get_videos_statistics (scripted refuses)
       (firstn 50 sample_ids ++ ["x"])
       [answered sample_rows; answered []]
     = (Return (sample_rows ++ []), []).
Proof.
  split; [reflexivity|].
  apply (get_videos_statistics_app _ (scripted refuses) 1
           (firstn 50 sample_ids) ["x"] sample_rows []
           [answered sample_rows; answered []] [answered []] []);
    reflexivity.
Defined.

(* ================================================================== *)
(** * Further properties of the pagination loops *)
(* ================================================================== *)

Lemma append_video_ids_upto_bound (n : nat) (video_ids : list string)
    (its : list item) (video_ids' : list string) :
  List.length video_ids < n ->
  append_video_ids_upto n video_ids its = inl video_ids' ->
  List.length video_ids' <= n /\ exists more, video_ids' = video_ids ++ more.
Proof.
  revert video_ids; induction its as [|it its IH]; intros ids Hlt H;
    cbn [append_video_ids_upto] in H.
  - inversion H; subst. split; [lia|]. exists []. rewrite app_nil_r.
    reflexivity.
  - destruct (item_videoId it) as [v|]; [|discriminate].
    destruct (List.length (ids ++ [v]) =? n) eqn:E.
    + apply Nat.eqb_eq in E. inversion H; subst. split; [lia|].
      exists [v]. reflexivity.
    + apply Nat.eqb_neq in E. rewrite length_app in E. simpl in E.
      apply IH in H; [|rewrite length_app; simpl; lia].
      destruct H as [Hle [more Hm]]. split; [exact Hle|].
      exists (v :: more). rewrite Hm, <- List.app_assoc. reflexivity.
Qed.

Lemma last_n_loop_bound :
  forall (W : Type) (exec : W -> request -> outcome * W)
         (pid : string) (n fuel : nat) (video_ids : list string)
         (tok : option string) (retries : nat) (w w' : W)
         (rows : list string),
    List.length video_ids <= n ->
    last_n_loop exec pid n fuel video_ids tok retries w = (Return rows, w') ->
    List.length rows <= n /\ exists more, rows = video_ids ++ more.
Proof.
  intros W exec pid n. induction fuel as [|fuel IH];
    intros ids tok retries w w' rows Hle H; cbn [last_n_loop] in H;
    destruct (List.length ids <? n) eqn:Hcond;
    try (inversion H; subst; split; [exact Hle|];
         exists []; rewrite app_nil_r; reflexivity);
    try discriminate.
  apply Nat.ltb_lt in Hcond.
  destruct (exec w _) as [[r|e] w1].
  - destruct (items r) as [its|].
    2:{ inversion H; subst. split; [exact Hle|].
        exists []. rewrite app_nil_r. reflexivity. }
    destruct (append_video_ids_upto n ids its) as [ids'|e] eqn:A;
      [|discriminate].
    destruct (append_video_ids_upto_bound _ _ _ _ Hcond A) as [Hb [m Hm]].
    destruct (truthy (nextPageToken r)).
    + apply IH in H; [|exact Hb]. destruct H as [Hr [m' Hm']].
      split; [exact Hr|]. exists (m ++ m').
      rewrite Hm', Hm, <- List.app_assoc. reflexivity.
    + inversion H; subst. split; [exact Hb|]. exists m. reflexivity.
  - destruct (is_ssl e); [|discriminate].
    destruct (0 <? retries - 1); [|discriminate].
    apply IH in H; assumption.
Qed.

(** Whatever the service answers, even pages larger than asked for,
    [get_last_n_video_ids] never returns more than [n] identifiers; and
    for [n = 0] it returns the empty list without a request. *)
Theorem get_last_n_video_ids_at_most_n :
  forall (W : Type) (exec : W -> request -> outcome * W)
         (fuel : nat) (pid : string) (n : nat) (w w' : W)
         (rows : list string),
    (get_last_n_video_ids exec fuel pid n w = (Return rows, w') ->
     List.length rows <= n)
    /\ get_last_n_video_ids exec fuel pid 0 w = (Return [], w).
Proof.
  intros W exec fuel pid n w w' rows. split.
  - intros H. unfold get_last_n_video_ids in H.
    apply last_n_loop_bound in H; [tauto|simpl; lia].
  - unfold get_last_n_video_ids. apply last_n_loop_done. simpl. lia.
Qed.

Lemma get_last_n_video_ids_at_most_n_witness :
  get_last_n_video_ids (scripted refuses) 3 "UU" 2
    [Some (inl (mk_response
                  (Some (map playlist_item ["a"; "b"; "c"; "d"])) None))]
  = (Return ["a"; "b"], [])
  /\ List.length ["a"; "b"] <= 2.
Proof.
  assert (H : get_last_n_video_ids (scripted refuses) 3 "UU" 2
                [Some (inl (mk_response
                              (Some (map playlist_item ["a"; "b"; "c"; "d"]))
                              None))]
              = (Return ["a"; "b"], [])) by reflexivity.
  split; [exact H|].
  exact (proj1 (get_last_n_video_ids_at_most_n _ (scripted refuses) 3 "UU" 2
                  _ _ _) H).
Defined.

(** A failure that is not a secure-transport error ends the run where it
    happens: it is the last execution of the trace and it is what the run
    raises. *)
Lemma all_loop_fatal :
  forall (W : Type) (exec : W -> request -> outcome * W) (pid : string)
         (fuel : nat) (video_ids : list string) (tok : option string)
         (retries : nat) (w w' : W) (res : result (list string)) (L : trace)
         (i : nat) (req : request) (e : exn),
    all_loop (traced exec) pid fuel video_ids tok retries (w, [])
    = (res, (w', L)) ->
    nth_error L i = Some (req, inr e) ->
    is_ssl e = false ->
    res = Raise e /\ List.length L = S i.
Proof.
  intros W exec pid. induction fuel as [|fuel IH];
    intros ids tok retries w w' res L i req e H Hi He;
    cbn [all_loop traced] in H.
  - inversion H; subst. destruct i; discriminate.
  - destruct (exec w (playlistItems_list pid 50 tok)) as [out w1].
    cbn [app] in H.
    assert (Hstop : forall res0 r,
               (res0, (w1, [(playlistItems_list pid 50 tok, @inl _ exn r)]))
               = (res, (w', L)) ->
               res = Raise e /\ List.length L = S i).
    { intros res0 r E. inversion E; subst.
      destruct i as [|[|i]]; discriminate. }
    assert (Hgo : forall out0 res1 w1' L1,
               (res1, (w1', (playlistItems_list pid 50 tok, out0) :: L1))
               = (res, (w', L)) ->
               (forall i0, nth_error L1 i0 = Some (req, inr e) ->
                           res1 = Raise e /\ List.length L1 = S i0) ->
               (forall e0, out0 = inr e0 -> is_ssl e0 = true) ->
               res = Raise e /\ List.length L = S i).
    { intros out0 res1 w1' L1 E Hrec Hout. inversion E; subst.
      destruct i as [|i].
      - simpl in Hi. inversion Hi; subst.
        rewrite (Hout e eq_refl) in He. discriminate.
      - simpl in Hi. destruct (Hrec i Hi) as [Hr Hl].
        split; [exact Hr|simpl; lia]. }
    destruct out as [r|x].
    + destruct (items r) as [its|]; [|apply (Hstop _ _ H)].
      destruct (append_video_ids ids its) as [ids'|x];
        [|apply (Hstop _ _ H)].
      destruct (truthy (nextPageToken r)); [|apply (Hstop _ _ H)].
      rewrite all_loop_frame in H.
      destruct (all_loop (traced exec) pid fuel ids' (nextPageToken r)
                  retries (w1, [])) as [res1 [w1' L1]] eqn:R.
      cbn [app] in H. apply (Hgo _ _ _ _ H); [|intros; discriminate].
      intros i0 Hi0. apply (IH _ _ _ _ _ _ _ _ _ _ R Hi0 He).
    + destruct (is_ssl x) eqn:Hx.
      * destruct (0 <? retries - 1).
        -- rewrite all_loop_frame in H.
           destruct (all_loop (traced exec) pid fuel ids tok (retries - 1)
                       (w1, [])) as [res1 [w1' L1]] eqn:R.
           cbn [app] in H. apply (Hgo _ _ _ _ H).
           ++ intros i0 Hi0. apply (IH _ _ _ _ _ _ _ _ _ _ R Hi0 He).
           ++ intros e0 [= <-]. exact Hx.
        -- inversion H; subst. destruct i as [|[|i]]; try discriminate.
           simpl in Hi. inversion Hi; subst. congruence.
      * inversion H; subst. destruct i as [|[|i]]; try discriminate.
        simpl in Hi. inversion Hi; subst. split; reflexivity.
Qed.

Lemma last_n_loop_fatal :
  forall (W : Type) (exec : W -> request -> outcome * W) (pid : string)
         (n fuel : nat) (video_ids : list string) (tok : option string)
         (retries : nat) (w w' : W) (res : result (list string)) (L : trace)
         (i : nat) (req : request) (e : exn),
    last_n_loop (traced exec) pid n fuel video_ids tok retries (w, [])
    = (res, (w', L)) ->
    nth_error L i = Some (req, inr e) ->
    is_ssl e = false ->
    res = Raise e /\ List.length L = S i.
Proof.
  intros W exec pid n. induction fuel as [|fuel IH];
    intros ids tok retries w w' res L i req e H Hi He;
    cbn [last_n_loop traced] in H;
    (destruct (List.length ids <? n);
     [|inversion H; subst; destruct i; discriminate]).
  - inversion H; subst. destruct i; discriminate.
  - set (req0 := playlistItems_list pid
                   (Nat.min (n - List.length ids) 50) tok) in *.
    destruct (exec w req0) as [out w1].
    cbn [app] in H.
    assert (Hstop : forall res0 r,
               (res0, (w1, [(req0, @inl _ exn r)])) = (res, (w', L)) ->
               res = Raise e /\ List.length L = S i).
    { intros res0 r E. inversion E; subst.
      destruct i as [|[|i]]; discriminate. }
    assert (Hgo : forall out0 res1 w1' L1,
               (res1, (w1', (req0, out0) :: L1)) = (res, (w', L)) ->
               (forall i0, nth_error L1 i0 = Some (req, inr e) ->
                           res1 = Raise e /\ List.length L1 = S i0) ->
               (forall e0, out0 = inr e0 -> is_ssl e0 = true) ->
               res = Raise e /\ List.length L = S i).
    { intros out0 res1 w1' L1 E Hrec Hout. inversion E; subst.
      destruct i as [|i].
      - simpl in Hi. inversion Hi; subst.
        rewrite (Hout e eq_refl) in He. discriminate.
      - simpl in Hi. destruct (Hrec i Hi) as [Hr Hl].
        split; [exact Hr|simpl; lia]. }
    destruct out as [r|x].
    + destruct (items r) as [its|]; [|apply (Hstop _ _ H)].
      destruct (append_video_ids_upto n ids its) as [ids'|x];
        [|apply (Hstop _ _ H)].
      destruct (truthy (nextPageToken r)); [|apply (Hstop _ _ H)].
      rewrite last_n_loop_frame in H.
      destruct (last_n_loop (traced exec) pid n fuel ids' (nextPageToken r)
                  retries (w1, [])) as [res1 [w1' L1]] eqn:R.
      cbn [app] in H. apply (Hgo _ _ _ _ H); [|intros; discriminate].
      intros i0 Hi0. apply (IH _ _ _ _ _ _ _ _ _ _ R Hi0 He).
    + destruct (is_ssl x) eqn:Hx.
      * destruct (0 <? retries - 1).
        -- rewrite last_n_loop_frame in H.
           destruct (last_n_loop (traced exec) pid n fuel ids tok
                       (retries - 1) (w1, [])) as [res1 [w1' L1]] eqn:R.
           cbn [app] in H. apply (Hgo _ _ _ _ H).
           ++ intros i0 Hi0. apply (IH _ _ _ _ _ _ _ _ _ _ R Hi0 He).
           ++ intros e0 [= <-]. exact Hx.
        -- inversion H; subst. destruct i as [|[|i]]; try discriminate.
           simpl in Hi. inversion Hi; subst. congruence.
      * inversion H; subst. destruct i as [|[|i]]; try discriminate.
        simpl in Hi. inversion Hi; subst. split; reflexivity.
Qed.

(** In both modes, an execution that fails with an error other than a
    secure-transport error is never retried: it is the last execution of
    the run, and the run raises that error. *)
Theorem pagination_other_errors_are_fatal :
  forall (W : Type) (exec : W -> request -> outcome * W) (pid : string)
         (fuel : nat) (w w' : W) (res : result (list string)) (L : trace)
         (i : nat) (req : request) (e : exn),
    nth_error L i = Some (req, inr e) ->
    is_ssl e = false ->
    (get_all_video_ids (traced exec) fuel pid (w, []) = (res, (w', L)) ->
     res = Raise e /\ List.length L = S i)
    /\ (forall n,
           get_last_n_video_ids (traced exec) fuel pid n (w, [])
           = (res, (w', L)) ->
           res = Raise e /\ List.length L = S i).
Proof.
  intros W exec pid fuel w w' res L i req e Hi He. split.
  - intros H. apply (all_loop_fatal _ _ _ _ _ _ _ _ _ _ _ _ _ _ H Hi He).
  - intros n H.
    apply (last_n_loop_fatal _ _ _ _ _ _ _ _ _ _ _ _ _ _ _ H Hi He).
Qed.

Lemma pagination_other_errors_are_fatal_witness :
  let L :=
    [(playlistItems_list "UU" 50 None, @inl response exn
        (page unary unary_pos (repeat "v" 60) 50 None));
     (playlistItems_list "UU" 50 (Some (unary 50)),
      inr (HttpError "quotaExceeded"))] in
  get_all_video_ids
    (traced (scripted (playlist_service unary unary_pos (repeat "v" 60))))
    5 "UU" ([None; Some (inr (HttpError "quotaExceeded"))], [])
  = (Raise (HttpError "quotaExceeded"), ([], L))
  /\ @Raise (list string) (HttpError "quotaExceeded")
     = Raise (HttpError "quotaExceeded")
  /\ List.length L = 2.
Proof.
  intros L.
  assert (H : get_all_video_ids
                (traced (scripted (playlist_service unary unary_pos
                                     (repeat "v" 60))))
                5 "UU" ([None; Some (inr (HttpError "quotaExceeded"))], [])
              = (Raise (HttpError "quotaExceeded"), ([], L)))
    by reflexivity.
  split; [exact H|].
  exact (proj1 (pagination_other_errors_are_fatal _
                  (scripted (playlist_service unary unary_pos (repeat "v" 60)))
                  "UU" 5 [None; Some (inr (HttpError "quotaExceeded"))] []
                  (Raise (HttpError "quotaExceeded")) L
                  1 (playlistItems_list "UU" 50 (Some (unary 50)))
                  (HttpError "quotaExceeded") eq_refl eq_refl) H).
Defined.

Section PlaylistRequests.

Variable enc : nat -> string.
Variable dec : string -> nat.
Hypothesis dec_enc : forall n, dec (enc n) = n.
Hypothesis enc_truthy : forall n, truthy (Some (enc n)) = true.

Variable playlist : list string.
Variable pid : string.

Let service := traced (scripted (playlist_service enc dec playlist)).

Lemma all_loop_request_count :
  forall fuel tok video_ids retries,
    page_offset dec tok <= List.length playlist ->
    List.length playlist < page_offset dec tok + 50 * fuel ->
    exists rows L,
      all_loop service pid fuel video_ids tok retries ([], [])
      = (Return rows, ([], L))
      /\ List.length L
         = Nat.max 1
             ((List.length playlist - page_offset dec tok + 49) / 50).
Proof.
  induction fuel as [|fuel IH]; intros tok ids retries Ho Hfuel; [lia|].
  cbn [all_loop service traced scripted playlist_service page items
       nextPageToken app].
  rewrite append_video_ids_playlist.
  destruct (page_offset dec tok + 50 <? List.length playlist) eqn:Hmore.
  - apply Nat.ltb_lt in Hmore. rewrite enc_truthy.
    destruct (IH (Some (enc (page_offset dec tok + 50)))
                (ids ++ firstn 50 (skipn (page_offset dec tok) playlist))
                retries) as [rows [L [Hrun Hlen]]].
    + cbn [page_offset]. rewrite dec_enc. lia.
    + cbn [page_offset]. rewrite dec_enc. lia.
    + unfold service in *. rewrite all_loop_frame, Hrun.
      eexists. eexists. split; [reflexivity|].
      cbn [app List.length]. rewrite Hlen. cbn [page_offset].
      rewrite dec_enc.
      replace (List.length playlist - page_offset dec tok + 49)
        with (1 * 50 + (List.length playlist
                        - (page_offset dec tok + 50) + 49)) by lia.
      rewrite Nat.div_add_l by lia.
      assert (1 <= (List.length playlist - (page_offset dec tok + 50) + 49)
                   / 50).
      { apply Nat.div_le_lower_bound; lia. }
      lia.
  - apply Nat.ltb_ge in Hmore. cbn [truthy].
    eexists. eexists. split; [reflexivity|]. cbn [List.length].
    assert ((List.length playlist - page_offset dec tok + 49) / 50 < 2).
    { apply Nat.Div0.div_lt_upper_bound. lia. }
    lia.
Qed.

Lemma last_n_loop_request_count :
  forall n fuel tok video_ids retries,
    video_ids = firstn (List.length video_ids) playlist ->
    page_offset dec tok = List.length video_ids ->
    List.length video_ids < n ->
    n - List.length video_ids <= 50 * fuel ->
    exists rows L,
      last_n_loop service pid n fuel video_ids tok retries ([], [])
      = (Return rows, ([], L))
      /\ List.length L
         = Nat.max 1
             ((Nat.min n (List.length playlist) - List.length video_ids + 49)
              / 50).
Proof.
  intros n. induction fuel as [|fuel IH];
    intros tok ids retries Hpre Htok Hlt Hfuel; [lia|].
  set (c := List.length ids) in *.
  set (m := Nat.min (n - c) 50) in *.
  assert (Hlen : c <= List.length playlist).
  { subst c. rewrite Hpre, length_firstn. lia. }
  cbn [last_n_loop]. fold c.
  replace (c <? n) with true by (symmetry; apply Nat.ltb_lt; exact Hlt).
  fold m.
  cbn [service traced scripted playlist_service page items nextPageToken app].
  rewrite Htok.
  rewrite append_video_ids_upto_playlist
    by (rewrite length_firstn; fold c; lia).
  assert (Hids : ids ++ firstn m (skipn c playlist)
                 = firstn (c + m) playlist).
  { rewrite Hpre at 1. fold c. apply firstn_then_page. }
  rewrite Hids.
  assert (Hone : (Nat.min n (List.length playlist) - c + 49) / 50 < 2 ->
                 1 = Nat.max 1
                       ((Nat.min n (List.length playlist) - c + 49) / 50))
    by lia.
  destruct (c + m <? List.length playlist) eqn:Hmore.
  - apply Nat.ltb_lt in Hmore. rewrite enc_truthy.
    assert (Hl : List.length (firstn (c + m) playlist) = c + m)
      by (rewrite length_firstn; lia).
    destruct (Nat.lt_ge_cases (c + m) n) as [Hin|Hin].
    + destruct (IH (Some (enc (c + m))) (firstn (c + m) playlist) retries)
        as [rows [L [Hrun HL]]].
      * rewrite Hl. reflexivity.
      * cbn [page_offset]. rewrite dec_enc, Hl. reflexivity.
      * rewrite Hl. exact Hin.
      * rewrite Hl. lia.
      * unfold service in *. rewrite last_n_loop_frame, Hrun.
        eexists. eexists. split; [reflexivity|].
        cbn [app List.length]. rewrite HL, Hl.
        replace (Nat.min n (List.length playlist) - c + 49)
          with (1 * 50 + (Nat.min n (List.length playlist) - (c + m) + 49))
          by lia.
        rewrite Nat.div_add_l by lia.
        assert (1 <= (Nat.min n (List.length playlist) - (c + m) + 49) / 50).
        { apply Nat.div_le_lower_bound; lia. }
        lia.
    + rewrite last_n_loop_done by (rewrite Hl; exact Hin).
      eexists. eexists. split; [reflexivity|]. cbn [List.length].
      apply Hone. apply Nat.Div0.div_lt_upper_bound. lia.
  - apply Nat.ltb_ge in Hmore. cbn [truthy].
    eexists. eexists. split; [reflexivity|]. cbn [List.length].
    apply Hone. apply Nat.Div0.div_lt_upper_bound. lia.
Qed.

End PlaylistRequests.

(** On a playlist of [M] identifiers served without faults,
    [get_all_video_ids] executes one request for every 50 identifiers,
    rounded up, and one for an empty playlist; [get_last_n_video_ids], for
    a positive [n], as many as [min(n, M)] identifiers need. *)
Theorem pagination_request_count :
  forall (enc : nat -> string) (dec : string -> nat),
    (forall n, dec (enc n) = n) ->
    (forall n, truthy (Some (enc n)) = true) ->
    forall (playlist : list string) (pid : string) (fuel : nat),
      (List.length playlist < 50 * fuel ->
       exists rows L,
         get_all_video_ids
           (traced (scripted (playlist_service enc dec playlist)))
           fuel pid ([], [])
         = (Return rows, ([], L))
         /\ List.length L = Nat.max 1 ((List.length playlist + 49) / 50))
      /\
      (forall n,
          0 < n -> n <= 50 * fuel ->
          exists rows L,
            get_last_n_video_ids
              (traced (scripted (playlist_service enc dec playlist)))
              fuel pid n ([], [])
            = (Return rows, ([], L))
            /\ List.length L
               = Nat.max 1 ((Nat.min n (List.length playlist) + 49) / 50)).
Proof.
  intros enc dec Hde Htr playlist pid fuel. split.
  - intros Hfuel.
    destruct (all_loop_request_count enc dec Hde Htr playlist pid fuel None
                [] 3) as [rows [L [Hrun HL]]]; simpl; try lia.
    exists rows, L. split; [exact Hrun|].
    simpl in HL. rewrite Nat.sub_0_r in HL. exact HL.
  - intros n Hn Hfuel.
    destruct (last_n_loop_request_count enc dec Hde Htr playlist pid n fuel
                None [] 3) as [rows [L [Hrun HL]]];
      try reflexivity; simpl; try lia.
    exists rows, L. split; [exact Hrun|].
    simpl in HL. rewrite Nat.sub_0_r in HL. exact HL.
Qed.

Lemma pagination_request_count_witness :
  List.length (repeat "v" 120) < 50 * 3
  /\ exists rows L,
       get_all_video_ids
         (traced (scripted (playlist_service unary unary_pos (repeat "v" 120))))
         3 "UU" ([], [])
       = (Return rows, ([], L))
       /\ List.length L
          = Nat.max 1 ((List.length (repeat "v" 120) + 49) / 50).
Proof.
  split; [vm_compute; lia|].
  apply (proj1 (pagination_request_count unary unary_pos unary_pos_unary
                  unary_truthy (repeat "v" 120) "UU" 3)).
  vm_compute. lia.
Defined.

(* ================================================================== *)
(** * Further properties of channel resolution *)
(* ================================================================== *)

Module SegmentFacts.

Local Open Scope string_scope.

Lemma rstrip_repeat (c : ascii) (s : string) :
  exists k, s = rstrip c s ++ repeat_char c k.
Proof.
  induction s as [|d s [k IH]]; [exists 0; reflexivity|].
  cbn [rstrip]. destruct (rstrip c s) as [|d' r] eqn:E.
  - destruct (Ascii.eqb d c) eqn:Hd.
    + apply Ascii.eqb_eq in Hd. subst d. exists (S k).
      cbn [append repeat_char]. f_equal. exact IH.
    + exists k. cbn [append]. f_equal. exact IH.
  - exists k. cbn [append]. f_equal. exact IH.
Qed.

(** What [rstrip] leaves does not end with the character. *)
Lemma rstrip_no_trailing (c : ascii) (s p : string) :
  rstrip c s <> p ++ String c EmptyString.
Proof.
  revert p; induction s as [|d s IH]; intros p; cbn [rstrip].
  - destruct p; discriminate.
  - destruct (rstrip c s) as [|d' r] eqn:E.
    + destruct (Ascii.eqb d c) eqn:Hd; [destruct p; discriminate|].
      destruct p as [|x [|y p]]; cbn [append]; try discriminate.
      intros [= ->]. rewrite Ascii.eqb_refl in Hd. discriminate.
    + destruct p as [|x p]; cbn [append].
      * intros H. inversion H.
      * intros [= _ H]. apply (IH p). exact H.
Qed.

Lemma has_char_app (c : ascii) (s t : string) :
  has_char c (s ++ t) = has_char c s || has_char c t.
Proof.
  induction s as [|d s IH]; cbn [append has_char]; [reflexivity|].
  rewrite IH, orb_assoc. reflexivity.
Qed.

Lemma has_char_repeat (c d : ascii) (k : nat) :
  Ascii.eqb d c = false -> has_char c (repeat_char d k) = false.
Proof.
  intros H. induction k as [|k IH]; cbn [repeat_char has_char];
    [reflexivity|]. rewrite H, IH. reflexivity.
Qed.

Lemma py_in_app (sub s : string) :
  py_in sub s = true -> exists a b, s = a ++ sub ++ b.
Proof.
  intros H. destruct (cut sub s) as [[a b]|] eqn:C.
  - exists a, b. apply cut_app, C.
  - apply cut_None in C. congruence.
Qed.

(** A string that holds a character other than [c] is not emptied by
    [rstrip c]. *)
Lemma rstrip_not_empty (c x : ascii) (s : string) :
  Ascii.eqb c x = false -> has_char x s = true ->
  rstrip c s <> EmptyString.
Proof.
  intros Hcx Hx E. destruct (rstrip_repeat c s) as [k Hk].
  rewrite E in Hk. cbn [append] in Hk. rewrite Hk in Hx.
  rewrite has_char_repeat in Hx by exact Hcx. discriminate.
Qed.

(** The last piece of [s.split("/")]: it holds no slash, and in [s] it
    comes at the end, after a slash or at the start. *)
Lemma last_piece (s : string) :
  py_in "/" (last (split "/" s) EmptyString) = false
  /\ exists pre,
       s = pre ++ last (split "/" s) EmptyString
       /\ (pre = EmptyString \/ exists p, pre = p ++ "/").
Proof.
  destruct (py_in "/" s) eqn:Hin.
  - destruct (split_last "/" s ltac:(discriminate) Hin) as [pre [Hs Hno]].
    split; [exact Hno|]. exists (pre ++ "/"). split.
    + rewrite append_assoc. exact Hs.
    + right. exists pre. reflexivity.
  - assert (C : cut "/" s = None) by (apply cut_None, Hin).
    rewrite (split_cut_None _ _ C). cbn [last].
    split; [exact Hin|]. exists EmptyString. split; [reflexivity|left; reflexivity].
Qed.

Lemma prefix_nil (s : string) : prefix EmptyString s = true.
Proof. destruct s; reflexivity. Qed.

(** A slash followed by another character does not occur in a string
    whose only slashes are at its end. *)
Lemma py_in_trailing_slashes (x : ascii) (rest u : string) (k : nat) :
  Ascii.eqb x "/" = false ->
  py_in "/" u = false ->
  py_in (String "/" (String x rest)) (u ++ repeat_char "/" k) = false.
Proof.
  intros Hx. assert (Hx' : x <> "/"%char).
  { intros ->. rewrite Ascii.eqb_refl in Hx. discriminate. }
  induction u as [|d u IH]; intros Hu.
  - cbn [append]. induction k as [|k IHk]; [reflexivity|].
    cbn [repeat_char]. rewrite py_in_eq. rewrite IHk.
    cbn [prefix]. destruct (ascii_dec "/" "/"); [|reflexivity].
    destruct k as [|k]; cbn [repeat_char prefix]; [reflexivity|].
    destruct (ascii_dec x "/"); [congruence|reflexivity].
  - rewrite py_in_eq in Hu. cbn [prefix] in Hu.
    destruct (ascii_dec "/" d) as [E|E].
    + rewrite prefix_nil in Hu. discriminate.
    + cbn [append]. rewrite py_in_eq. cbn [prefix].
      destruct (ascii_dec "/" d); [congruence|]. apply IH, Hu.
Qed.

End SegmentFacts.

Import SegmentFacts.

(** The name looked up for a [/user/], [/c/] or [/@] address is the last
    path segment of the address without its trailing slashes, whatever
    comes before it: it holds no slash, it is not empty, and the stripped
    address ends with it, after a slash. *)
Theorem trailing_segment_is_last_segment :
  forall url : string,
    (py_in "/user/" url || py_in "/c/" url || py_in "/@" url) = true ->
    py_in "/" (trailing_segment url) = false
    /\ trailing_segment url <> EmptyString
    /\ exists pre k,
         url = (pre ++ "/" ++ trailing_segment url
                ++ repeat_char "/" k)%string.
Proof.
  intros url Hshape.
  assert (Hne : rstrip "/" url <> EmptyString).
  { apply orb_true_iff in Hshape. destruct Hshape as [Hshape|H].
    - apply orb_true_iff in Hshape. destruct Hshape as [H|H];
        apply py_in_app in H; destruct H as [a [b ->]].
      + apply (rstrip_not_empty "/" "u"); [reflexivity|].
        rewrite !has_char_app. cbn. apply orb_true_r.
      + apply (rstrip_not_empty "/" "c"); [reflexivity|].
        rewrite !has_char_app. cbn. apply orb_true_r.
    - apply py_in_app in H. destruct H as [a [b ->]].
      apply (rstrip_not_empty "/" "@"); [reflexivity|].
      rewrite !has_char_app. cbn. apply orb_true_r. }
  unfold trailing_segment.
  destruct (last_piece (rstrip "/" url)) as [Hno [pre [Hs Hpre]]].
  destruct (rstrip_repeat "/" url) as [k Hk].
  assert (Hu : last (split "/" (rstrip "/" url)) EmptyString <> EmptyString).
  { intros E. rewrite E in Hs. rewrite append_empty_r in Hs.
    destruct Hpre as [->|[p ->]]; [congruence|].
    apply (rstrip_no_trailing "/" url p). exact Hs. }
  split; [exact Hno|]. split; [exact Hu|].
  destruct Hpre as [->|[p ->]].
  - exfalso. cbn [append] in Hs. rewrite Hs in Hk.
    assert (Hnone : forall x rest,
               Ascii.eqb x "/" = false ->
               py_in (String "/" (String x rest)) url = false).
    { intros x rest Hx. rewrite Hk.
      apply py_in_trailing_slashes; assumption. }
    rewrite (Hnone "u"%char "ser/"), (Hnone "c"%char "/"),
      (Hnone "@"%char EmptyString) in Hshape by reflexivity.
    discriminate.
  - exists p, k. rewrite Hk at 1. rewrite Hs at 1.
    rewrite !append_assoc. reflexivity.
Qed.

Lemma trailing_segment_is_last_segment_witness :
  (py_in "/user/" "https://www.youtube.com/user/foo/videos//"
   || py_in "/c/" "https://www.youtube.com/user/foo/videos//"
   || py_in "/@" "https://www.youtube.com/user/foo/videos//") = true
  /\ py_in "/" (trailing_segment "https://www.youtube.com/user/foo/videos//")
     = false
  /\ trailing_segment "https://www.youtube.com/user/foo/videos//"
     <> EmptyString
  /\ exists pre k,
       "https://www.youtube.com/user/foo/videos//"
       = (pre ++ "/"
          ++ trailing_segment "https://www.youtube.com/user/foo/videos//"
          ++ repeat_char "/" k)%string.
Proof.
  split; [reflexivity|].
  apply (trailing_segment_is_last_segment
           "https://www.youtube.com/user/foo/videos//").
  reflexivity.
Defined.

(** The segment is the last one, not the one after [/user/]. *)
Example trailing_segment_videos :
  trailing_segment "https://www.youtube.com/user/foo/videos//" = "videos".
Proof. vm_compute. reflexivity. Qed.

Lemma first_channel_first_item (field : item -> string + exn)
    (r : response) :
  first_channel field r
  = match first_item r with
    | Some it => Some (match field it with
                       | inl cid => Return cid
                       | inr e => Raise e
                       end)
    | None => None
    end.
Proof.
  unfold first_channel, first_item.
  destruct (items r) as [[|it its]|]; reflexivity.
Qed.

Lemma search_channel_trace :
  forall (W : Type) (exec : W -> request -> outcome * W)
         (url name : string) (w : W) (log : trace),
    exists out w1,
      search_channel (traced exec) url name (w, log)
      = (lookup_result item_channelId (channel_not_found url) out,
         (w1, log ++ [(search_list name, out)])).
Proof.
  intros W exec url name w log. unfold search_channel.
  destruct (exec w (search_list name)) as [out w1] eqn:E.
  rewrite (traced_eq _ _ _ _ _ _ _ E). exists out, w1.
  destruct out as [r|e]; [|reflexivity].
  unfold lookup_result. rewrite first_channel_first_item.
  destruct (first_item r) as [it|]; reflexivity.
Qed.

(** The requests of [extract_channel_id] for an address without
    [/channel/].  With [/user/] or [/c/]: one [channels] lookup by user
    name for the trailing segment and, only when its answer has no entry,
    one [search] for the same segment.  With [/@] alone: one [search] for
    the trailing segment and no lookup by user name.  In both cases an
    answer of the search without entries raises the not-found
    [ValueError], a failed request raises its error at once, and a first
    entry that cannot be read raises the [KeyError] of the key that is not
    there: ['snippet'] for an entry of the search without a snippet,
    ['channelId'] for a snippet without the identifier, ['id'] for an
    entry of the lookup without identifier. *)
Theorem extract_channel_id_lookups :
  forall (W : Type) (exec : W -> request -> outcome * W)
         (url : string) (w w' : W) (res : result string) (L : trace),
    py_in "/channel/" url = false ->
    (py_in "/user/" url || py_in "/c/" url || py_in "/@" url) = true ->
    extract_channel_id (traced exec) url (w, []) = (res, (w', L)) ->
    let name := trailing_segment url in
    ((py_in "/user/" url || py_in "/c/" url) = true ->
     exists out1,
       (L = [(channels_list_forUsername name, out1)]
        /\ (forall r1, out1 = inl r1 -> first_item r1 <> None)
        /\ res = lookup_result item_id (channel_not_found url) out1)
       \/
       (exists r1 out2,
           out1 = inl r1 /\ first_item r1 = None
           /\ L = [(channels_list_forUsername name, out1);
                   (search_list name, out2)]
           /\ res = lookup_result item_channelId
                      (channel_not_found url) out2))
    /\
    ((py_in "/user/" url || py_in "/c/" url) = false ->
     exists out,
       L = [(search_list name, out)]
       /\ res = lookup_result item_channelId
                  (channel_not_found url) out)
    /\
    (forall missing more token,
        lookup_result item_channelId missing
          (inl (mk_response (Some (bare_entry :: more)) token))
        = Raise (KeyError "snippet")
        /\ lookup_result item_channelId missing
             (inl (mk_response (Some (search_entry None :: more)) token))
           = Raise (KeyError "channelId")
        /\ lookup_result item_id missing
             (inl (mk_response (Some (bare_entry :: more)) token))
           = Raise (KeyError "id")
        /\ forall cid,
             lookup_result item_channelId missing
               (inl (mk_response (Some (search_entry (Some cid) :: more))
                                 token))
             = Return cid).
Proof.
  intros W exec url w w' res L Hch Hshape H name.
  cut (((py_in "/user/" url || py_in "/c/" url) = true ->
     exists out1,
       (L = [(channels_list_forUsername name, out1)]
        /\ (forall r1, out1 = inl r1 -> first_item r1 <> None)
        /\ res = lookup_result item_id (channel_not_found url) out1)
       \/
       (exists r1 out2,
           out1 = inl r1 /\ first_item r1 = None
           /\ L = [(channels_list_forUsername name, out1);
                   (search_list name, out2)]
           /\ res = lookup_result item_channelId
                      (channel_not_found url) out2))
    /\
    ((py_in "/user/" url || py_in "/c/" url) = false ->
     exists out,
       L = [(search_list name, out)]
       /\ res = lookup_result item_channelId
                  (channel_not_found url) out)).
  { intros [H1 H2]. split; [exact H1|]. split; [exact H2|].
    intros missing more token. repeat split. }
  unfold extract_channel_id in H. rewrite Hch in H. cbv zeta in H.
  fold (trailing_segment url) in H. fold name in H.
  destruct (py_in "/user/" url || py_in "/c/" url) eqn:Hlegacy.
  - split; [intros _|discriminate].
    destruct (exec w (channels_list_forUsername name)) as [out1 w1] eqn:E.
    rewrite (traced_eq _ _ _ _ _ _ _ E) in H. cbn [app] in H.
    exists out1. destruct out1 as [r1|e].
    + rewrite first_channel_first_item in H.
      destruct (first_item r1) as [it|] eqn:F.
      * left. inversion H; subst. split; [reflexivity|]. split.
        -- intros r [= <-]. congruence.
        -- unfold lookup_result. rewrite F. reflexivity.
      * right.
        match type of H with
        | context [search_channel _ _ _ (?w0, ?l0)] =>
            destruct (search_channel_trace W exec url name w0 l0)
              as [out2 [w2 Hs]]
        end.
        pose proof (eq_trans (eq_sym Hs) H) as H2. inversion H2; subst.
        exists r1, out2. repeat split; auto.
    + left. inversion H; subst. split; [reflexivity|].
      split; [intros r; discriminate|reflexivity].
  - split; [discriminate|intros _].
    cbn [orb] in Hshape. rewrite Hshape in H.
    destruct (search_channel_trace W exec url name w []) as [out [w1 Hs]].
    pose proof (eq_trans (eq_sym Hs) H) as H2. inversion H2; subst.
    exists out. split; reflexivity.
Qed.

Lemma extract_channel_id_lookups_witness :
  py_in "/channel/" "https://www.youtube.com/@handle/" = false
  /\ (py_in "/user/" "https://www.youtube.com/@handle/"
      || py_in "/c/" "https://www.youtube.com/@handle/"
      || py_in "/@" "https://www.youtube.com/@handle/") = true
  /\ extract_channel_id (traced refuse_all)
       "https://www.youtube.com/@handle/" (tt, [])
     = (Raise (HttpError "refused"),
        (tt, [(search_list "@handle", inr (HttpError "refused"))]))
  /\ exists out,
       [(search_list "@handle", @inr response exn (HttpError "refused"))]
       = [(search_list (trailing_segment "https://www.youtube.com/@handle/"),
           out)]
       /\ Raise (HttpError "refused")
          = lookup_result item_channelId
              (channel_not_found "https://www.youtube.com/@handle/") out.
Proof.
  assert (H : extract_channel_id (traced refuse_all)
                "https://www.youtube.com/@handle/" (tt, [])
              = (Raise (HttpError "refused"),
                 (tt, [(search_list "@handle", inr (HttpError "refused"))])))
    by (vm_compute; reflexivity).
  split; [reflexivity|]. split; [reflexivity|]. split; [exact H|].
  apply (proj2 (extract_channel_id_lookups unit refuse_all
                  "https://www.youtube.com/@handle/" tt tt _ _
                  eq_refl eq_refl H)).
  reflexivity.
Defined.

(* ================================================================== *)
(** * The API key *)
(* ================================================================== *)

Module StripFacts.

Lemma all_space_app (a b : string) :
  all_space (a ++ b)%string = all_space a && all_space b.
Proof.
  induction a as [|c a IH]; simpl; [reflexivity|].
  rewrite IH, andb_assoc. reflexivity.
Qed.

Lemma lstrip_spec (s : string) :
  exists pre,
    s = (pre ++ lstrip s)%string
    /\ all_space pre = true
    /\ (lstrip s = EmptyString
        \/ exists a, first_char (lstrip s) = Some a /\ isspace a = false).
Proof.
  induction s as [|c s IH]; simpl.
  - exists EmptyString. auto.
  - destruct (isspace c) eqn:E.
    + destruct IH as (pre & Hs & Hpre & Hfirst).
      exists (String c pre). simpl. rewrite E, Hpre.
      split; [congruence|]. split; [reflexivity|exact Hfirst].
    + exists EmptyString. simpl.
      split; [reflexivity|]. split; [reflexivity|].
      right. exists c. split; [reflexivity|exact E].
Qed.

Lemma lstrip_app_space (pre s : string) :
  all_space pre = true -> lstrip (pre ++ s)%string = lstrip s.
Proof.
  induction pre as [|c pre IH]; simpl; [reflexivity|].
  intros H. apply andb_prop in H. destruct H as [Hc Hpre].
  rewrite Hc. apply IH, Hpre.
Qed.

Lemma lstrip_first (s : string) (a : ascii) :
  first_char s = Some a -> isspace a = false -> lstrip s = s.
Proof.
  destruct s as [|c s]; simpl; [discriminate|].
  intros H Ha. inversion H; subst. rewrite Ha. reflexivity.
Qed.

Lemma rstrip_space_first (s : string) :
  rstrip_space s <> EmptyString ->
  first_char (rstrip_space s) = first_char s.
Proof.
  destruct s as [|d s]; simpl; [reflexivity|].
  destruct (rstrip_space s); [|reflexivity].
  destruct (isspace d); [intros H; contradiction H|]; reflexivity.
Qed.

Lemma rstrip_space_spec (s : string) :
  exists post,
    s = (rstrip_space s ++ post)%string
    /\ all_space post = true
    /\ (rstrip_space s = EmptyString
        \/ exists b, last_char (rstrip_space s) = Some b
                     /\ isspace b = false).
Proof.
  induction s as [|d s IH]; simpl.
  - exists EmptyString. auto.
  - destruct IH as (post & Hs & Hpost & Hlast).
    destruct (rstrip_space s) as [|e r] eqn:E.
    + destruct (isspace d) eqn:Ed.
      * exists (String d post). simpl in *. rewrite Ed, Hpost.
        split; [congruence|]. split; [reflexivity|left; reflexivity].
      * exists post. simpl in *.
        split; [congruence|]. split; [exact Hpost|].
        right. exists d. split; [reflexivity|exact Ed].
    + exists post. simpl in Hs |- *.
      split; [congruence|]. split; [exact Hpost|]. right.
      destruct Hlast as [Hlast|Hlast]; [discriminate|exact Hlast].
Qed.

Lemma rstrip_space_app (s post : string) :
  all_space post = true -> rstrip_space (s ++ post)%string = rstrip_space s.
Proof.
  intros Hpost. induction s as [|d s IH]; simpl.
  - induction post as [|c post IH]; simpl; [reflexivity|].
    simpl in Hpost. apply andb_prop in Hpost. destruct Hpost as [Hc Hp].
    rewrite (IH Hp), Hc. reflexivity.
  - rewrite IH. reflexivity.
Qed.

Lemma rstrip_space_last (s : string) (b : ascii) :
  last_char s = Some b -> isspace b = false -> rstrip_space s = s.
Proof.
  intros Hlast Hb. induction s as [|d s IH]; [discriminate|].
  destruct s as [|e s].
  - simpl in *. inversion Hlast; subst. rewrite Hb. reflexivity.
  - change (rstrip_space (String d (String e s)))
      with (match rstrip_space (String e s) with
            | EmptyString =>
                if isspace d then EmptyString else String d EmptyString
            | r => String d r
            end).
    rewrite IH by exact Hlast. reflexivity.
Qed.

Lemma strip_spec (text : string) :
  match strip text with
  | EmptyString => all_space text = true
  | key =>
      trimmed key = true
      /\ exists pre post,
           text = (pre ++ key ++ post)%string
           /\ all_space pre = true /\ all_space post = true
  end.
Proof.
  unfold strip.
  destruct (lstrip_spec text) as (pre & Htext & Hpre & Hfirst).
  destruct (rstrip_space_spec (lstrip text)) as (post & Hl & Hpost & Hlast).
  pose proof (rstrip_space_first (lstrip text)) as Hf.
  destruct (rstrip_space (lstrip text)) as [|c key] eqn:E.
  - rewrite Htext, Hl, all_space_app, Hpre. exact Hpost.
  - split.
    + destruct Hlast as [Hlast|(b & Hb & Hsb)]; [discriminate|].
      destruct Hfirst as [Hfirst|(a & Ha & Hsa)].
      * rewrite Hfirst in E. discriminate.
      * unfold trimmed. rewrite Hf by discriminate. rewrite Ha, Hb, Hsa, Hsb.
        reflexivity.
    + exists pre, post. rewrite <- Hl. auto.
Qed.

Lemma strip_trimmed (pre key post : string) :
  all_space pre = true -> all_space post = true -> trimmed key = true ->
  strip (pre ++ key ++ post)%string = key.
Proof.
  intros Hpre Hpost Hkey. unfold strip, trimmed in *.
  destruct (first_char key) as [a|] eqn:Ha; [|discriminate].
  destruct (last_char key) as [b|] eqn:Hb; [|discriminate].
  apply andb_prop in Hkey. destruct Hkey as [Hsa Hsb].
  apply negb_true_iff in Hsa, Hsb.
  rewrite lstrip_app_space by exact Hpre.
  rewrite (lstrip_first (key ++ post)%string a).
  - rewrite rstrip_space_app by exact Hpost.
    apply (rstrip_space_last key b); assumption.
  - destruct key; [discriminate|exact Ha].
  - exact Hsa.
Qed.

End StripFacts.

(** The key that [get_api_key] returns is the text of the file without
    the whitespace at its two ends: it is not empty, neither starts nor
    ends with whitespace, and the file is the key between two runs of
    whitespace.  A file of whitespace only, and only such a file, raises
    the [ValueError] of the empty key.  Conversely a trimmed key between
    two runs of whitespace is read back as that key. *)
Theorem get_api_key_strips :
  forall text : string,
    match ApiKey.get_api_key (ApiKey.FileContent text) with
    | inl key =>
        trimmed key = true
        /\ exists pre post,
             text = (pre ++ key ++ post)%string
             /\ all_space pre = true /\ all_space post = true
    | inr e =>
        e = ApiKey.ValueError "API key is empty." /\ all_space text = true
    end
    /\ (forall pre key post,
           text = (pre ++ key ++ post)%string ->
           all_space pre = true -> all_space post = true ->
           trimmed key = true ->
           ApiKey.get_api_key (ApiKey.FileContent text) = inl key).
Proof.
  intros text. split.
  - unfold ApiKey.get_api_key. pose proof (StripFacts.strip_spec text) as H.
    destruct (strip text) as [|c key]; [split; [reflexivity|exact H]|exact H].
  - intros pre key post Htext Hpre Hpost Hkey. unfold ApiKey.get_api_key.
    rewrite Htext, StripFacts.strip_trimmed by assumption.
    destruct key; [discriminate|reflexivity].
Qed.

Lemma get_api_key_strips_witness :
  ApiKey.get_api_key (ApiKey.FileContent (" AIza-key" ++ newline)%string)
  = inl "AIza-key".
Proof.
  apply (proj2 (get_api_key_strips (" AIza-key" ++ newline)%string)
           " " "AIza-key" newline);
    reflexivity.
Defined.

(* ================================================================== *)
(** * The exported file *)
(* ================================================================== *)

Lemma has_char_sanitize (c : ascii) (title : string) :
  has_char c (sanitize title) = negb (illegal_char c) && has_char c title.
Proof.
  induction title as [|d title IH]; simpl; [apply eq_sym, andb_false_r|].
  destruct (illegal_char d) eqn:Ed; simpl; rewrite IH.
  - destruct (Ascii.eqb d c) eqn:E; [|reflexivity].
    apply Ascii.eqb_eq in E. subst d. rewrite Ed. reflexivity.
  - destruct (Ascii.eqb d c) eqn:E; [|reflexivity].
    apply Ascii.eqb_eq in E. subst d. rewrite Ed. reflexivity.
Qed.

Lemma sanitize_legal (s : string) :
  (forall c, illegal_char c = true -> has_char c s = false) ->
  sanitize s = s.
Proof.
  induction s as [|d s IH]; intros H; simpl; [reflexivity|].
  destruct (illegal_char d) eqn:Ed.
  - specialize (H d Ed). simpl in H. rewrite Ascii.eqb_refl in H.
    discriminate.
  - rewrite IH; [reflexivity|]. intros c Hc. specialize (H c Hc).
    simpl in H. apply orb_false_elim in H. apply H.
Qed.

Lemma illegal_char_cases (c : ascii) :
  illegal_char c = true ->
  In c ["\"%char; "/"%char; "*"%char; "?"%char; ":"%char; ascii_of_nat 34;
        "<"%char; ">"%char; "|"%char].
Proof.
  unfold illegal_char. intros H. apply existsb_exists in H.
  destruct H as (d & Hin & Heq). apply Ascii.eqb_eq in Heq. subst d.
  exact Hin.
Qed.

(** The name of the exported file.  [sanitize] removes the nine
    characters of its class and nothing else, and is idempotent; the
    title is the only part of the name that is sanitised, so a character
    of the class is in the name exactly when the selector text or the
    date holds it. *)
Theorem export_filename_sanitized :
  forall (title n date : string),
    (forall c, has_char c (sanitize title)
               = negb (illegal_char c) && has_char c title)
    /\ sanitize (sanitize title) = sanitize title
    /\ String.length (sanitize title) <= String.length title
    /\ (forall c, illegal_char c = true ->
                  has_char c (export_filename title n date)
                  = has_char c n || has_char c date).
Proof.
  intros title n date. split; [intros c; apply has_char_sanitize|].
  split.
  { apply sanitize_legal. intros c Hc. rewrite has_char_sanitize, Hc.
    reflexivity. }
  split.
  { induction title as [|d title IH]; simpl; [lia|].
    destruct (illegal_char d); simpl; lia. }
  intros c Hc. unfold export_filename.
  rewrite !SegmentFacts.has_char_app, has_char_sanitize, Hc. simpl.
  apply illegal_char_cases in Hc. simpl in Hc.
  repeat (destruct Hc as [Hc|Hc]; [subst c; simpl; rewrite ?orb_false_r;
                                   reflexivity|]).
  contradiction.
Qed.

Lemma export_filename_sanitized_witness :
  has_char "/" (export_filename "AC/DC: live" "50" "20240131") = false.
Proof.
  apply (proj2 (proj2 (proj2
           (export_filename_sanitized "AC/DC: live" "50" "20240131")))
           "/"%char).
  reflexivity.
Defined.

(** The column [col] of the sheet below its header. *)
Lemma column_cells_sheet (df : list (frame_row * float64)) (col : nat) :
  column_cells (sheet_of df) col 2 (List.length (sheet_of df))
  = map (fun p => nth (col - 1) (row_cells p) EmptyCell) df.
Proof.
  unfold column_cells, sheet_of, cell_at. simpl List.length.
  rewrite length_map.
  replace (S (List.length df) + 1 - 2) with (List.length df) by lia.
  rewrite <- !seq_shift, !map_map.
  transitivity
    (map (fun p => nth (col - 1) (row_cells p) EmptyCell)
         (map (fun i => nth i df (mk_row EmptyString EmptyString 0
                                         (mk_ts 0 None), f64_zero))
              (seq 0 (List.length df))));
    [|rewrite map_nth_seq; reflexivity].
  rewrite map_map. apply map_ext_in. intros i Hi. apply in_seq in Hi.
  cbn [Nat.sub nth].
  rewrite (nth_indep _ [] (row_cells (mk_row EmptyString EmptyString 0
                                             (mk_ts 0 None), f64_zero)))
    by (rewrite length_map; lia).
  rewrite map_nth. reflexivity.
Qed.

(** The workbook that [export_to_excel] writes has the header and one
    row for each row of the frame; its chart takes its data from the
    third and fourth columns, so that its two series are the view counts
    and the upload dates, under those titles, with the video identifiers
    as categories.  The [moving_avg] column, the fifth, is in the sheet
    and not in the chart. *)
Theorem build_workbook_chart :
  forall (df : list (frame_row * float64)) (channel_title : string),
    let wb := build_workbook df channel_title in
    List.length (wb_sheet wb) = S (List.length df)
    /\ wb_series wb
       = [(TextCell "view_count",
           map (fun p => IntCell (row_view_count (fst p))) df);
          (TextCell "upload_date",
           map (fun p => DateCell (row_upload_date (fst p))) df)]
    /\ wb_categories wb = map (fun p => TextCell (row_video_id (fst p))) df
    /\ cell_at (wb_sheet wb) 1 5 = TextCell "moving_avg".
Proof.
  intros df title wb. unfold wb, build_workbook. cbn [wb_sheet wb_series
    wb_categories].
  split; [unfold sheet_of; simpl; rewrite length_map; reflexivity|].
  split; [|split; [apply column_cells_sheet|reflexivity]].
  unfold add_data. cbn [seq map Nat.add Nat.sub].
  change (3 + 1) with 4. change (1 + 1) with 2.
  rewrite !column_cells_sheet. reflexivity.
Qed.

(* ================================================================== *)
(** * The chart of an analysis *)
(* ================================================================== *)

(** The entries that a test accepts from the position [k] on, and only
    those, are the entries from the position [k] on. *)
Lemma filter_from {A} (f : A -> bool) (d : A) (l : list A) (k : nat) :
  (forall i, i < List.length l -> f (nth i l d) = (k <=? i)) ->
  filter f l = skipn k l.
Proof.
  revert k. induction l as [|x l IH]; intros k H;
    [destruct k; reflexivity|].
  pose proof (H 0 ltac:(simpl; lia)) as H0. cbn [nth] in H0.
  cbn [filter]. rewrite H0. destruct k as [|k]; cbn [Nat.leb skipn].
  - f_equal. rewrite (IH 0); [reflexivity|].
    intros i Hi. apply (H (S i)). simpl. lia.
  - apply IH. intros i Hi. apply (H (S i)). simpl. lia.
Qed.

Lemma traverse_pairs {A B C} (f : A -> option B) (g : C -> A)
    (l : list (C * B)) :
  traverse f (map g (map fst l)) = Some (map snd l) ->
  forall p, In p l -> f (g (fst p)) = Some (snd p).
Proof.
  induction l as [|[c b] l IH]; simpl; intros H p Hp; [contradiction|].
  destruct (f (g c)) as [y|] eqn:E; [|discriminate].
  destruct (traverse f (map g (map fst l))) as [ys|] eqn:Et; [|discriminate].
  injection H as Hy Hys. subst y.
  destruct Hp as [<-|Hp]; [exact E|]. apply IH; [|exact Hp].
  rewrite Hys. reflexivity.
Qed.

Lemma view_counts_of_stats (video_stats : list video_stat) :
  map rec_view_count (map record_of_stat video_stats)
  = map view_count video_stats.
Proof. rewrite map_map. reflexivity. Qed.

Section ChartFacts.

Variable parse_other : list date_cell -> date_cell -> option Timestamp.
Variable timestamp_ms : Timestamp -> Q.

Let point (p : frame_row * float64) : Q * Q :=
  (timestamp_ms (row_upload_date (fst p)), inject_Z (row_view_count (fst p))).

Let avg_point (p : frame_row * float64) : Q * float64 :=
  (timestamp_ms (row_upload_date (fst p)), snd p).

Let no_row : frame_row * float64 :=
  (mk_row EmptyString EmptyString 0 (mk_ts 0 None), S754_nan).

Lemma fill_series_views (df : list (frame_row * float64)) :
  fst (fill_series timestamp_ms df) = map point df.
Proof.
  induction df as [|[row q] df IH]; simpl; [reflexivity|].
  destruct (fill_series timestamp_ms df) as [views avgs]. simpl in *.
  rewrite IH. reflexivity.
Qed.

Lemma fill_series_avgs (df : list (frame_row * float64)) :
  snd (fill_series timestamp_ms df)
  = map avg_point (filter (fun p => is_number (snd p)) df).
Proof.
  induction df as [|[row q] df IH]; simpl; [reflexivity|].
  destruct (fill_series timestamp_ms df) as [views avgs]. simpl in *.
  unfold is_number. destruct (isna q); simpl; rewrite IH; reflexivity.
Qed.

(** A finished analysis with statistics stores the title.  When a line
    of the series raises, that is all.  Else it stores the series,
    enables the export and adds one chart, whose view series has one
    point for each row of the series, in its order.  For fewer than
    twenty videos the window is 1 and the average series has the same
    instants, with the view counts as float64.  When the view counts are
    not negative and their sum is below [2^53], the average series has
    the points of the rows from the position [w - 1] on, with
    [w = max(1, n // 10)]: [n + 1 - w] points, at least one. *)
Theorem handle_worker_finished_chart :
  forall (channel_title : string) (video_stats : list video_stat)
         (st : window),
    video_stats <> [] ->
    let n := List.length video_stats in
    let st' :=
      handle_worker_finished parse_other timestamp_ms
        (FinishedData channel_title video_stats) st in
    match buildSeries parse_other (map record_of_stat video_stats) with
    | None =>
        st' = mk_window (latest_df st) channel_title (latest_n_videos st)
                        (export_enabled st) (charts st) (terminal st)
    | Some df =>
        exists c,
          st' = mk_window (Some df) channel_title (latest_n_videos st) true
                          (charts st ++ [c]) (terminal st)
          /\ chart_title c = ("View Counts for " ++ channel_title)%string
          /\ view_series c = map point df
          /\ List.length (view_series c) = n
          /\ (n < 20 ->
              avg_series c = map avg_point df
              /\ forall p, In p df ->
                   float64_of_int (row_view_count (fst p)) = Some (snd p))
          /\ (Forall (fun s => (0 <= view_count s)%Z) video_stats ->
              (zsum (map view_count video_stats) < 2 ^ 53)%Z ->
              avg_series c = map avg_point (skipn (window_size n - 1) df)
              /\ List.length (avg_series c) = n + 1 - window_size n
              /\ 1 <= List.length (avg_series c))
    end.
Proof.
  intros title stats st Hne n st'.
  assert (Hn : 1 <= n).
  { unfold n. destruct stats; [contradiction Hne; reflexivity|simpl; lia]. }
  destruct (buildSeries parse_other (map record_of_stat stats)) as [df|]
    eqn:Edf.
  2:{ unfold st', handle_worker_finished.
      destruct stats as [|s stats]; [contradiction Hne; reflexivity|].
      rewrite Edf. reflexivity. }
  destruct (buildSeries_parts parse_other _ _ Edf)
    as (dates & _ & _ & _ & Hr & Hlen).
  rewrite length_map in Hlen, Hr. fold n in Hlen, Hr.
  exists (mk_chart ("View Counts for " ++ title)%string
                   (fst (fill_series timestamp_ms df))
                   (snd (fill_series timestamp_ms df))).
  split.
  { unfold st', handle_worker_finished.
    destruct stats as [|s stats]; [contradiction Hne; reflexivity|].
    rewrite Edf. destruct (fill_series timestamp_ms df). reflexivity. }
  cbn [chart_title view_series avg_series].
  split; [reflexivity|]. split; [apply fill_series_views|].
  split; [rewrite fill_series_views, length_map; exact Hlen|].
  rewrite fill_series_avgs. split.
  - intros Hsmall.
    assert (Hw : window_size n = 1).
    { unfold window_size.
      assert (n / 10 <= 1); [|lia].
      apply Nat.lt_succ_r. apply Nat.Div0.div_lt_upper_bound. lia. }
    rewrite Hw, rolling_mean_window_1 in Hr.
    pose proof (traverse_pairs float64_of_int row_view_count df Hr) as Hp.
    split; [|exact Hp]. f_equal.
    apply forallb_filter_id. apply forallb_forall. intros p Hin.
    unfold is_number.
    rewrite (float64_of_int_number _ _ (Hp p Hin)). reflexivity.
  - intros Hnn Hsum.
    pose proof (buildSeries_view_counts parse_other _ _ Edf) as Hperm.
    rewrite view_counts_of_stats in Hperm.
    set (views := map row_view_count (map fst df)) in *.
    assert (Hvn : Forall (fun z => 0 <= z)%Z views).
    { eapply Permutation_Forall; [exact Hperm|]. apply Forall_map.
      exact Hnn. }
    assert (Hvs : (zsum views < 2 ^ 53)%Z)
      by (rewrite <- (zsum_perm _ _ Hperm); exact Hsum).
    assert (Hvl : List.length views = n)
      by (unfold views; rewrite !length_map; exact Hlen).
    pose proof (window_size_pos n) as Hw.
    rewrite (rolling_mean_spec _ views Hw Hvn Hvs) in Hr.
    injection Hr as Hr. rewrite Hvl in Hr.
    assert (Hfilter : filter (fun p => is_number (snd p)) df
                      = skipn (window_size n - 1) df).
    { apply (filter_from _ no_row).
      intros i Hi. rewrite Hlen in Hi.
      replace (snd (nth i df no_row)) with (nth i (map snd df) S754_nan)
        by (rewrite <- (map_nth snd); reflexivity).
      rewrite <- Hr.
      rewrite (nth_indep _ S754_nan (mean_at (window_size n) views 0))
        by (rewrite length_map, length_seq; exact Hi).
      rewrite (map_nth (mean_at (window_size n) views)), seq_nth by exact Hi.
      cbn [Nat.add]. unfold is_number.
      rewrite (mean_at_number _ views i Hw Hvn Hvs) by lia.
      destruct (i + 1 <? window_size n) eqn:E1;
        destruct (window_size n - 1 <=? i) eqn:E2; try reflexivity;
        [apply Nat.ltb_lt in E1; apply Nat.leb_le in E2
        |apply Nat.ltb_ge in E1; apply Nat.leb_gt in E2]; lia. }
    rewrite Hfilter. split; [reflexivity|].
    rewrite length_map, length_skipn, Hlen.
    assert (window_size n <= n).
    { unfold window_size.
      pose proof (Nat.Div0.div_le_upper_bound n 10 n). lia. }
    lia.
Qed.

End ChartFacts.

Lemma sample_rows_counts :
  Forall (fun s => (0 <= view_count s)%Z) sample_rows
  /\ (zsum (map view_count sample_rows) < 2 ^ 53)%Z.
Proof.
  split; [|vm_compute; reflexivity].
  apply Forall_forall. intros s Hs. apply repeat_spec in Hs. subst s.
  simpl. lia.
Qed.

Lemma handle_worker_finished_chart_witness :
  sample_rows <> []
  /\ exists c,
       charts (handle_worker_finished api_only utc_ms
                 (FinishedData "Channel" sample_rows) new_window)
       = [c]
       /\ List.length (view_series c) = 50
       /\ List.length (avg_series c) = 46.
Proof.
  assert (H : sample_rows <> []) by discriminate.
  split; [exact H|].
  pose proof (handle_worker_finished_chart api_only utc_ms "Channel"
                sample_rows new_window H) as Hc.
  cbv zeta in Hc.
  destruct (buildSeries api_only (map record_of_stat sample_rows))
    as [df|] eqn:E; [|vm_compute in E; discriminate E].
  destruct Hc as (c & Hw & _ & _ & Hv & _ & Ha).
  destruct (Ha (proj1 sample_rows_counts) (proj2 sample_rows_counts))
    as (_ & Hl & _).
  exists c. rewrite Hw. split; [reflexivity|]. split; [exact Hv|exact Hl].
Defined.

(* ================================================================== *)
(** * The window over a session *)
(* ================================================================== *)

Section WindowFacts.

Variable parse_other : list date_cell -> date_cell -> option Timestamp.
Variable timestamp_ms : Timestamp -> Q.
Variable py_int : string -> option Z.

Let series (video_stats : list video_stat)
  : option (list (frame_row * float64)) :=
  buildSeries parse_other (map record_of_stat video_stats).

Let on_event := handle parse_other timestamp_ms py_int.
Let session := handle_all parse_other timestamp_ms py_int.

Lemma analyze_channel_cases (text selected_value : string) (st : window) :
  match analyze_channel py_int text selected_value st with
  | (st', None) => st' = st
  | (st', Some (channel_url, n)) =>
      channel_url = strip text
      /\ trimmed channel_url = true
      /\ valid_url channel_url = true
      /\ (n = AllVideos /\ lower selected_value = "all"
          \/ exists z, py_int selected_value = Some z /\ (0 < z)%Z
                       /\ n = LastN (Z.to_nat z) /\ 0 < Z.to_nat z)
      /\ st' = mk_window (latest_df st) (latest_channel_title st)
                         selected_value false []
                         [("Starting analysis for " ++ channel_url)%string]
  end.
Proof.
  unfold analyze_channel. pose proof (StripFacts.strip_spec text) as Hs.
  destruct (strip text) as [|c url] eqn:E; [reflexivity|].
  destruct Hs as [Htrim _].
  destruct (valid_url (String c url)) eqn:Ev; cbn [negb]; [|reflexivity].
  destruct (String.eqb (lower selected_value) "all") eqn:Ea.
  - apply String.eqb_eq in Ea. repeat (split; [reflexivity || assumption|]).
    split; [left; split; [reflexivity|exact Ea]|reflexivity].
  - destruct (py_int selected_value) as [z|] eqn:Ez; [|reflexivity].
    destruct (z <=? 0)%Z eqn:Eneg; [reflexivity|].
    apply Z.leb_gt in Eneg.
    repeat (split; [reflexivity || assumption|]).
    split; [|reflexivity]. right. exists z.
    repeat (split; [reflexivity || assumption|]). lia.
Qed.

(** What an event does to the stored frame, the stored title and the
    export button. *)
Lemma handle_fields (ev : event) (st : window) :
  (latest_df (on_event ev st) = latest_df st
   /\ (export_enabled (on_event ev st) = true -> export_enabled st = true)
   /\ (latest_channel_title (on_event ev st) = latest_channel_title st
       \/ exists video_stats,
            ev = Finished
                   (FinishedData (latest_channel_title (on_event ev st))
                                 video_stats)))
  \/ (exists channel_title video_stats df,
         ev = Finished (FinishedData channel_title video_stats)
         /\ video_stats <> []
         /\ series video_stats = Some df
         /\ latest_df (on_event ev st) = Some df
         /\ latest_channel_title (on_event ev st) = channel_title).
Proof.
  destruct ev as [text sel|message|[title stats|error]|date err];
    unfold on_event, handle.
  - left. pose proof (analyze_channel_cases text sel st) as H.
    destruct (analyze_channel py_int text sel st) as [st' [[url n]|]];
      cbn [fst].
    + destruct H as (_ & _ & _ & _ & ->). cbn. split; [reflexivity|].
      split; [discriminate|left; reflexivity].
    + subst st'. split; [reflexivity|]. split; [exact (fun H => H)|].
      left; reflexivity.
  - left. cbn. split; [reflexivity|]. split; [exact (fun H => H)|].
    left; reflexivity.
  - destruct stats as [|s stats].
    + left. cbn. split; [reflexivity|]. split; [exact (fun H => H)|].
      right. exists []. reflexivity.
    + destruct (series (s :: stats)) as [df|] eqn:Es.
      * right. exists title, (s :: stats), df. split; [reflexivity|].
        split; [discriminate|]. split; [exact Es|].
        unfold handle_worker_finished. unfold series in Es. rewrite Es.
        destruct (fill_series timestamp_ms df). split; reflexivity.
      * left. unfold handle_worker_finished. unfold series in Es.
        rewrite Es. cbn. split; [reflexivity|].
        split; [exact (fun H => H)|]. right. exists (s :: stats).
        reflexivity.
  - left. cbn. split; [reflexivity|]. split; [exact (fun H => H)|].
    left; reflexivity.
  - left. unfold export_to_excel.
    destruct (latest_df st) as [df|] eqn:Edf;
      [|cbn; rewrite Edf; split; [reflexivity|];
        split; [exact (fun H => H)|left; reflexivity]].
    destruct (latest_channel_title st) eqn:Et;
      [cbn; rewrite Edf, Et; split; [reflexivity|];
        split; [exact (fun H => H)|left; reflexivity]|].
    destruct err; cbn; rewrite ?Edf, ?Et;
      (split; [reflexivity|]; split; [exact (fun H => H)|left; reflexivity]).
Qed.

Lemma session_snoc (events : list event) (ev : event) (st : window) :
  session (events ++ [ev]) st = on_event ev (session events st).
Proof. unfold session, handle_all. rewrite fold_left_app. reflexivity. Qed.

(** Whatever happens to the window from the moment it opens, the stored
    frame is the series of the statistics of an analysis that finished
    with statistics, one row for each video; the export button is enabled
    only while a frame is stored; and the stored title is empty or the
    title of an analysis that finished.  So a successful export writes a
    sheet with at least one row below its header. *)
Theorem session_stored_frame :
  forall events : list event,
    let st := session events new_window in
    (forall df,
        latest_df st = Some df ->
        exists channel_title video_stats,
          In (Finished (FinishedData channel_title video_stats)) events
          /\ video_stats <> []
          /\ series video_stats = Some df
          /\ List.length df = List.length video_stats)
    /\ (export_enabled st = true -> latest_df st <> None)
    /\ (latest_channel_title st <> EmptyString ->
        exists video_stats,
          In (Finished (FinishedData (latest_channel_title st) video_stats))
             events)
    /\ (forall current_date save_error filename wb,
           snd (export_to_excel current_date save_error st)
           = Exported filename wb ->
           2 <= List.length (wb_sheet wb)).
Proof.
  intros events st.
  assert (Hinv :
    (forall df,
        latest_df st = Some df ->
        exists channel_title video_stats,
          In (Finished (FinishedData channel_title video_stats)) events
          /\ video_stats <> []
          /\ series video_stats = Some df
          /\ List.length df = List.length video_stats)
    /\ (export_enabled st = true -> latest_df st <> None)
    /\ (latest_channel_title st <> EmptyString ->
        exists video_stats,
          In (Finished (FinishedData (latest_channel_title st) video_stats))
             events)).
  { unfold st. clear st.
    induction events as [|ev events IH] using rev_ind.
    - cbn. split; [discriminate|]. split; [discriminate|].
      intros H; contradiction H; reflexivity.
    - rewrite session_snoc. destruct IH as (Hdf & Hen & Htitle).
      destruct (handle_fields ev (session events new_window))
        as [(Ed & Ee & Et)|(title & stats & df0 & Hev & Hne & Es & Ed & Et)].
      + rewrite Ed. split; [|split].
        * intros df H. destruct (Hdf df H) as (t & s & Hin & Hrest).
          exists t, s. split; [apply in_or_app; left; exact Hin|exact Hrest].
        * intros H. apply Hen, Ee, H.
        * destruct Et as [Et|(stats & Hev)].
          -- rewrite Et. intros H. destruct (Htitle H) as (s & Hin).
             exists s. apply in_or_app; left; exact Hin.
          -- intros _. exists stats. apply in_or_app. right. left.
             exact Hev.
      + rewrite Ed, Et. split; [|split].
        * intros df H. injection H as <-. exists title, stats.
          split; [apply in_or_app; right; left; exact Hev|].
          split; [exact Hne|]. split; [exact Es|].
          destruct (buildSeries_parts parse_other _ _ Es)
            as (_ & _ & _ & _ & _ & Hlen).
          rewrite length_map in Hlen. exact Hlen.
        * discriminate.
        * intros _. exists stats. apply in_or_app. right. left.
          exact Hev. }
  destruct Hinv as (Hdf & Hen & Htitle).
  split; [exact Hdf|]. split; [exact Hen|]. split; [exact Htitle|].
  intros date err filename wb. unfold export_to_excel.
  destruct (latest_df st) as [df|] eqn:Edf; [|discriminate].
  destruct (latest_channel_title st) eqn:Et; [discriminate|].
  destruct err; [discriminate|]. cbn [snd]. intros H.
  injection H as Hname Hwb. subst wb.
  destruct (Hdf df eq_refl) as (t & vs & _ & Hne & _ & Hlen).
  unfold build_workbook, sheet_of.
  cbn [wb_sheet List.length].
  rewrite length_map, Hlen. destruct vs; [contradiction Hne; reflexivity|].
  simpl. lia.
Qed.


End WindowFacts.

Lemma session_stored_frame_witness :
  latest_df
    (handle_all api_only utc_ms int_of_selector
       [Analyze "https://www.youtube.com/@handle" "50";
        Finished (FinishedData "Channel" sample_rows);
        Export "20240131" None] new_window)
  <> None.
Proof.
  apply (proj1 (proj2 (session_stored_frame api_only
                         utc_ms int_of_selector
                         [Analyze "https://www.youtube.com/@handle" "50";
                          Finished (FinishedData "Channel" sample_rows);
                          Export "20240131" None]))).
  vm_compute. reflexivity.
Defined.


(* ================================================================== *)
(** * The worker *)
(* ================================================================== *)

Section Simulation.

Variables W1 W2 : Type.
Variable exec1 : W1 -> request -> outcome * W1.
Variable exec2 : W2 -> request -> outcome * W2.
Variable R : W1 -> W2 -> Prop.
Variable pid : string.

Hypothesis same_pages :
  forall w1 w2 m tok,
    R w1 w2 ->
    fst (exec1 w1 (playlistItems_list pid m tok))
    = fst (exec2 w2 (playlistItems_list pid m tok))
    /\ R (snd (exec1 w1 (playlistItems_list pid m tok)))
         (snd (exec2 w2 (playlistItems_list pid m tok))).

(** Two services that answer the requests for the pages of the playlist
    alike make the pagination loops go alike. *)
Lemma all_loop_sim :
  forall fuel video_ids tok retries w1 w2,
    R w1 w2 ->
    fst (all_loop exec1 pid fuel video_ids tok retries w1)
    = fst (all_loop exec2 pid fuel video_ids tok retries w2)
    /\ R (snd (all_loop exec1 pid fuel video_ids tok retries w1))
         (snd (all_loop exec2 pid fuel video_ids tok retries w2)).
Proof.
  induction fuel as [|fuel IH]; intros ids tok retries w1 w2 HR;
    cbn [all_loop]; [split; [reflexivity|exact HR]|].
  destruct (same_pages w1 w2 50 tok HR) as [Hout HR1].
  destruct (exec1 w1 (playlistItems_list pid 50 tok)) as [o1 w1'].
  destruct (exec2 w2 (playlistItems_list pid 50 tok)) as [o2 w2'].
  cbn [fst snd] in Hout, HR1. subst o2.
  destruct o1 as [r|e].
  - destruct (items r) as [its|]; [|split; [reflexivity|exact HR1]].
    destruct (append_video_ids ids its) as [ids'|e];
      [|split; [reflexivity|exact HR1]].
    destruct (truthy (nextPageToken r));
      [apply IH, HR1|split; [reflexivity|exact HR1]].
  - destruct (is_ssl e); [|split; [reflexivity|exact HR1]].
    destruct (0 <? retries - 1);
      [apply IH, HR1|split; [reflexivity|exact HR1]].
Qed.

Lemma last_n_loop_sim :
  forall n fuel video_ids tok retries w1 w2,
    R w1 w2 ->
    fst (last_n_loop exec1 pid n fuel video_ids tok retries w1)
    = fst (last_n_loop exec2 pid n fuel video_ids tok retries w2)
    /\ R (snd (last_n_loop exec1 pid n fuel video_ids tok retries w1))
         (snd (last_n_loop exec2 pid n fuel video_ids tok retries w2)).
Proof.
  intros n.
  induction fuel as [|fuel IH]; intros ids tok retries w1 w2 HR;
    cbn [last_n_loop];
    (destruct (List.length ids <? n); [|split; [reflexivity|exact HR]]);
    [split; [reflexivity|exact HR]|].
  destruct (same_pages w1 w2 (Nat.min (n - List.length ids) 50) tok HR)
    as [Hout HR1].
  destruct (exec1 w1 (playlistItems_list pid
                        (Nat.min (n - List.length ids) 50) tok)) as [o1 w1'].
  destruct (exec2 w2 (playlistItems_list pid
                        (Nat.min (n - List.length ids) 50) tok)) as [o2 w2'].
  cbn [fst snd] in Hout, HR1. subst o2.
  destruct o1 as [r|e].
  - destruct (items r) as [its|]; [|split; [reflexivity|exact HR1]].
    destruct (append_video_ids_upto n ids its) as [ids'|e];
      [|split; [reflexivity|exact HR1]].
    destruct (truthy (nextPageToken r));
      [apply IH, HR1|split; [reflexivity|exact HR1]].
  - destruct (is_ssl e); [|split; [reflexivity|exact HR1]].
    destruct (0 <? retries - 1);
      [apply IH, HR1|split; [reflexivity|exact HR1]].
Qed.

End Simulation.

(** A service that answers every videos request with rows answers all
    the batches, and the statistics are the rows of the batches in their
    order. *)
Lemma statistics_loop_served :
  forall (serve : request -> outcome) (rows_of : string -> list video_stat),
    (forall id, serve (videos_list id) = inl (rows_page (rows_of id))) ->
    forall (bs : list (list string)) (statistics : list video_stat)
           (log : trace),
    exists log',
      statistics_loop (traced (scripted serve)) bs statistics ([], log)
      = (Return (statistics
                 ++ List.concat (map (fun b => rows_of (join_ids b)) bs)),
         ([], log')).
Proof.
  intros serve rows_of Hserve bs.
  induction bs as [|b bs IH]; intros st log.
  - exists log. simpl. rewrite app_nil_r. reflexivity.
  - cbn [statistics_loop traced scripted]. rewrite Hserve.
    unfold rows_page at 1, collect_statistics. cbn [items].
    rewrite append_statistics_stat_items. cbn [fst].
    match goal with
    | |- context [statistics_loop _ bs ?s (_, ?l)] =>
        destruct (IH s l) as [log' Hrun]
    end.
    exists log'. etransitivity; [exact Hrun|]. cbn [map List.concat].
    rewrite <- List.app_assoc. reflexivity.
Qed.

Section ChannelRuns.

Variable enc : nat -> string.
Variable dec : string -> nat.
Hypothesis dec_enc : forall n, dec (enc n) = n.
Hypothesis enc_truthy : forall n, truthy (Some (enc n)) = true.

Variable playlist : list string.
Variable rows_of : string -> list video_stat.

Let service := traced (scripted (channel_service enc dec playlist rows_of)).
Let pages := traced (scripted (playlist_service enc dec playlist)).

Lemma channel_service_pages (pid : string) :
  forall w1 w2 m tok,
    script_done w1 /\ script_done w2 ->
    fst (service w1 (playlistItems_list pid m tok))
    = fst (pages w2 (playlistItems_list pid m tok))
    /\ (script_done (snd (service w1 (playlistItems_list pid m tok)))
        /\ script_done (snd (pages w2 (playlistItems_list pid m tok)))).
Proof.
  intros [s1 l1] [s2 l2] m tok [H1 H2]. unfold script_done in *.
  simpl in H1, H2. subst s1 s2. repeat split.
Qed.

(** On a channel behind the endpoints, the pagination of the worker
    returns the identifiers it is asked for and uses up nothing of the
    script. *)
Lemma wanted_video_ids (pid : string) (n : n_videos) (fuel : nat) :
  match n with
  | AllVideos => List.length playlist < 50 * fuel
  | LastN k => k <= 50 * fuel
  end ->
  exists log,
    match n with
    | AllVideos => get_all_video_ids service fuel pid ([], [])
    | LastN k => get_last_n_video_ids service fuel pid k ([], [])
    end
    = (Return (wanted n playlist), ([], log)).
Proof.
  intros Hfuel.
  assert (Hinit : script_done (@nil (option outcome), @nil (request * outcome))
                  /\ script_done (@nil (option outcome),
                                  @nil (request * outcome)))
    by (split; reflexivity).
  destruct n as [|k].
  - assert (Ho : page_offset dec None <= List.length playlist)
      by (cbn [page_offset]; lia).
    assert (Hf : fault_count [] < 3) by (cbv; lia).
    assert (Hfu : List.length playlist + 50 * fault_count []
                  < page_offset dec None + 50 * fuel)
      by (change (fault_count []) with 0; cbn [page_offset]; lia).
    destruct (all_loop_playlist enc dec dec_enc enc_truthy playlist pid
                fuel [] None [] 3 [] Ho Hf Hfu) as [w2 H2].
    destruct (all_loop_sim _ _ service pages
                (fun w1 w2 => script_done w1 /\ script_done w2) pid
                (channel_service_pages pid) fuel [] None 3
                ([], []) ([], []) Hinit) as [Hres [Hdone _]].
    change (ssl_script []) with (@nil (option outcome)) in H2.
    pose proof (eq_trans Hres (f_equal fst H2)) as Hret.
    unfold get_all_video_ids.
    destruct (all_loop service pid fuel [] None 3 ([], []))
      as [res [scr log]].
    unfold script_done in Hdone. cbn [fst snd] in Hret, Hdone.
    subst res scr. exists log. reflexivity.
  - assert (Hle : List.length (@nil string) <= k) by (cbn; lia).
    assert (Hf : fault_count [] < 3) by (cbv; lia).
    assert (Hfu : List.length (@nil string) < k ->
                  k - List.length (@nil string) + 50 * fault_count []
                  <= 50 * fuel)
      by (change (fault_count []) with 0; cbn [List.length]; lia).
    destruct (last_n_loop_playlist enc dec dec_enc enc_truthy playlist pid
                k fuel [] None [] 3 [] eq_refl eq_refl Hle Hf Hfu)
      as [w2 H2].
    destruct (last_n_loop_sim _ _ service pages
                (fun w1 w2 => script_done w1 /\ script_done w2) pid
                (channel_service_pages pid) k fuel [] None 3
                ([], []) ([], []) Hinit) as [Hres [Hdone _]].
    change (ssl_script []) with (@nil (option outcome)) in H2.
    pose proof (eq_trans Hres (f_equal fst H2)) as Hret.
    unfold get_last_n_video_ids.
    destruct (last_n_loop service pid k fuel [] None 3 ([], []))
      as [res [scr log]].
    unfold script_done in Hdone. cbn [fst snd] in Hret, Hdone.
    subst res scr. exists log. reflexivity.
Qed.

(** From the address to the statistics.  For a [/channel/] address, a
    channels endpoint that knows the channel, an uploads playlist served
    by pages and a videos endpoint that answers every batch, and with
    fuel for the pages, the worker emits its seven progress messages and
    finishes with the title of the channel and the rows of the batches of
    fifty of the identifiers it was asked for: all of the playlist, or
    its first [k]. *)
Theorem run_reports_channel :
  forall (channel_url : string) (it : channel_item)
         (more : list channel_item) (pid channel_title : string)
         (n : n_videos) (fuel : nat),
    py_in "/channel/" channel_url = true ->
    ch_uploads it = inl pid ->
    ch_title it = inl channel_title ->
    match n with
    | AllVideos => List.length playlist < 50 * fuel
    | LastN k => k <= 50 * fuel
    end ->
    let video_ids := wanted n playlist in
    exists w',
      run service (channel_lookup (it :: more)) fuel channel_url n ([], [])
      = (full_progress channel_url (channel_segment channel_url)
           channel_title n (List.length video_ids),
         Some (FinishedData channel_title
                 (List.concat (map (fun b => rows_of (join_ids b))
                                   (batches video_ids)))),
         w').
Proof.
  intros url it more pid title n fuel Hin Hup Htitle Hfuel ids.
  destruct (wanted_video_ids pid n fuel Hfuel) as [log Hids].
  destruct (statistics_loop_served
              (channel_service enc dec playlist rows_of) rows_of
              (fun id => eq_refl) (batches ids) [] log) as [log' Hstats].
  exists ([], log').
  unfold run, extract_channel_id. rewrite Hin. cbn [stage].
  unfold get_uploads_playlist_id, channel_lookup. rewrite Hup, Htitle.
  cbn [stage].
  destruct n as [|k]; rewrite Hids; cbn [stage];
    unfold get_videos_statistics; fold ids; unfold service in Hstats |- *;
    rewrite Hstats; reflexivity.
Qed.

End ChannelRuns.

Lemma run_reports_channel_witness :
  exists w',
    run (traced (scripted (channel_service unary unary_pos ["a"; "b"; "c"]
                             (fun id => [mk_stat id "t" 7 "2024-01-01"]))))
        (channel_lookup
           [mk_channel_item (Some (Some (Some "UU"))) (Some (Some "Channel"))])
        1 "https://www.youtube.com/channel/UC123/videos" (LastN 2) ([], [])
    = (["Processing channel: https://www.youtube.com/channel/UC123/videos";
        "Extracted Channel ID: UC123";
        "Channel Title: Channel";
        "Fetching video IDs...";
        "Total Videos Retrieved: 2";
        "Fetching video statistics...";
        "Video statistics retrieved."],
       Some (FinishedData "Channel" [mk_stat "a,b" "t" 7 "2024-01-01"]),
       w').
Proof.
  apply (run_reports_channel unary unary_pos unary_pos_unary unary_truthy
           ["a"; "b"; "c"] (fun id => [mk_stat id "t" 7 "2024-01-01"])
           "https://www.youtube.com/channel/UC123/videos"
           (mk_channel_item (Some (Some (Some "UU"))) (Some (Some "Channel")))
           [] "UU" "Channel" (LastN 2) 1);
    [reflexivity|reflexivity|reflexivity|simpl; lia].
Defined.

(** Whatever the services do, the progress messages of the worker are the
    first messages of the full sequence, at least one; data is reported
    only after all seven, under the title that was announced, and an
    error or a loop that does not end only after fewer. *)
Theorem run_progress_prefix :
  forall (W : Type) (exec : W -> request -> outcome * W)
         (lookup : W -> string -> channel_outcome * W)
         (fuel : nat) (channel_url : string) (n : n_videos) (w : W),
    let progress := fst (fst (run exec lookup fuel channel_url n w)) in
    let data := snd (fst (run exec lookup fuel channel_url n w)) in
    exists channel_id channel_title count,
      progress
      = firstn (List.length progress)
          (full_progress channel_url channel_id channel_title n count)
      /\ 1 <= List.length progress
      /\ match data with
         | Some (FinishedData reported video_stats) =>
             reported = channel_title /\ List.length progress = 7
         | _ => List.length progress <= 6
         end.
Proof.
  intros W exec lookup fuel url n w. unfold run.
  destruct (extract_channel_id exec url w) as [[cid|e|] w1]; cbn [stage];
    try (exists EmptyString, EmptyString, 0; cbn;
         split; [reflexivity|split; lia]).
  destruct (get_uploads_playlist_id lookup cid w1) as [[[pid title]|e|] w2];
    cbn [stage];
    try (exists cid, EmptyString, 0; cbn; split; [reflexivity|split; lia]).
  destruct (match n with
            | AllVideos => get_all_video_ids exec fuel pid w2
            | LastN k => get_last_n_video_ids exec fuel pid k w2
            end) as [[ids|e|] w3]; cbn [stage];
    try (exists cid, title, 0; destruct n; cbn;
         (split; [reflexivity|split; lia])).
  destruct (get_videos_statistics exec ids w3) as [[stats|e|] w4];
    cbn [stage];
    exists cid, title, (List.length ids); destruct n; cbn;
    (split; [reflexivity|split; [lia|]]); try lia; (split; reflexivity).
Qed.

(** A request for an analysis that is refused leaves the window as it
    is.  One that is accepted starts a worker on the address without the
    whitespace around it, which is not empty and begins with the address
    of the site, for all the videos or for a positive number of them; it
    clears the charts and the terminal and disables the export, and keeps
    the stored frame and the stored title. *)
Theorem analyze_channel_starts_worker :
  forall (py_int : string -> option Z) (text selected_value : string)
         (st : window),
    match analyze_channel py_int text selected_value st with
    | (st', None) => st' = st
    | (st', Some (channel_url, n)) =>
        channel_url = strip text
        /\ trimmed channel_url = true
        /\ valid_url channel_url = true
        /\ (n = AllVideos /\ lower selected_value = "all"
            \/ exists z, py_int selected_value = Some z /\ (0 < z)%Z
                         /\ n = LastN (Z.to_nat z) /\ 0 < Z.to_nat z)
        /\ st' = mk_window (latest_df st) (latest_channel_title st)
                           selected_value false []
                           [("Starting analysis for " ++ channel_url)%string]
    end.
Proof. intros py_int text sel st. apply analyze_channel_cases. Qed.
